(** * libFirm: loop unrolling, back-end verifier, prologue and 2-address fix-ups

    A shallow embedding of the parts of libFirm that the specification
    talks about:

    - [ir/opt/loop_unrolling.c]        (module [LoopUnrolling])
    - [ir/be/beverify.c]               (module [BeVerify])
    - [ir/be/mips/mips_bearch.c]       (module [MipsBearch])
    - [ir/be/ia32/ia32_finish.c]       (module [Ia32Finish])

    The back-end modules share the graph of module [Be].

    Pointers to IR nodes are node indices ([irn]); a [NULL] pointer is
    [None].  A failed [assert], a null dereference, a division by zero or a
    loop that does not terminate is the [None] outcome of the option monad.
    C integers are [Z] with their wrap-around written out. *)

From stdpp Require Import base option list gmap.
From Stdlib Require Import ZArith Lia.

Local Open Scope Z_scope.

(** ** Machine integers (LP64 host) *)

Definition UINT_BITS : Z := 32.
Definition ULONG_BITS : Z := 64.
Definition UINT_MAX : Z := 2 ^ UINT_BITS - 1.
Definition INT_MAX : Z := 2 ^ (UINT_BITS - 1) - 1.
Definition INT_MIN : Z := - 2 ^ (UINT_BITS - 1).

(** [(unsigned) z]: conversion to a 32-bit unsigned. *)
Definition to_unsigned (z : Z) : Z := z mod 2 ^ UINT_BITS.

(** [(int) z]: conversion to a 32-bit two's complement integer. *)
Definition to_int (z : Z) : Z :=
  (z + 2 ^ (UINT_BITS - 1)) mod 2 ^ UINT_BITS - 2 ^ (UINT_BITS - 1).

(** ** Structured control flow: a statement either returns or falls through *)

Inductive flow (R S : Type) : Type :=
  | Return (r : R)
  | Next (s : S).
Arguments Return {R S} r.
Arguments Next {R S} s.

Definition flow_seq {R S T} (c : flow R S) (k : S → flow R T) : flow R T :=
  match c with
  | Return r => Return r
  | Next s => k s
  end.

Definition flow_run {R} (c : flow R R) : R :=
  match c with
  | Return r => r
  | Next r => r
  end.

(** ** The IR graph as the optimiser sees it *)

Module Firm.

Definition irn := nat.          (* ir_node*   *)
Definition loop_id := nat.      (* ir_loop*   *)
Definition ir_entity := nat.    (* ir_entity* *)
Definition ir_type := nat.      (* ir_type*   *)
Definition irg_id := nat.       (* ir_graph*  *)
Bind Scope nat_scope with irn loop_id ir_entity ir_type irg_id.

Inductive ir_opcode : Set :=
  | iro_Block | iro_Start | iro_End | iro_Phi | iro_Const | iro_Address
  | iro_Add | iro_Sub | iro_Mul | iro_Mulh | iro_And | iro_Or | iro_Eor
  | iro_Shl | iro_Shr | iro_Shrs | iro_Cmp
  | iro_Minus | iro_Not | iro_Conv | iro_Div | iro_Mod | iro_Pin | iro_NoMem
  | iro_Cond | iro_Proj | iro_Jmp | iro_Return
  | iro_Load | iro_Store | iro_Call | iro_Bad | iro_Unknown.

Global Instance ir_opcode_eq_dec : EqDecision ir_opcode.
Proof. solve_decision. Defined.

Inductive ir_mode : Set :=
  | mode_Bs | mode_Bu | mode_Hs | mode_Hu | mode_Is | mode_Iu
  | mode_Ls | mode_Lu | mode_F | mode_D | mode_P | mode_b
  | mode_M | mode_X | mode_T | mode_BB | mode_ANY | mode_BAD.

Global Instance ir_mode_eq_dec : EqDecision ir_mode.
Proof. solve_decision. Defined.

Definition mode_is_int (m : ir_mode) : bool :=
  match m with
  | mode_Bs | mode_Bu | mode_Hs | mode_Hu
  | mode_Is | mode_Iu | mode_Ls | mode_Lu => true
  | _ => false
  end.

Definition mode_is_signed (m : ir_mode) : bool :=
  match m with
  | mode_Bs | mode_Hs | mode_Is | mode_Ls | mode_F | mode_D => true
  | _ => false
  end.

Definition get_mode_size_bits (m : ir_mode) : Z :=
  match m with
  | mode_Bs | mode_Bu => 8
  | mode_Hs | mode_Hu => 16
  | mode_Is | mode_Iu | mode_F | mode_P => 32
  | mode_Ls | mode_Lu | mode_D => 64
  | mode_b => 1
  | _ => 0
  end.

(** [ir_relation] is a bit set over equal / less / greater / unordered. *)
Definition ir_relation := Z.
Definition ir_relation_false : ir_relation := 0.
Definition ir_relation_equal : ir_relation := 1.
Definition ir_relation_less : ir_relation := 2.
Definition ir_relation_greater : ir_relation := 4.
Definition ir_relation_unordered : ir_relation := 8.
Definition ir_relation_less_equal : ir_relation := 3.
Definition ir_relation_greater_equal : ir_relation := 5.
Definition ir_relation_less_greater : ir_relation := 6.
Definition ir_relation_unordered_less_greater : ir_relation := 14.
Definition ir_relation_true : ir_relation := 15.

Definition pn_Cond_false : Z := 0.
Definition pn_Cond_true : Z := 1.

(** A node: opcode, mode, owning block (input -1), inputs, and the
    attributes the unroller reads. *)
Record ir_node : Type := mk_ir_node {
  irn_op : ir_opcode;
  irn_mode : ir_mode;
  irn_block : irn;
  irn_in : list irn;
  irn_relation : ir_relation;       (* Cmp *)
  irn_proj_num : Z;                 (* Proj *)
  irn_tarval : Z;                   (* Const *)
  irn_callee : option ir_entity;    (* Call *)
  irn_type : ir_type;               (* Load, Store, Call *)
  irn_loop : option loop_id         (* the node's [loop] field *)
}.

Inductive loop_element : Type :=
  | k_ir_node (node : irn)
  | k_ir_loop (son : loop_id).

Record ir_loop : Type := mk_ir_loop {
  loop_outer_loop : loop_id;
  loop_children : list loop_element;
  loop_depth : Z
}.

(** The out edges ([get_irn_out_ex]) are an analysis result the pass
    requires ([IR_GRAPH_PROPERTY_CONSISTENT_OUTS]); they are kept next to
    the nodes, in the order the analysis left them. *)
Record ir_graph : Type := mk_ir_graph {
  irg_nodes : gmap irn ir_node;
  irg_outs : gmap irn (list (irn * Z));
  irg_loops : gmap loop_id ir_loop;
  irg_loop : loop_id;
  irg_start_block : irn;
  irg_last_idx : nat                (* the index the next new node gets *)
}.

Section accessors.
Context (g : ir_graph).

Definition get_node (n : irn) : option ir_node := irg_nodes g !! n.

Definition has_op (o : ir_opcode) (n : irn) : bool :=
  match get_node n with
  | Some nd => bool_decide (irn_op nd = o)
  | None => false
  end.

Definition is_Block := has_op iro_Block.
Definition is_Phi := has_op iro_Phi.
Definition is_Proj := has_op iro_Proj.
Definition is_Cond := has_op iro_Cond.
Definition is_Cmp := has_op iro_Cmp.
Definition is_Const := has_op iro_Const.
Definition is_Load := has_op iro_Load.
Definition is_Store := has_op iro_Store.
Definition is_Call := has_op iro_Call.
Definition is_Conv := has_op iro_Conv.
Definition is_Add := has_op iro_Add.
Definition is_Sub := has_op iro_Sub.
Definition is_Mul := has_op iro_Mul.
Definition is_End := has_op iro_End.

(** [is_binop]: the opcode has binary arity. *)
Definition is_binop (n : irn) : bool :=
  match get_node n with
  | Some nd =>
      match irn_op nd with
      | iro_Add | iro_Sub | iro_Mul | iro_Mulh | iro_And | iro_Or
      | iro_Eor | iro_Shl | iro_Shr | iro_Shrs | iro_Cmp => true
      | _ => false
      end
  | None => false
  end.

Definition get_irn_mode (n : irn) : option ir_mode :=
  irn_mode <$> get_node n.

Definition get_irn_in (n : irn) : option (list irn) :=
  irn_in <$> get_node n.

Definition get_irn_arity (n : irn) : option nat :=
  length <$> get_irn_in n.

Definition get_irn_n (n : irn) (i : nat) : option irn :=
  ins ← get_irn_in n; ins !! i.

(** [get_nodes_block] asserts that the node is not a Block. *)
Definition get_nodes_block (n : irn) : option irn :=
  nd ← get_node n;
  if bool_decide (irn_op nd = iro_Block) then None else Some (irn_block nd).

Definition get_block (n : irn) : option irn :=
  nd ← get_node n;
  if bool_decide (irn_op nd = iro_Block) then Some n else Some (irn_block nd).

Definition get_irn_loop (n : irn) : option (option loop_id) :=
  irn_loop <$> get_node n.

Definition get_irn_outs (n : irn) : list (irn * Z) :=
  default [] (irg_outs g !! n).

Definition get_irn_n_outs (n : irn) : nat := length (get_irn_outs n).

Definition get_irn_out (n : irn) (i : nat) : option irn :=
  fst <$> get_irn_outs n !! i.

Definition get_Proj_pred (n : irn) : option irn := get_irn_n n 0.
Definition get_Proj_num (n : irn) : option Z := irn_proj_num <$> get_node n.
Definition get_Cond_selector (n : irn) : option irn := get_irn_n n 0.
Definition get_Cmp_left (n : irn) : option irn := get_irn_n n 0.
Definition get_Cmp_right (n : irn) : option irn := get_irn_n n 1.
Definition get_Cmp_relation (n : irn) : option ir_relation :=
  irn_relation <$> get_node n.
Definition get_binop_left (n : irn) : option irn := get_irn_n n 0.
Definition get_binop_right (n : irn) : option irn := get_irn_n n 1.
Definition get_Load_ptr (n : irn) : option irn := get_irn_n n 1.
Definition get_Store_ptr (n : irn) : option irn := get_irn_n n 1.
Definition get_Call_ptr (n : irn) : option irn := get_irn_n n 1.
Definition get_Call_params (n : irn) : option (list irn) :=
  drop 2 <$> get_irn_in n.
Definition get_Call_callee (n : irn) : option (option ir_entity) :=
  irn_callee <$> get_node n.
Definition get_node_type (n : irn) : option ir_type :=
  irn_type <$> get_node n.
Definition get_Conv_op (n : irn) : option irn := get_irn_n n 0.
Definition get_Phi_preds (n : irn) : option (list irn) := get_irn_in n.

Definition get_loop (l : loop_id) : option ir_loop := irg_loops g !! l.
Definition get_loop_elements (l : loop_id) : option (list loop_element) :=
  loop_children <$> get_loop l.
Definition get_loop_outer_loop (l : loop_id) : option loop_id :=
  loop_outer_loop <$> get_loop l.
Definition get_loop_depth (l : loop_id) : option Z :=
  loop_depth <$> get_loop l.

(** Bounds for the recursions over the loop tree and over the nodes: no
    walk over a well-formed graph is longer than the tables. *)
Definition loop_fuel : nat := S (size (irg_loops g)).
Definition node_fuel : nat := S (size (irg_nodes g)).
End accessors.

(** What the unroller asks of the rest of the library. *)
Inductive ir_alias_relation : Set := ir_no_alias | ir_may_alias | ir_sure_alias.

Global Instance ir_alias_relation_eq_dec : EqDecision ir_alias_relation.
Proof. solve_decision. Defined.

Record analyses : Type := mk_analyses {
  get_Block_idom : irn → option irn;
  block_dominates : irn → irn → bool;
  get_alias_relation :
    irn → ir_type → Z → irn → ir_type → Z → ir_alias_relation;
  get_type_size : ir_type → Z;
  entity_is_pure : ir_entity → bool;   (* properties & mtp_property_pure *)
  get_entity_linktime_irg : ir_entity → option irg_id;
  irg_blocks : irg_id → list irn;      (* irg_walk_blkwise_graph *)
  getenv_DUFF_FACTOR : Z               (* atoi(getenv("DUFF_FACTOR")) *)
}.

End Firm.

Module LoopUnrolling.

Import Firm.

(** ** Small helpers for the option monad *)

Definition assert (b : bool) : option unit := if b then Some () else None.

Notation "'let?' x := y 'in' z" :=
  (match y with Some x => z | None => None end)
  (at level 10, x pattern, y at level 100, z at level 200,
   format "'[v' 'let?'  x  :=  y  'in' '/' z ']'").

Notation "'assert!' b 'in' z" :=
  (match assert b with Some _ => z | None => None end)
  (at level 10, b at level 100, z at level 200,
   format "'[v' 'assert!'  b  'in' '/' z ']'").

Fixpoint foldM {S X : Type} (f : S → X → option S) (s : S) (l : list X)
    : option S :=
  match l with
  | [] => Some s
  | x :: l => s' ← f s x; foldM f s' l
  end.

(** ** Loop tree queries *)

Section loop_tree.
Context (A : analyses) (g : ir_graph).

(** [is_inner_loop]: climb [outer_loop] links until the root (its own
    outer loop) or [outer_loop] is reached. *)
Fixpoint is_inner_loop_from (fuel : nat) (outer_loop : option loop_id)
    (inner_loop : loop_id) : option bool :=
  match fuel with
  | O => None
  | S fuel =>
      let old_inner_loop := inner_loop in
      let? inner_loop := get_loop_outer_loop g inner_loop in
      if bool_decide (inner_loop ≠ old_inner_loop)
         && bool_decide (Some inner_loop ≠ outer_loop)
      then is_inner_loop_from fuel outer_loop inner_loop
      else Some (bool_decide (inner_loop ≠ old_inner_loop))
  end.

Definition is_inner_loop (outer_loop : option loop_id) (inner_loop : loop_id)
    : option bool :=
  is_inner_loop_from (loop_fuel g) outer_loop inner_loop.

Definition block_is_inside_loop (block : irn) (loop : option loop_id)
    : option bool :=
  let? block_loop := get_irn_loop g block in
  match block_loop with
  | None => Some false
  | Some bl =>
      if bool_decide (Some bl = loop) then Some true
      else is_inner_loop loop bl
  end.

(** [loop && !block_is_inside_loop(get_block(node), loop)] *)
Definition outside_given_loop (node : irn) (loop : option loop_id)
    : option bool :=
  match loop with
  | None => Some false
  | Some _ =>
      let? block := get_block g node in
      negb <$> block_is_inside_loop block loop
  end.

(** [loop && block_is_inside_loop(get_block(node), loop)] *)
Definition inside_given_loop (node : irn) (loop : option loop_id)
    : option bool :=
  let? block := get_block g node in
  match loop with
  | None => Some false
  | Some _ => block_is_inside_loop block loop
  end.

Fixpoint block_dominates_loop_from (fuel : nat) (block : irn)
    (loop : loop_id) : option bool :=
  match fuel with
  | O => None
  | S fuel =>
      let? elements := get_loop_elements g loop in
      (fix go (els : list loop_element) : option bool :=
         match els with
         | [] => Some true
         | k_ir_node node :: els =>
             assert! is_Block g node in
             if block_dominates A block node then go els else Some false
         | k_ir_loop son :: els =>
             let? b := block_dominates_loop_from fuel block son in
             if b then go els else Some false
         end) elements
  end.

Definition block_dominates_loop (block : irn) (loop : loop_id)
    : option bool :=
  block_dominates_loop_from (loop_fuel g) block loop.

Fixpoint first_block_element (els : list loop_element) : option irn :=
  match els with
  | [] => None
  | k_ir_node node :: _ => Some node
  | k_ir_loop _ :: els => first_block_element els
  end.

Fixpoint walk_up_dominance_tree (fuel : nat) (loop : loop_id) (header : irn)
    : option irn :=
  match fuel with
  | O => None
  | S fuel =>
      match get_Block_idom A header with
      | None => Some header
      | Some idom =>
          let? inside := block_is_inside_loop idom (Some loop) in
          if inside then walk_up_dominance_tree fuel loop idom
          else Some header
      end
  end.

(** [get_loop_header]: the block that dominates all blocks of the loop,
    or [NULL] (the inner [None]). *)
Definition get_loop_header (loop : loop_id) : option (option irn) :=
  let? elements := get_loop_elements g loop in
  let? header := first_block_element elements in
  assert! is_Block g header in
  let? header := walk_up_dominance_tree (node_fuel g) loop header in
  let? dominates := block_dominates_loop header loop in
  Some (if dominates then Some header else None).

Definition is_Proj_attached_to_Cmp (proj : irn) : option bool :=
  assert! is_Proj g proj in
  let? post_proj := get_Proj_pred g proj in
  if negb (is_Cond g post_proj) then Some false
  else
    let? pre_Cond := get_Cond_selector g post_proj in
    Some (is_Cmp g pre_Cond).

Definition targets_step (header : irn) (acc : option irn * option irn)
    (out : irn * Z) : option (option irn * option irn) :=
  let curr := out.1 in
  if negb (is_Proj g curr) then Some acc
  else
    let? mode := get_irn_mode g curr in
    if bool_decide (mode ≠ mode_X) then Some acc
    else
      let? attached := is_Proj_attached_to_Cmp curr in
      if negb attached then Some acc
      else
        let? pn := get_Proj_num g curr in
        if bool_decide (pn = pn_Cond_true) || bool_decide (pn = pn_Cond_false)
        then
          assert! bool_decide (get_irn_n_outs g curr = 1%nat) in
          let? post_proj := get_irn_out g curr 0 in
          let? block := get_block g post_proj in
          let? header_loop := get_irn_loop g header in
          let? inside := block_is_inside_loop block header_loop in
          Some (if inside then (Some post_proj, acc.2)
                else (acc.1, Some post_proj))
        else Some acc.

(** Returns [(in_loop_target, out_of_loop_target)]. *)
Definition get_false_and_true_targets (header : irn)
    : option (option irn * option irn) :=
  foldM (targets_step header) (None, None) (get_irn_outs g header).

Fixpoint count_block_elements (els : list loop_element) (no_blocks : Z) : Z :=
  match els with
  | [] => no_blocks
  | k_ir_node _ :: els => count_block_elements els (to_unsigned (no_blocks + 1))
  | k_ir_loop _ :: els => count_block_elements els no_blocks
  end.

Definition no_of_block_in_loop (loop : loop_id) : option Z :=
  let? elements := get_loop_elements g loop in
  Some (count_block_elements elements 0).

Definition count_exits_of (loop : loop_id) (acc : Z) (out : irn * Z)
    : option Z :=
  let? curr_block := get_block g out.1 in
  let? inside := block_is_inside_loop curr_block (Some loop) in
  Some (if inside then acc else acc + 1).

Definition loop_exits_step (block : irn) (loop : loop_id) (acc : Z)
    (o : irn * Z) : option Z :=
  let out := o.1 in
  let? out_block := get_block g out in
  if bool_decide (out_block ≠ block) then Some acc
  else
    let? mode := get_irn_mode g out in
    if bool_decide (mode ≠ mode_X) then Some acc
    else foldM (count_exits_of loop) acc (get_irn_outs g out).

Definition loop_exits_from_block (block : irn) (loop : loop_id) : option Z :=
  foldM (loop_exits_step block loop) 0 (get_irn_outs g block).

(** The scan stops as soon as more than one exit has been counted. *)
Fixpoint count_loop_exits (loop : loop_id) (els : list loop_element)
    (loop_exits : Z) : option Z :=
  match els with
  | [] => Some loop_exits
  | e :: els =>
      if loop_exits <=? 1 then
        match e with
        | k_ir_node node =>
            let? n := loop_exits_from_block node loop in
            count_loop_exits loop els (to_unsigned (loop_exits + n))
        | k_ir_loop _ => count_loop_exits loop els loop_exits
        end
      else Some loop_exits
  end.

Definition has_multiple_loop_exits (loop : loop_id) : option bool :=
  let? elements := get_loop_elements g loop in
  let? loop_exits := count_loop_exits loop elements 0 in
  Some (1 <? loop_exits).

Fixpoint count_nodes_from (fuel : nat) (loop : loop_id) : option Z :=
  match fuel with
  | O => None
  | S fuel =>
      let? elements := get_loop_elements g loop in
      foldM (fun n_nodes e =>
               match e with
               | k_ir_node node =>
                   Some (n_nodes + Z.of_nat (get_irn_n_outs g node))
               | k_ir_loop son =>
                   let? n := count_nodes_from fuel son in Some (n_nodes + n)
               end) 0 elements
  end.

Definition count_nodes (loop : loop_id) : option Z :=
  count_nodes_from (loop_fuel g) loop.

Definition determine_unroll_factor (loop : loop_id) (factor maxsize : Z)
    : option Z :=
  let? n := count_nodes loop in
  Some (if n <? maxsize then factor else 0).
End loop_tree.

(** ** Alias candidates: the stores a loop may execute *)

Record alias_list : Type := mk_alias_list {
  al_node : irn;
  al_addr : irn;
  al_type : ir_type;
  al_size : Z
}.

Section aliasing.
Context (A : analyses) (g : ir_graph).

(** [is_aliased] reads the global [alias_candidates]. *)
Definition is_aliased (alias_candidates : list alias_list) (node : irn)
    : option bool :=
  let query (addr : irn) : option bool :=
    let? type := get_node_type g node in
    Some (existsb
            (fun curr =>
               negb (bool_decide
                 (get_alias_relation A (al_addr curr) (al_type curr)
                    (al_size curr) addr type (get_type_size A type)
                  = ir_no_alias)))
            alias_candidates) in
  if is_Load g node then let? addr := get_Load_ptr g node in query addr
  else if is_Store g node then let? addr := get_Store_ptr g node in query addr
  else if is_Call g node then let? addr := get_Call_ptr g node in query addr
  else Some false.

(** The state threaded through the store collection: the graphs already
    visited ([pset *visited]) and [alias_candidates]. *)
Definition store_state : Type := list irg_id * list alias_list.

(** The unknown-callee branch of [walk_call_for_aliases]: one candidate
    per parameter that is the result of a Load or of a Call. *)
Definition unknown_call_param (alias_candidates : list alias_list)
    (param : irn) : option (list alias_list) :=
  if is_Proj g param then
    let? pre_proj := get_Proj_pred g param in
    if is_Load g pre_proj then
      let? addr := get_Load_ptr g pre_proj in
      let? type := get_node_type g pre_proj in
      Some (mk_alias_list pre_proj addr type (get_type_size A type)
              :: alias_candidates)
    else if is_Proj g pre_proj then
      let? pre_pre_proj := get_Proj_pred g pre_proj in
      if is_Call g pre_pre_proj then
        let? addr := get_Call_ptr g pre_pre_proj in
        let? type := get_node_type g pre_pre_proj in
        Some (mk_alias_list pre_proj addr type (get_type_size A type)
                :: alias_candidates)
      else Some alias_candidates
    else Some alias_candidates
  else Some alias_candidates.

Definition walk_graph_aliasing
    (check : irn → option loop_id → store_state → option store_state)
    (st : store_state) (block : irn) : option store_state :=
  if negb (is_Block g block) then Some st
  else foldM (fun st out => check out.1 None st) st (get_irn_outs g block).

Definition walk_call_for_aliases
    (check : irn → option loop_id → store_state → option store_state)
    (call : irn) (st : store_state) : option store_state :=
  let? callee_entity := get_Call_callee g call in
  let callee_graph :=
    match callee_entity with
    | None => None
    | Some e => get_entity_linktime_irg A e
    end in
  match callee_graph with
  | None =>
      let? params := get_Call_params g call in
      let? alias_candidates := foldM unknown_call_param st.2 params in
      Some (st.1, alias_candidates)
  | Some callee_graph =>
      if bool_decide (callee_graph ∈ st.1) then Some st
      else
        foldM (walk_graph_aliasing check) (callee_graph :: st.1, st.2)
          (irg_blocks A callee_graph)
  end.

Fixpoint check_for_store_ (fuel : nat) (node : irn) (loop : option loop_id)
    (st : store_state) : option store_state :=
  match fuel with
  | O => None
  | S fuel =>
      assert! negb (is_Block g node) in
      let? st :=
        (if is_Call g node
         then walk_call_for_aliases (check_for_store_ fuel) node st
         else Some st) in
      if negb (is_Store g node) then Some st
      else
        let? outside := outside_given_loop g node loop in
        if outside then Some st
        else
          let? type := get_node_type g node in
          let? addr := get_Store_ptr g node in
          Some (st.1, mk_alias_list node addr type (get_type_size A type)
                        :: st.2)
  end.

(** [check_for_store] starts from a fresh visited set. *)
Definition check_for_store (loop : loop_id)
    (alias_candidates : list alias_list) (out : irn * Z)
    : option (list alias_list) :=
  let? st := check_for_store_ (node_fuel g) out.1 (Some loop)
               ([], alias_candidates) in
  Some st.2.

(** [get_all_stores] resets [alias_candidates] on entry, also when it is
    entered for a child loop. *)
Fixpoint get_all_stores_from (fuel : nat) (loop : loop_id)
    : option (list alias_list) :=
  match fuel with
  | O => None
  | S fuel =>
      let? elements := get_loop_elements g loop in
      foldM (fun alias_candidates element =>
               match element with
               | k_ir_loop son => get_all_stores_from fuel son
               | k_ir_node node =>
                   assert! is_Block g node in
                   foldM (check_for_store loop) alias_candidates
                     (get_irn_outs g node)
               end) [] elements
  end.

Definition get_all_stores (loop : loop_id) : option (list alias_list) :=
  get_all_stores_from (loop_fuel g) loop.

(** ** Valid bases *)

(** A loop over a list of nodes that stops with [false] at the first
    node [f] rejects; the visited stack is threaded through. *)
Fixpoint all_valid (f : irn → list irn → option (bool * list irn))
    (nodes : list irn) (visited_base : list irn)
    : option (bool * list irn) :=
  match nodes with
  | [] => Some (true, visited_base)
  | n :: nodes =>
      let? (ok, visited_base) := f n visited_base in
      if ok then all_valid f nodes visited_base
      else Some (false, visited_base)
  end.

(** The Phi case counts the operands inside the loop while it checks
    them. *)
Fixpoint phi_preds_valid (f : irn → list irn → option (bool * list irn))
    (loop : option loop_id) (preds : list irn) (pointing_into_loop : Z)
    (visited_base : list irn) : option (bool * list irn) :=
  match preds with
  | [] =>
      Some (negb (bool_decide (is_Some loop) && (1 <? pointing_into_loop)),
            visited_base)
  | phi_pred :: preds =>
      let? inside := inside_given_loop g phi_pred loop in
      let pointing_into_loop :=
        if inside then to_unsigned (pointing_into_loop + 1)
        else pointing_into_loop in
      let? (ok, visited_base) := f phi_pred visited_base in
      if ok then phi_preds_valid f loop preds pointing_into_loop visited_base
      else Some (false, visited_base)
  end.

Fixpoint is_valid_base_ (fuel : nat) (alias_candidates : list alias_list)
    (loop : option loop_id) (node : irn) (visited_base : list irn)
    : option (bool * list irn) :=
  match fuel with
  | O => None
  | S fuel =>
      if bool_decide (node ∈ visited_base) then Some (false, visited_base)
      else
        let visited_base := node :: visited_base in
        if is_Const g node then Some (true, visited_base)
        else
          let? outside := outside_given_loop g node loop in
          if outside then Some (true, visited_base)
          else
            let rest (_ : unit) : option (bool * list irn) :=
              if is_Phi g node then
                let? preds := get_Phi_preds g node in
                phi_preds_valid (is_valid_base_ fuel alias_candidates loop)
                  loop preds 0 visited_base
              else if is_Conv g node then
                let? conved := get_Conv_op g node in
                is_valid_base_ fuel alias_candidates loop conved visited_base
              else Some (false, visited_base) in
            if is_Proj g node then
              let? pre_proj := get_Proj_pred g node in
              if is_Proj g pre_proj then
                let? proj_call := get_Proj_pred g pre_proj in
                if negb (is_Call g proj_call)
                then Some (false, visited_base)
                else
                  let? outside := outside_given_loop g proj_call loop in
                  if outside then Some (true, visited_base)
                  else
                    let? callee := get_Call_callee g proj_call in
                    let? callee := callee in
                    if negb (entity_is_pure A callee)
                    then Some (false, visited_base)
                    else
                      let? params := get_Call_params g proj_call in
                      let? (ok, visited_base) :=
                        all_valid
                          (is_valid_base_ fuel alias_candidates loop)
                          params visited_base in
                      if ok then
                        let? aliased :=
                          is_aliased alias_candidates proj_call in
                        Some (negb aliased, visited_base)
                      else Some (false, visited_base)
              else if is_Load g pre_proj then
                let? pre_load := get_Load_ptr g pre_proj in
                let? (ok, visited_base) :=
                  (if is_Proj g pre_load
                   then is_valid_base_ fuel alias_candidates loop pre_load
                          visited_base
                   else Some (true, visited_base)) in
                if ok then
                  let? aliased := is_aliased alias_candidates pre_proj in
                  Some (negb aliased, visited_base)
                else Some (false, visited_base)
              else rest ()
            else rest ()
  end.

Definition is_valid_base (alias_candidates : list alias_list)
    (node : irn) (loop : option loop_id) : option bool :=
  let? r := is_valid_base_ (node_fuel g) alias_candidates loop node [] in
  Some r.1.
End aliasing.

(** ** The induction-variable recognizer *)

(** [duff_unrollability] is a bit set. *)
Definition duff_unrollability := Z.
Definition duff_unrollable_none : duff_unrollability := 0.
Definition duff_unrollable_loop_fixup : duff_unrollability := Z.shiftl 1 1.
Definition duff_unrollable_switch_fixup : duff_unrollability := Z.shiftl 1 2.
Definition duff_unrollable_all : duff_unrollability :=
  Z.lor duff_unrollable_loop_fixup duff_unrollable_switch_fixup.

(** [a &= ~b] *)
Definition clear_bits (a b : Z) : Z := Z.land a (Z.lnot b).

Inductive Op : Set := ADD | SUB | MUL.

Global Instance Op_eq_dec : EqDecision Op.
Proof. solve_decision. Defined.

(** [struct linear_unroll_info]. The caller hands in a struct it has not
    initialised, so every field starts with whatever the caller's memory
    held. *)
Record linear_unroll_info : Type := mk_linear_unroll_info {
  info_op : Op;
  info_loop : option loop_id;
  info_i : option (list irn);      (* [i] with [i_size] *)
  info_cmp : option irn;
  info_rel : ir_relation;
  info_incr : option irn;
  info_phi : option irn;
  info_bound : option irn;
  info_header : option irn
}.

Definition set_info_op (v : Op) (u : linear_unroll_info) :=
  mk_linear_unroll_info v (info_loop u) (info_i u) (info_cmp u) (info_rel u)
    (info_incr u) (info_phi u) (info_bound u) (info_header u).
Definition set_info_loop (v : option loop_id) (u : linear_unroll_info) :=
  mk_linear_unroll_info (info_op u) v (info_i u) (info_cmp u) (info_rel u)
    (info_incr u) (info_phi u) (info_bound u) (info_header u).
Definition set_info_i (v : option (list irn)) (u : linear_unroll_info) :=
  mk_linear_unroll_info (info_op u) (info_loop u) v (info_cmp u) (info_rel u)
    (info_incr u) (info_phi u) (info_bound u) (info_header u).
Definition set_info_cmp (v : option irn) (u : linear_unroll_info) :=
  mk_linear_unroll_info (info_op u) (info_loop u) (info_i u) v (info_rel u)
    (info_incr u) (info_phi u) (info_bound u) (info_header u).
Definition set_info_rel (v : ir_relation) (u : linear_unroll_info) :=
  mk_linear_unroll_info (info_op u) (info_loop u) (info_i u) (info_cmp u) v
    (info_incr u) (info_phi u) (info_bound u) (info_header u).
Definition set_info_incr (v : option irn) (u : linear_unroll_info) :=
  mk_linear_unroll_info (info_op u) (info_loop u) (info_i u) (info_cmp u)
    (info_rel u) v (info_phi u) (info_bound u) (info_header u).
Definition set_info_phi (v : option irn) (u : linear_unroll_info) :=
  mk_linear_unroll_info (info_op u) (info_loop u) (info_i u) (info_cmp u)
    (info_rel u) (info_incr u) v (info_bound u) (info_header u).
Definition set_info_bound (v : option irn) (u : linear_unroll_info) :=
  mk_linear_unroll_info (info_op u) (info_loop u) (info_i u) (info_cmp u)
    (info_rel u) (info_incr u) (info_phi u) v (info_header u).
Definition set_info_header (v : option irn) (u : linear_unroll_info) :=
  mk_linear_unroll_info (info_op u) (info_loop u) (info_i u) (info_cmp u)
    (info_rel u) (info_incr u) (info_phi u) (info_bound u) v.

(** The variables [phi_cycle_dfs] updates through pointers. *)
Record dfs_state : Type := mk_dfs_state {
  dfs_foundCycle : bool;
  dfs_valid : bool;
  dfs_outside : option irn;
  dfs_stack : list irn
}.

Section recognizer.
Context (A : analyses) (g : ir_graph).

Definition binop_to_op (bin_op : irn) : option (option Op) :=
  assert! is_binop g bin_op in
  if is_Add g bin_op then Some (Some ADD)
  else if is_Sub g bin_op then Some (Some SUB)
  else if is_Mul g bin_op then Some (Some MUL)
  else Some None.

Fixpoint climb_single_phi_from (fuel : nat) (phi : irn) : option irn :=
  match fuel with
  | O => None
  | S fuel =>
      if negb (is_Phi g phi) then Some phi
      else
        let? preds := get_Phi_preds g phi in
        match preds with
        | [pred] => climb_single_phi_from fuel pred
        | _ => Some phi
        end
  end.

Definition climb_single_phi (phi : irn) : option irn :=
  climb_single_phi_from (node_fuel g) phi.

(** The body of the [for] loop of [phi_cycle_dfs]; [Return] is the
    [return] taken when an operand is already on the stack. *)
Fixpoint phi_cycle_preds (dfs : irn → dfs_state → option dfs_state)
    (curr searched : irn) (ws : list irn) (st : dfs_state)
    : option (flow dfs_state dfs_state) :=
  match ws with
  | [] => Some (Next st)
  | w :: ws =>
      let st :=
        if bool_decide (w = searched)
        then mk_dfs_state true (dfs_valid st) (dfs_outside st) (dfs_stack st)
        else st in
      if negb (is_Phi g w) then
        let st :=
          match dfs_outside st with
          | None =>
              mk_dfs_state (dfs_foundCycle st) (dfs_valid st) (Some curr)
                (dfs_stack st)
          | Some o =>
              if bool_decide (o ≠ curr)
              then mk_dfs_state (dfs_foundCycle st) false (dfs_outside st)
                     (dfs_stack st)
              else st
          end in
        phi_cycle_preds dfs curr searched ws st
      else if bool_decide (w ∈ dfs_stack st) then Some (Return st)
      else
        let? st := dfs w st in
        phi_cycle_preds dfs curr searched ws st
  end.

Fixpoint phi_cycle_dfs (fuel : nat) (searched : irn) (loop : option loop_id)
    (curr : irn) (st : dfs_state) : option dfs_state :=
  match fuel with
  | O => None
  | S fuel =>
      assert! is_Phi g curr in
      let st := mk_dfs_state (dfs_foundCycle st) (dfs_valid st)
                  (dfs_outside st) (curr :: dfs_stack st) in
      let? preds := get_Phi_preds g curr in
      match preds with
      | [] => Some (mk_dfs_state (dfs_foundCycle st) false (dfs_outside st)
                      (dfs_stack st))
      | _ =>
          let? r := phi_cycle_preds (phi_cycle_dfs fuel searched loop)
                      curr searched preds st in
          match r with
          | Return st => Some st
          | Next st =>
              if bool_decide (dfs_outside st = Some curr) then Some st
              else
                let? block := get_block g curr in
                let? inside := block_is_inside_loop g block loop in
                if inside then Some st
                else Some (mk_dfs_state (dfs_foundCycle st) false
                             (dfs_outside st) (dfs_stack st))
          end
      end
  end.

Definition check_cycle_and_find_exit (initial_phi searched : irn)
    (loop : option loop_id) : option (option irn) :=
  if negb (is_Phi g initial_phi) then Some (Some initial_phi)
  else
    let? st := phi_cycle_dfs (node_fuel g) searched loop initial_phi
                 (mk_dfs_state false true None []) in
    Some (if bool_decide (is_Some (dfs_outside st)) && dfs_valid st
             && dfs_foundCycle st
          then dfs_outside st else None).

(** [is_valid_incr] writes [unroll_info->op] as soon as the operand is an
    Add, Sub or Mul, before it has decided whether the operand is the
    increment; [unroll_info->incr] is written only on success. *)
Definition is_valid_incr (alias_candidates : list alias_list)
    (unroll_info : linear_unroll_info) (node : irn)
    : option (bool * linear_unroll_info) :=
  if negb (is_binop g node) then Some (false, unroll_info)
  else
    let? op := binop_to_op node in
    match op with
    | None => Some (false, unroll_info)
    | Some op =>
        let unroll_info := set_info_op op unroll_info in
        let? binop_left := get_binop_left g node in
        let? binop_right := get_binop_right g node in
        let? left_ := climb_single_phi binop_left in
        let? right_ := climb_single_phi binop_right in
        if negb (is_Phi g left_) && negb (is_Phi g right_)
        then Some (false, unroll_info)
        else
          let node_to_check : option irn := None in
          let node_to_check :=
            if bool_decide (Some left_ = info_phi unroll_info)
            then Some right_ else node_to_check in
          let node_to_check :=
            if bool_decide (Some right_ = info_phi unroll_info)
            then Some left_ else node_to_check in
          let? node_to_check :=
            match node_to_check with
            | Some n => Some (Some n)
            | None =>
                let? left_c := check_cycle_and_find_exit binop_left node
                                 (info_loop unroll_info) in
                let? right_c := check_cycle_and_find_exit binop_right node
                                  (info_loop unroll_info) in
                let node_to_check : option irn := None in
                let node_to_check :=
                  if bool_decide (left_c = info_phi unroll_info)
                  then Some right_ else node_to_check in
                let node_to_check :=
                  if bool_decide (right_c = info_phi unroll_info)
                  then Some left_ else node_to_check in
                Some node_to_check
            end in
          match node_to_check with
          | None => Some (false, unroll_info)
          | Some node_to_check =>
              if bool_decide (info_op unroll_info = MUL)
                 && negb (is_Const g node_to_check)
              then Some (false, unroll_info)
              else
                let? block := get_block g node_to_check in
                let? loop := get_irn_loop g block in
                let? valid :=
                  is_valid_base A g alias_candidates node_to_check loop in
                if negb valid then Some (false, unroll_info)
                else Some (true, set_info_incr (Some node_to_check)
                                   unroll_info)
          end
    end.

(** The state of the second [for] loop of [check_phi]. *)
Record check_phi_state : Type := mk_check_phi_state {
  cps_info : linear_unroll_info;
  cps_incr_pred_index : Z;
  cps_is : list irn;
  cps_unrollability : duff_unrollability
}.

Fixpoint check_phi_preds (alias_candidates : list alias_list)
    (loop : loop_id) (phi_preds : Z) (preds : list irn) (i : Z)
    (st : check_phi_state) : option check_phi_state :=
  match preds with
  | [] => Some st
  | curr :: preds =>
      let? (valid_incr, unroll_info) :=
        is_valid_incr alias_candidates (cps_info st) curr in
      if valid_incr then
        if bool_decide (cps_incr_pred_index st ≠ -1) then
          (* a second increment: give up *)
          Some (mk_check_phi_state unroll_info (-1) (cps_is st)
                  (cps_unrollability st))
        else
          check_phi_preds alias_candidates loop phi_preds preds (i + 1)
            (mk_check_phi_state unroll_info i (cps_is st)
               (cps_unrollability st))
      else
        let? valid := is_valid_base A g alias_candidates curr (Some loop) in
        let unrollability :=
          if negb valid
          then clear_bits (cps_unrollability st) duff_unrollable_switch_fixup
          else cps_unrollability st in
        let is_ :=
          if Z.of_nat (length (cps_is st)) <? phi_preds - 1
          then cps_is st ++ [curr] else cps_is st in
        check_phi_preds alias_candidates loop phi_preds preds (i + 1)
          (mk_check_phi_state unroll_info (cps_incr_pred_index st) is_
             unrollability)
  end.

Definition count_preds_in_loop (loop : loop_id) (preds_in_loop : Z)
    (curr : irn) : option Z :=
  let? block := get_block g curr in
  let? inside := block_is_inside_loop g block (Some loop) in
  Some (if inside then preds_in_loop + 1 else preds_in_loop).

(** [check_phi] returns the unrollability together with the updated
    [unroll_info] and the new contents of [alias_candidates]. *)
Definition check_phi (alias_candidates : list alias_list)
    (unroll_info : linear_unroll_info) (loop : loop_id)
    : option (duff_unrollability * linear_unroll_info * list alias_list) :=
  let? phi := info_phi unroll_info in
  assert! is_Phi g phi in
  let? preds := get_Phi_preds g phi in
  let phi_preds := Z.of_nat (length preds) in
  if phi_preds <? 2
  then Some (duff_unrollable_none, unroll_info, alias_candidates)
  else
    let? preds_in_loop := foldM (count_preds_in_loop loop) 0 preds in
    if 1 <? preds_in_loop
    then Some (duff_unrollable_none, unroll_info, alias_candidates)
    else
      let? alias_candidates := get_all_stores A g loop in
      let? st :=
        check_phi_preds alias_candidates loop phi_preds preds 0
          (mk_check_phi_state unroll_info (-1) [] duff_unrollable_all) in
      let unroll_info := cps_info st in
      if bool_decide (cps_incr_pred_index st = -1)
      then Some (duff_unrollable_none, unroll_info, alias_candidates)
      else
        let unroll_info :=
          match info_i unroll_info with
          | None => set_info_i (Some (cps_is st)) unroll_info
          | Some _ => unroll_info
          end in
        let? mode := get_irn_mode g phi in
        let unrollability :=
          if negb (mode_is_int mode)
          then clear_bits (cps_unrollability st) duff_unrollable_switch_fixup
          else cps_unrollability st in
        Some (unrollability, unroll_info, alias_candidates).

Definition is_loop_relation (rel : ir_relation) : bool :=
  negb (bool_decide (rel ≠ ir_relation_greater_equal)
        && bool_decide (rel ≠ ir_relation_greater)
        && bool_decide (rel ≠ ir_relation_less_equal)
        && bool_decide (rel ≠ ir_relation_less)).

(** What [determine_lin_unroll_info] does with the first compare of the
    header that has one of the four relations. *)
Definition investigate_compare (alias_candidates : list alias_list)
    (unroll_info : linear_unroll_info) (loop : loop_id) (node : irn)
    (rel : ir_relation)
    : option (duff_unrollability * linear_unroll_info * list alias_list) :=
  let unroll_info := set_info_rel rel unroll_info in
  let unroll_info := set_info_cmp (Some node) unroll_info in
  let? left_ := get_Cmp_left g node in
  let? right_ := get_Cmp_right g node in
  if negb (is_Phi g left_) && negb (is_Phi g right_)
  then Some (0 (* return false *), unroll_info, alias_candidates)
  else
    let ret := duff_unrollable_none in
    let? (ret, unroll_info, alias_candidates) :=
      (if is_Phi g left_ then
         let unroll_info := set_info_phi (Some left_) unroll_info in
         let unroll_info := set_info_bound (Some right_) unroll_info in
         let? (r, unroll_info, alias_candidates) :=
           check_phi alias_candidates unroll_info loop in
         Some (Z.lor ret r, unroll_info, alias_candidates)
       else Some (ret, unroll_info, alias_candidates)) in
    let? (ret, unroll_info, alias_candidates) :=
      (if is_Phi g right_ then
         let unroll_info := set_info_phi (Some right_) unroll_info in
         let unroll_info := set_info_bound (Some left_) unroll_info in
         let? (r, unroll_info, alias_candidates) :=
           check_phi alias_candidates unroll_info loop in
         Some (Z.lor ret r, unroll_info, alias_candidates)
       else Some (ret, unroll_info, alias_candidates)) in
    let? bound := info_bound unroll_info in
    let? valid := is_valid_base A g alias_candidates bound (Some loop) in
    let ret := if negb valid then duff_unrollable_none else ret in
    let ret :=
      if bool_decide (info_op unroll_info = MUL)
      then clear_bits ret duff_unrollable_switch_fixup else ret in
    let? multiple := has_multiple_loop_exits g loop in
    let ret := if multiple then duff_unrollable_none else ret in
    Some (ret, unroll_info, alias_candidates).

(** The [for] loop over the out edges of the header. *)
Fixpoint scan_header_outs (alias_candidates : list alias_list)
    (unroll_info : linear_unroll_info) (loop : loop_id) (header : irn)
    (outs : list (irn * Z))
    : option (duff_unrollability * linear_unroll_info * list alias_list) :=
  match outs with
  | [] => Some (duff_unrollable_none, unroll_info, alias_candidates)
  | out :: outs =>
      let node := out.1 in
      let? block := get_nodes_block g node in
      if bool_decide (block ≠ header)
      then scan_header_outs alias_candidates unroll_info loop header outs
      else if negb (is_Cmp g node)
      then scan_header_outs alias_candidates unroll_info loop header outs
      else
        let? rel := get_Cmp_relation g node in
        if negb (is_loop_relation rel)
        then scan_header_outs alias_candidates unroll_info loop header outs
        else investigate_compare alias_candidates unroll_info loop node rel
  end.

Fixpoint has_pred_in_block (header : irn) (ins : list irn) : option bool :=
  match ins with
  | [] => Some false
  | pred :: ins =>
      let? block := get_block g pred in
      if bool_decide (block = header) then Some true
      else has_pred_in_block header ins
  end.

Definition determine_lin_unroll_info (alias_candidates : list alias_list)
    (unroll_info : linear_unroll_info) (loop : loop_id)
    : option (duff_unrollability * linear_unroll_info * list alias_list) :=
  let unroll_info := set_info_i None unroll_info in
  let unroll_info := set_info_loop (Some loop) unroll_info in
  let? n_blocks := no_of_block_in_loop g loop in
  if n_blocks <=? 1
  then Some (duff_unrollable_none, unroll_info, alias_candidates)
  else
    let? header := get_loop_header A g loop in
    let? header := header in  (* get_irn_loop(NULL) *)
    let? header_loop := get_irn_loop g header in
    if bool_decide (header_loop ≠ Some loop)
    then Some (duff_unrollable_none, unroll_info, alias_candidates)
    else
      let? header_ins := get_irn_in g header in
      let? self_pred := has_pred_in_block header header_ins in
      if self_pred
      then Some (duff_unrollable_none, unroll_info, alias_candidates)
      else
        let? (in_loop_target, out_of_loop_target) :=
          get_false_and_true_targets g header in
        if negb (bool_decide (is_Some in_loop_target))
           || negb (bool_decide (is_Some out_of_loop_target))
        then Some (duff_unrollable_none, unroll_info, alias_candidates)
        else
          scan_header_outs alias_candidates unroll_info loop header
            (get_irn_outs g header).
End recognizer.

(** ** [find_optimal_factor] *)

(** One round of the [for (i = 2; i <= number / 2; i++)] loop.
    [number] is an [unsigned long], [max] and [i] are [unsigned]. The
    candidate is [(unsigned) number / i]: the cast binds tighter than the
    division, so [number] is truncated to 32 bits before it is divided. *)
Definition is_power_of_two (candidate : Z) : bool :=
  negb (candidate =? 0) && (Z.land candidate (candidate - 1) =? 0).

Fixpoint find_optimal_factor_loop (fuel : nat) (number max i : Z) : option Z :=
  match fuel with
  | O => None
  | S fuel =>
      if i <=? number / 2 then
        if i =? 0 then None (* number % 0 *)
        else
          let candidate := to_unsigned number / i in
          if (number mod i =? 0) && (number / i <=? max)
             && is_power_of_two candidate
          then Some candidate
          else find_optimal_factor_loop fuel number max (to_unsigned (i + 1))
      else Some 0
  end.

Definition find_optimal_factor (number max : Z) : option Z :=
  if number <=? max then Some (to_unsigned number)
  else
    find_optimal_factor_loop
      (S (Z.to_nat (Z.min (number / 2) (2 ^ UINT_BITS)))) number max 2.


(** ** The pass: [unroll_loop] and [duplicate_innermost_loops] *)

(** The graph together with the file's global variables. *)
Record unroll_state : Type := mk_unroll_state {
  us_irg : ir_graph;
  us_alias_candidates : list alias_list;
  us_n_loops_unrolled : Z
}.

(** Which [return] of [unroll_loop] was taken. *)
Inductive unroll_path : Set :=
  | path_no_header      (* header == NULL *)
  | path_declined       (* factor < 1 || (factor == 1 && !fully_unroll) *)
  | path_unrolled.      (* rewire_loop was run *)

Definition DUFF_DEFAULT_FACTOR : Z := 4.

Section pass.
Context (A : analyses).

(** The routines that rewrite the graph. The results below hold for
    whatever they do. *)
Context (rewire_loop : ir_graph → loop_id → irn → Z → option ir_graph).
Context (rewire_fully_unrolled :
           ir_graph → loop_id → irn → Z → option ir_graph).
Context (unroll_loop_duff :
           unroll_state → loop_id → Z → linear_unroll_info
           → duff_unrollability → option unroll_state).

(** The statements of [find_suitable_factor] that follow its first
    [return]: the iteration-count analysis, which yields a factor and
    may set [*fully_unroll]. *)
Context (iteration_count_analysis : ir_graph → irn → Z → bool → Z * bool).

(** [DEBUG_ONLY(goto duff;)] *)
Context (DEBUG_libfirm : bool).

(** The contents of the caller's [linear_unroll_info info;] *)
Context (uninitialised_info : linear_unroll_info).

(** Returns the factor and the value left in [*fully_unroll]. *)
Definition find_suitable_factor (g : ir_graph) (header : irn) (max : Z)
    (fully_unroll : bool) : Z * bool :=
  let DONT_UNROLL := 0 in
  let n_outs := get_irn_n_outs g header in
  let factor := 1 in
  flow_run
    (flow_seq (Return (0, fully_unroll))
       (fun _ : unit =>
          Next (iteration_count_analysis g header max fully_unroll))).

Definition unroll_loop (st : unroll_state) (loop : loop_id) (factor : Z)
    : option (unroll_path * unroll_state) :=
  let? header := get_loop_header A (us_irg st) loop in
  match header with
  | None => Some (path_no_header, st)
  | Some header =>
      let fully_unroll := false in
      let (factor, fully_unroll) :=
        find_suitable_factor (us_irg st) header factor fully_unroll in
      if (factor <? 1) || ((factor =? 1) && negb fully_unroll)
      then Some (path_declined, st)
      else
        let? g := rewire_loop (us_irg st) loop header factor in
        let n := us_n_loops_unrolled st + 1 in
        let? g :=
          (if fully_unroll then rewire_fully_unrolled g loop header factor
           else Some g) in
        Some (path_unrolled, mk_unroll_state g (us_alias_candidates st) n)
  end.

Definition DUFF_FACTOR : Z :=
  if negb (getenv_DUFF_FACTOR A =? 0) then getenv_DUFF_FACTOR A
  else DUFF_DEFAULT_FACTOR.

(** The part of [duplicate_innermost_loops] behind the label [duff]. *)
Definition try_duff (st : unroll_state) (loop : loop_id)
    : option unroll_state :=
  let? header := get_loop_header A (us_irg st) loop in
  match header with
  | None => Some st
  | Some header =>
      let? curr_loop := get_irn_loop (us_irg st) header in
      let? curr_loop := curr_loop in  (* get_loop_depth(NULL) *)
      let? depth := get_loop_depth (us_irg st) curr_loop in
      if depth =? 0 then Some st
      else
        let? (unrollability, info, alias_candidates) :=
          determine_lin_unroll_info A (us_irg st) (us_alias_candidates st)
            uninitialised_info curr_loop in
        let st := mk_unroll_state (us_irg st) alias_candidates
                    (us_n_loops_unrolled st) in
        if bool_decide (unrollability ≠ duff_unrollable_none)
        then unroll_loop_duff st curr_loop DUFF_FACTOR info unrollability
        else Some st
  end.

(** The first [for] loop: [n_elements] is read once, the elements are
    read from the loop as it is when their turn comes. *)
Fixpoint visit_sons (rec : unroll_state → loop_id → option unroll_state)
    (loop : loop_id) (n_elements : nat) (i : nat) (st : unroll_state)
    (innermost : bool) : option (unroll_state * bool) :=
  match n_elements with
  | O => Some (st, innermost)
  | S n_elements =>
      let? elements := get_loop_elements (us_irg st) loop in
      let? element := elements !! i in
      match element with
      | k_ir_loop son =>
          let? st := rec st son in
          visit_sons rec loop n_elements (S i) st false
      | k_ir_node _ => visit_sons rec loop n_elements (S i) st innermost
      end
  end.

Fixpoint duplicate_innermost_loops_from (fuel : nat) (factor maxsize : Z)
    (outermost : bool) (st : unroll_state) (loop : loop_id)
    : option unroll_state :=
  match fuel with
  | O => None
  | S fuel =>
      let? elements := get_loop_elements (us_irg st) loop in
      let? (st, innermost) :=
        visit_sons (duplicate_innermost_loops_from fuel factor maxsize false)
          loop (length elements) 0 st true in
      if negb innermost then Some st
      else if DEBUG_libfirm || outermost then try_duff st loop
      else
        let? actual_factor :=
          determine_unroll_factor (us_irg st) loop factor maxsize in
        if 0 <? actual_factor then
          let? r := unroll_loop st loop actual_factor in
          Some r.2
        else try_duff st loop
  end.

Definition duplicate_innermost_loops (st : unroll_state) (loop : loop_id)
    (factor maxsize : Z) (outermost : bool) : option unroll_state :=
  duplicate_innermost_loops_from (loop_fuel (us_irg st)) factor maxsize
    outermost st loop.
End pass.


(** ** Building the switch fix-up header *)

(** *** Target arithmetic *)

(** The value of a bit pattern of [bits] bits read as two's complement. *)
Definition to_signed (bits : Z) (v : Z) : Z :=
  (v + 2 ^ (bits - 1)) mod 2 ^ bits - 2 ^ (bits - 1).

(** The tarval of mode [mode] that [v] stands for. *)
Definition wrap (mode : ir_mode) (v : Z) : Z :=
  if mode_is_signed mode then to_signed (get_mode_size_bits mode) v
  else v mod 2 ^ get_mode_size_bits mode.

Definition tarval_add (mode : ir_mode) (a b : Z) : Z := wrap mode (a + b).
Definition tarval_sub (mode : ir_mode) (a b : Z) : Z := wrap mode (a - b).
Definition tarval_mul (mode : ir_mode) (a b : Z) : Z := wrap mode (a * b).
Definition tarval_eor (mode : ir_mode) (a b : Z) : Z :=
  let bits := get_mode_size_bits mode in
  wrap mode (Z.lxor (to_signed bits a) (to_signed bits b)).
Definition tarval_shrs (mode : ir_mode) (a b : Z) : Z :=
  wrap mode (Z.shiftr (to_signed (get_mode_size_bits mode) a) b).

(** *** Node construction *)

Definition add_node (g : ir_graph) (nd : ir_node) : ir_graph * irn :=
  (mk_ir_graph (<[irg_last_idx g := nd]> (irg_nodes g)) (irg_outs g)
     (irg_loops g) (irg_loop g) (irg_start_block g) (S (irg_last_idx g)),
   irg_last_idx g).

Definition set_node (g : ir_graph) (n : irn) (nd : ir_node) : ir_graph :=
  mk_ir_graph (<[n := nd]> (irg_nodes g)) (irg_outs g) (irg_loops g)
    (irg_loop g) (irg_start_block g) (irg_last_idx g).

Definition plain_node (op : ir_opcode) (mode : ir_mode) (block : irn)
    (ins : list irn) : ir_node :=
  mk_ir_node op mode block ins ir_relation_false 0 0 None 0%nat None.

(** A binary operation takes its mode from its left operand. *)
Definition new_r_binop (op : ir_opcode) (g : ir_graph) (block : irn)
    (left_ right_ : irn) : option (ir_graph * irn) :=
  let? mode := get_irn_mode g left_ in
  Some (add_node g (plain_node op mode block [left_; right_])).

Definition new_r_Add := new_r_binop iro_Add.
Definition new_r_Sub := new_r_binop iro_Sub.
Definition new_r_Mul := new_r_binop iro_Mul.
Definition new_r_Eor := new_r_binop iro_Eor.
Definition new_r_Shrs := new_r_binop iro_Shrs.

Definition new_r_Const_long (g : ir_graph) (mode : ir_mode) (value : Z)
    : ir_graph * irn :=
  add_node g
    (mk_ir_node iro_Const mode (irg_start_block g) [] ir_relation_false 0
       (wrap mode value) None 0%nat None).

Definition new_r_Block (g : ir_graph) (ins : list irn) : ir_graph * irn :=
  add_node g (plain_node iro_Block mode_BB 0%nat ins).

Definition new_r_Jmp (g : ir_graph) (block : irn) : ir_graph * irn :=
  add_node g (plain_node iro_Jmp mode_X block []).

Definition new_r_Cmp (g : ir_graph) (block : irn) (left_ right_ : irn)
    (relation : ir_relation) : ir_graph * irn :=
  add_node g
    (mk_ir_node iro_Cmp mode_b block [left_; right_] relation 0 0 None 0%nat
       None).

Definition new_r_Cond (g : ir_graph) (block : irn) (selector : irn)
    : ir_graph * irn :=
  add_node g (plain_node iro_Cond mode_T block [selector]).

(** A Proj lives in the block of its predecessor. *)
Definition new_r_Proj (g : ir_graph) (pred : irn) (mode : ir_mode) (num : Z)
    : option (ir_graph * irn) :=
  let? block := get_block g pred in
  Some (add_node g
          (mk_ir_node iro_Proj mode block [pred] ir_relation_false num 0 None
             0%nat None)).

Definition with_in (nd : ir_node) (ins : list irn) : ir_node :=
  mk_ir_node (irn_op nd) (irn_mode nd) (irn_block nd) ins (irn_relation nd)
    (irn_proj_num nd) (irn_tarval nd) (irn_callee nd) (irn_type nd)
    (irn_loop nd).

Definition set_irn_in (g : ir_graph) (n : irn) (ins : list irn)
    : option ir_graph :=
  let? nd := get_node g n in
  Some (set_node g n (with_in nd ins)).

(** [set_irn_n] asserts that the position exists. *)
Definition set_irn_n (g : ir_graph) (n : irn) (pos : nat) (pred : irn)
    : option ir_graph :=
  let? nd := get_node g n in
  assert! bool_decide (pos < length (irn_in nd))%nat in
  Some (set_node g n (with_in nd (<[pos := pred]> (irn_in nd)))).

(** *** The value a node computes *)

(** [rho] gives the values of the nodes that are not computed here (the
    Phi of the induction variable, the copies of the bound and the step);
    the other nodes are evaluated with the target's arithmetic. *)
Fixpoint eval (fuel : nat) (g : ir_graph) (rho : gmap irn Z) (n : irn)
    : option Z :=
  match rho !! n with
  | Some v => Some v
  | None =>
      match fuel with
      | O => None
      | S fuel =>
          let? nd := get_node g n in
          let binop (f : ir_mode → Z → Z → Z) : option Z :=
            match irn_in nd with
            | [a; b] =>
                let? va := eval fuel g rho a in
                let? vb := eval fuel g rho b in
                Some (f (irn_mode nd) va vb)
            | _ => None
            end in
          match irn_op nd with
          | iro_Const => Some (irn_tarval nd)
          | iro_Add => binop tarval_add
          | iro_Sub => binop tarval_sub
          | iro_Mul => binop tarval_mul
          | iro_Eor => binop tarval_eor
          | iro_Shrs => binop tarval_shrs
          | _ => None
          end
      end
  end.

Section switch_header.
Context (A : analyses).

(** The deep copy at the end of [copy_and_rewire] ([duplicate_node],
    [recursive_copy_in_loop], [recursive_rewire_in_loop]); the results
    below hold for whatever node it returns. *)
Context (copy_into_block :
           ir_graph → irn → irn → irn → option (ir_graph * irn)).

(** [is_irn_constlike]: the opcode carries [irop_flag_constlike]. *)
Definition is_irn_constlike (g : ir_graph) (n : irn) : bool :=
  match get_node g n with
  | Some nd =>
      match irn_op nd with
      | iro_Const | iro_Address | iro_Bad | iro_NoMem | iro_Unknown => true
      | _ => false
      end
  | None => false
  end.

Definition exact_copy (g : ir_graph) (n : irn) : option (ir_graph * irn) :=
  let? nd := get_node g n in
  Some (add_node g nd).

Definition copy_and_rewire (g : ir_graph) (node target_block phi_M : irn)
    : option (ir_graph * irn) :=
  if is_irn_constlike g node then exact_copy g node
  else
    let? block := get_block g node in
    if block_dominates A block target_block then Some (g, node)
    else copy_into_block g node target_block phi_M.

(** [create_abs]: [(node >>s (bits - 1)) ^ node) - (node >>s (bits - 1))]. *)
Definition create_abs (g : ir_graph) (block : irn) (node : irn)
    : option (ir_graph * irn) :=
  let? mode := get_irn_mode g node in
  let (g, shift) :=
    new_r_Const_long g mode_Iu (get_mode_size_bits mode - 1) in
  let? (g, shrs) := new_r_Shrs g block node shift in
  let? (g, eor) := new_r_Eor g block shrs node in
  new_r_Sub g block eor shrs.

Definition is_less (g : ir_graph) (info : linear_unroll_info) : option bool :=
  let less := bool_decide (info_rel info = ir_relation_less)
              || bool_decide (info_rel info = ir_relation_less_equal) in
  let? cmp := info_cmp info in
  let? cmp_right := get_Cmp_right g cmp in
  let inverted := bool_decide (info_phi info = Some cmp_right) in
  Some (xorb less inverted).

Fixpoint find_phi_M (g : ir_graph) (block : irn) (outs : list (irn * Z))
    : option (option irn) :=
  match outs with
  | [] => Some None
  | out :: outs =>
      let curr := out.1 in
      let? curr_block := get_block g curr in
      let? mode := get_irn_mode g curr in
      if bool_decide (curr_block = block) && is_Phi g curr
         && bool_decide (mode = mode_M)
      then Some (Some curr)
      else find_phi_M g block outs
  end.

Definition get_phi_M (g : ir_graph) (block : irn) : option (option irn) :=
  assert! is_Block g block in
  find_phi_M g block (get_irn_outs g block).

(** The position of the first input that lives in [header], 0 if there is
    none. *)
Fixpoint get_in_n_to_header_from (g : ir_graph) (header : irn)
    (ins : list irn) (j : nat) : option nat :=
  match ins with
  | [] => Some 0%nat
  | pred :: ins =>
      let? n_block := get_block g pred in
      if bool_decide (n_block = header) then Some j
      else get_in_n_to_header_from g header ins (S j)
  end.

Definition get_in_n_to_header (g : ir_graph) (target header : irn)
    : option nat :=
  let? ins := get_irn_in g target in
  get_in_n_to_header_from g header ins 0.

(** The first predecessor of [after_loop] that lives in the header; the
    array [in] stays uninitialised when there is none. *)
Fixpoint find_pred_in_block (g : ir_graph) (header : irn) (ins : list irn)
    : option irn :=
  match ins with
  | [] => None
  | curr :: ins =>
      let? curr_block := get_block g curr in
      if bool_decide (curr_block = header) then Some curr
      else find_pred_in_block g header ins
  end.

(** The copies of the step and of the bound ([c_cpy], [N_cpy]). *)
Definition copy_operands (g : ir_graph) (switch_header phi_M : irn)
    (info : linear_unroll_info) : option (ir_graph * irn * irn) :=
  let? c := info_incr info in
  let? (g, c_cpy) :=
    (if is_Phi g c then Some (g, c)
     else copy_and_rewire g c switch_header phi_M) in
  let? N := info_bound info in
  let? (g, N_cpy) :=
    (if is_Phi g N then Some (g, N)
     else copy_and_rewire g N switch_header phi_M) in
  Some (g, c_cpy, N_cpy).

(** From [N_abs] to [res]; returns the graph, [c_abs] and [res]. *)
Definition build_residue (g : ir_graph) (switch_header : irn)
    (info : linear_unroll_info) (c_cpy N_cpy : irn)
    : option (ir_graph * irn * irn) :=
  let? (g, N_abs) := create_abs g switch_header N_cpy in
  let? (g, c_abs) := create_abs g switch_header c_cpy in
  let? c_abs_mode := get_irn_mode g c_abs in
  let (g, one_const) := new_r_Const_long g c_abs_mode 1 in
  let? phi := info_phi info in
  let? less := is_less g info in
  let? (g, N_minus_i) :=
    (if less then new_r_Sub g switch_header N_abs phi
     else new_r_Sub g switch_header phi N_abs) in
  let? (g, N_minus_i) :=
    (if bool_decide (info_rel info = ir_relation_less_equal)
        || bool_decide (info_rel info = ir_relation_greater_equal)
     then new_r_Add g switch_header N_minus_i one_const
     else Some (g, N_minus_i)) in
  let? (g, c_one) := new_r_Sub g switch_header c_abs one_const in
  let? (g, res) := new_r_Add g switch_header N_minus_i c_one in
  Some (g, c_abs, res).

(** The loop that builds one compare block per landing pad:
    [for (int i = 0; i < factor - 1; i++)], with [n] rounds left. It
    returns the graph, [to_block] and the last [prev_jmp]. *)
Fixpoint build_compares (n : nat) (g : ir_graph) (switch_header : irn)
    (factor : Z) (res c_abs : irn) (i : Z) (prev_jmp : irn)
    (to_block : list irn) : option (ir_graph * list irn * irn) :=
  match n with
  | O => Some (g, to_block, prev_jmp)
  | S n =>
      let? c_abs_mode := get_irn_mode g c_abs in
      let (g, const_i) :=
        new_r_Const_long g c_abs_mode (to_unsigned (factor - 1 - i)) in
      let? (g, c_times) := new_r_Mul g switch_header const_i c_abs in
      let (g, cmp_block) := new_r_Block g [prev_jmp] in
      let (g, cmp) :=
        new_r_Cmp g cmp_block res c_times ir_relation_greater_equal in
      let (g, cond) := new_r_Cond g cmp_block cmp in
      let? (g, proj_true) := new_r_Proj g cond mode_X pn_Cond_true in
      let? (g, proj_false) := new_r_Proj g cond mode_X pn_Cond_false in
      build_compares n g switch_header factor res c_abs (i + 1) proj_false
        (to_block ++ [proj_true])
  end.

(** [for (unsigned i = 1; i < factor - 1; ++i)] *)
Fixpoint wire_targets (g : ir_graph) (header : irn)
    (targets : list (option irn * option irn)) : option ir_graph :=
  match targets with
  | [] => Some g
  | (proj, target) :: targets =>
      let? proj := proj in
      let? target := target in
      let? pos := get_in_n_to_header g target header in
      let? g := set_irn_n g target pos proj in
      wire_targets g header targets
  end.

(** Returns the new graph and [switch_header]. *)
Definition create_fixup_switch_header (g : ir_graph) (loop : loop_id)
    (factor : Z) (target_blocks : list irn) (after_loop : irn)
    (info : linear_unroll_info) : option (ir_graph * irn) :=
  let? header := get_loop_header A g loop in
  let? after_ins := get_irn_in g after_loop in
  let? header_block := header in
  let? in0 := find_pred_in_block g header_block after_ins in
  let (g, switch_header) := new_r_Block g [in0] in
  let? phi_M := get_phi_M g header_block in
  let? phi_M := phi_M in
  let? (g, c_cpy, N_cpy) := copy_operands g switch_header phi_M info in
  let? (g, c_abs, res) := build_residue g switch_header info c_cpy N_cpy in
  let (g, prev_jmp) := new_r_Jmp g switch_header in
  let rounds := Z.to_nat (to_unsigned (factor - 1)) in
  let? (g, to_block, prev_jmp) :=
    build_compares rounds g switch_header factor res c_abs 0 prev_jmp [] in
  let? to_block_0 := to_block !! 0%nat in
  let? target_0 := target_blocks !! 0%nat in
  let? g := set_irn_in g target_0 [to_block_0] in
  let? g :=
    wire_targets g header_block
      ((λ i, (to_block !! i, target_blocks !! i)) <$> seq 1 (rounds - 1)) in
  let? pos := get_in_n_to_header g after_loop header_block in
  let? g := set_irn_n g after_loop pos prev_jmp in
  Some (g, switch_header).
End switch_header.

(** ** A loop to run the analyses on

    [for (i = a + b; i REL 100; i = i STEP 2) ;] where the header lists the
    back edge or the entry edge first:
<<
      block 0 (start block, root loop 0)
         1 Start        2 Proj T_args   3 Proj a      4 Proj b
         5 Add(3, 4)    6 Const 100     7 Const 2     8 Jmp
         9 Proj M
      block 10 (header, loop 1)    in: [17 (back edge); 8 (entry)]
        11 Phi(16, 5)  12 Cmp(11, 6, REL)   13 Cond(12)
        14 Proj X true -> block 15          18 Proj X false -> block 20
        19 Phi M(19, 9)
      block 15 (body, loop 1)      in: [14]
        16 STEP(11, 7) 17 Jmp
      block 20 (exit, root loop 0) in: [18]
        21 Return(19, 11)
      block 30: a copy of block 15, the landing pad of the switch fix-up
>> *)
Module Example.

Definition node (op : ir_opcode) (mode : ir_mode) (block : irn)
    (ins : list irn) : ir_node :=
  mk_ir_node op mode block ins ir_relation_false 0 0 None 0%nat None.

Definition block (ins : list irn) (loop : loop_id) : ir_node :=
  mk_ir_node iro_Block mode_BB 0%nat ins ir_relation_false 0 0 None 0%nat
    (Some loop).

Definition proj (mode : ir_mode) (block : irn) (pred : irn) (num : Z)
    : ir_node :=
  mk_ir_node iro_Proj mode block [pred] ir_relation_false num 0 None 0%nat None.

Definition const (block : irn) (tv : Z) : ir_node :=
  mk_ir_node iro_Const mode_Is block [] ir_relation_false 0 tv None 0%nat None.

Definition cmp (block : irn) (l r : irn) (rel : ir_relation) : ir_node :=
  mk_ir_node iro_Cmp mode_b block [l; r] rel 0 0 None 0%nat None.

Definition nodes (back_edge_first : bool) (rel : ir_relation)
    (step : ir_opcode) : list (irn * ir_node) :=
  [ (0, block [] 0);
    (1, node iro_Start mode_T 0 []);
    (2, proj mode_T 0 1 1);
    (3, proj mode_Is 0 2 0);
    (4, proj mode_Is 0 2 1);
    (5, node iro_Add mode_Is 0 [3; 4]);
    (6, const 0 100);
    (7, const 0 2);
    (8, node iro_Jmp mode_X 0 []);
    (9, proj mode_M 0 1 0);
    (10, block (if back_edge_first then [17; 8] else [8; 17]) 1);
    (11, node iro_Phi mode_Is 10
           (if back_edge_first then [16; 5] else [5; 16]));
    (12, cmp 10 11 6 rel);
    (13, node iro_Cond mode_T 10 [12]);
    (14, proj mode_X 10 13 pn_Cond_true);
    (18, proj mode_X 10 13 pn_Cond_false);
    (19, node iro_Phi mode_M 10
           (if back_edge_first then [19; 9] else [9; 19]));
    (15, block [14] 1);
    (16, node step mode_Is 15 [11; 7]);
    (17, node iro_Jmp mode_X 15 []);
    (20, block [18] 0);
    (21, node iro_Return mode_X 20 [19; 11]);
    (30, block [14] 1) ]%nat.

(** The out edges, with the position of the use ([-1] for the block). *)
Definition use (n : irn) (pos : Z) : irn * Z := (n, pos).

Definition outs (back_edge_first : bool) : list (irn * list (irn * Z)) :=
  let back := if back_edge_first then 0 else 1 in
  let entry := if back_edge_first then 1 else 0 in
  [ (0, [use 1 (-1); use 2 (-1); use 3 (-1); use 4 (-1); use 5 (-1);
         use 6 (-1); use 7 (-1); use 8 (-1); use 9 (-1)]);
    (1, [use 2 0; use 9 0]); (9, [use 19 entry]); (2, [use 3 0; use 4 0]); (3, [use 5 0]); (4, [use 5 1]);
    (5, [use 11 entry]); (6, [use 12 1]); (7, [use 16 1]); (8, [use 10 entry]);
    (10, [use 11 (-1); use 12 (-1); use 13 (-1); use 14 (-1); use 18 (-1);
          use 19 (-1)]);
    (19, [use 19 back; use 21 0]);
    (11, [use 12 0; use 16 0; use 21 1]); (12, [use 13 0]);
    (13, [use 14 0; use 18 0]); (14, [use 15 0]); (18, [use 20 0]);
    (15, [use 16 (-1); use 17 (-1)]); (16, [use 11 back]); (17, [use 10 back]);
    (20, [use 21 (-1)]) ]%nat.

Definition loops : list (loop_id * ir_loop) :=
  [ (0, mk_ir_loop 0 [k_ir_node 0; k_ir_loop 1; k_ir_node 20] 0);
    (1, mk_ir_loop 0 [k_ir_node 10; k_ir_node 15] 1) ]%nat.

Definition irg_of (back_edge_first : bool) (rel : ir_relation)
    (step : ir_opcode) : ir_graph :=
  mk_ir_graph (list_to_map (nodes back_edge_first rel step))
    (list_to_map (outs back_edge_first)) (list_to_map loops) 0 0 40.

(** [for (i = a + b; i < 100; i *= 2)], back edge first. *)
Definition irg : ir_graph := irg_of true ir_relation_less iro_Mul.

(** The same loop with [i == 100] as its condition. *)
Definition irg_equal : ir_graph := irg_of true ir_relation_equal iro_Mul.

(** [for (i = a + b; i <= 100; i += 2)], entry edge first. *)
Definition irg_add : ir_graph := irg_of false ir_relation_less_equal iro_Add.

(** Dominators: 0 -> 10 -> { 15, 20 }. *)
Definition idom (b : irn) : option irn :=
  match b with
  | 10 => Some 0
  | 15 | 20 => Some 10
  | _ => None
  end%nat.

Fixpoint dominates_from (fuel : nat) (a b : irn) : bool :=
  bool_decide (a = b)
  || match fuel, idom b with
     | S fuel, Some b' => dominates_from fuel a b'
     | _, _ => false
     end.

Definition ana : analyses :=
  mk_analyses idom (dominates_from 4) (λ _ _ _ _ _ _, ir_may_alias)
    (λ _, 4) (λ _, false) (λ _, None) (λ _, []) 0.

(** The caller's struct before the call. *)
Definition info0 : linear_unroll_info :=
  mk_linear_unroll_info SUB None None None ir_relation_false None None None
    None.

End Example.

(** ** Results: [find_optimal_factor] *)

Lemma find_optimal_factor_loop_unfold fuel number max i :
  find_optimal_factor_loop (S fuel) number max i =
    if i <=? number / 2 then
      if i =? 0 then None
      else
        if (number mod i =? 0) && (number / i <=? max)
           && is_power_of_two (to_unsigned number / i)
        then Some (to_unsigned number / i)
        else find_optimal_factor_loop fuel number max (to_unsigned (i + 1))
    else Some 0.
Proof. reflexivity. Qed.

Lemma find_optimal_factor_complete number max :
  number <= max → find_optimal_factor number max = Some (to_unsigned number).
Proof.
  intros Hle. unfold find_optimal_factor.
  destruct (Z.leb_spec number max); [done | lia].
Qed.

(** A value accepted by the power-of-two test is a power of two. *)
Lemma is_power_of_two_spec c :
  0 <= c → is_power_of_two c = true → ∃ k, 0 <= k ∧ c = 2 ^ k.
Proof.
  intros Hc H. unfold is_power_of_two in H.
  apply andb_true_iff in H as [Hnz Hland].
  apply negb_true_iff, Z.eqb_neq in Hnz. apply Z.eqb_eq in Hland.
  assert (Hpos : 0 < c) by lia.
  exists (Z.log2 c). split; [apply Z.log2_nonneg |].
  destruct (Z.log2_spec c Hpos) as [Hlo Hhi].
  destruct (Z.eq_dec c (2 ^ Z.log2 c)) as [-> | Hne].
  { by rewrite Z.log2_pow2 by apply Z.log2_nonneg. }
  exfalso.
  assert (Hlog : Z.log2 (c - 1) = Z.log2 c).
  { apply Z.log2_unique; [apply Z.log2_nonneg | lia]. }
  assert (Hb1 : Z.testbit c (Z.log2 c) = true) by (apply Z.bit_log2; lia).
  assert (Hb2 : Z.testbit (c - 1) (Z.log2 c) = true).
  { rewrite <- Hlog. apply Z.bit_log2.
    pose proof (Z.pow_pos_nonneg 2 (Z.log2 c) eq_refl (Z.log2_nonneg c)).
    lia. }
  assert (Hb : Z.testbit (Z.land c (c - 1)) (Z.log2 c) = true).
  { rewrite Z.land_spec, Hb1, Hb2. done. }
  rewrite Hland, Z.bits_0 in Hb. done.
Qed.

(** As long as [number] fits into 32 bits the cast changes nothing, [i]
    does not wrap, and the loop returns 0 or a divisor of [number] that is
    a power of two and at most [max]. *)
Lemma find_optimal_factor_loop_small fuel number max i r :
  0 <= number < 2 ^ UINT_BITS → 2 <= i →
  find_optimal_factor_loop fuel number max i = Some r →
  r = 0 ∨ ((r | number) ∧ r <= max ∧ ∃ k, 0 <= k ∧ r = 2 ^ k).
Proof.
  intros Hn. revert i. induction fuel as [| fuel IH]; intros i Hi H; [done |].
  rewrite find_optimal_factor_loop_unfold in H.
  destruct (Z.leb_spec i (number / 2)) as [Hle | Hgt]; [| left; congruence].
  destruct (Z.eqb_spec i 0) as [| _]; [lia |].
  assert (Hnumber : to_unsigned number = number).
  { unfold to_unsigned. apply Z.mod_small. done. }
  rewrite Hnumber in H.
  destruct ((number mod i =? 0) && (number / i <=? max)
            && is_power_of_two (number / i)) eqn:Hc.
  - injection H as <-. right.
    apply andb_true_iff in Hc as [Hc Hp2].
    apply andb_true_iff in Hc as [Hmod Hmax].
    apply Z.eqb_eq in Hmod. apply Z.leb_le in Hmax.
    split; [| split; [done |]].
    + exists i. apply Z.div_exact; [lia | done].
    + apply is_power_of_two_spec; [| done]. apply Z.div_pos; lia.
  - apply IH in H; [done |].
    assert (number / 2 < 2 ^ (UINT_BITS - 1)).
    { apply Z.div_lt_upper_bound; [lia |].
      change (2 * 2 ^ (UINT_BITS - 1)) with (2 ^ UINT_BITS). lia. }
    unfold to_unsigned. rewrite Z.mod_small; [lia |].
    change (2 ^ UINT_BITS) with (2 * 2 ^ (UINT_BITS - 1)). lia.
Qed.

Lemma find_optimal_factor_small number max r :
  0 <= number < 2 ^ UINT_BITS → max < number →
  find_optimal_factor number max = Some r →
  r = 0 ∨ ((r | number) ∧ r <= max ∧ ∃ k, 0 <= k ∧ r = 2 ^ k).
Proof.
  intros Hn Hmax. unfold find_optimal_factor.
  destruct (Z.leb_spec number max); [lia |].
  apply find_optimal_factor_loop_small; [done | lia].
Qed.


(** ** Results: the fixed-factor path is switched off *)

(** C1: [find_suitable_factor] returns 0 for every header, bound and flag
    (and leaves [*fully_unroll] alone), whatever the analysis behind the
    [return] would compute; so [unroll_loop] only ever leaves through one of
    its two early returns, with the state it was given: it fails exactly
    when the header search fails, reports [path_no_header] for a missing
    header and [path_declined] otherwise. *)
Theorem find_suitable_factor_returns_0 :
  ∀ (A : analyses)
    (rewire_loop rewire_fully_unrolled :
       ir_graph → loop_id → irn → Z → option ir_graph)
    (iteration_count_analysis : ir_graph → irn → Z → bool → Z * bool)
    (g : ir_graph) (header : irn) (max : Z) (fully_unroll : bool)
    (st : unroll_state) (loop : loop_id) (factor : Z),
    find_suitable_factor iteration_count_analysis g header max fully_unroll
      = (0, fully_unroll)
    ∧ unroll_loop A rewire_loop rewire_fully_unrolled
        iteration_count_analysis st loop factor
      = (λ header : option irn,
           (match header with
            | Some _ => path_declined
            | None => path_no_header
            end, st))
          <$> get_loop_header A (us_irg st) loop.
Proof.
  intros. split; [reflexivity |].
  unfold unroll_loop.
  destruct (get_loop_header A (us_irg st) loop) as [[h |] |]; reflexivity.
Qed.

(** ** Results: the compare the recognizer records *)

Definition same_compare (u u' : linear_unroll_info) : Prop :=
  info_cmp u' = info_cmp u ∧ info_rel u' = info_rel u.

Lemma same_compare_refl u : same_compare u u.
Proof. done. Qed.

Lemma same_compare_trans u1 u2 u3 :
  same_compare u1 u2 → same_compare u2 u3 → same_compare u1 u3.
Proof. intros [? ?] [? ?]. split; congruence. Qed.

Lemma is_valid_incr_same_compare A g alias u node b u' :
  is_valid_incr A g alias u node = Some (b, u') → same_compare u u'.
Proof.
  unfold is_valid_incr. intros H.
  repeat case_match; simplify_eq; done.
Qed.

Lemma check_phi_preds_same_compare A g alias loop phi_preds preds i st st' :
  check_phi_preds A g alias loop phi_preds preds i st = Some st' →
  same_compare (cps_info st) (cps_info st').
Proof.
  revert i st. induction preds as [| curr preds IH]; intros i st H; simpl in H.
  { by simplify_eq. }
  destruct (is_valid_incr A g alias (cps_info st) curr) as [[b u] |] eqn:Hincr;
    [| done].
  apply is_valid_incr_same_compare in Hincr.
  repeat case_match; simplify_eq; try done;
    (eapply same_compare_trans; [exact Hincr |]);
    apply IH in H; exact H.
Qed.

Lemma check_phi_same_compare A g alias u loop r u' alias' :
  check_phi A g alias u loop = Some (r, u', alias') → same_compare u u'.
Proof.
  unfold check_phi. intros H.
  repeat case_match; simplify_eq; try done;
    match goal with
    | Hp : check_phi_preds _ _ _ _ _ _ _ _ = Some _ |- _ =>
        apply check_phi_preds_same_compare in Hp; simpl in Hp;
        destruct Hp; split; simpl; congruence
    end.
Qed.

Lemma clear_bits_land a b : Z.land (clear_bits a b) b = 0.
Proof.
  unfold clear_bits.
  rewrite <- Z.land_assoc, (Z.land_comm (Z.lnot _)), Z.land_lnot_diag.
  apply Z.land_0_r.
Qed.

(** The Phi whose check granted the switch fix-up has an integer mode. *)
Lemma check_phi_switch_fixup_mode A g alias u loop r u' alias' :
  check_phi A g alias u loop = Some (r, u', alias') →
  Z.land r duff_unrollable_switch_fixup ≠ 0 →
  ∃ phi mode, info_phi u = Some phi ∧ is_Phi g phi = true
              ∧ get_irn_mode g phi = Some mode ∧ mode_is_int mode = true.
Proof.
  unfold check_phi. intros H Hbit.
  destruct (info_phi u) as [phi |] eqn:Hphi; [| done].
  unfold assert in H. destruct (is_Phi g phi) eqn:HisPhi; [| done].
  repeat case_match; simplify_eq; try done;
    try (exfalso; apply Hbit; apply clear_bits_land);
    eexists _, _; repeat split; try done;
    by destruct (mode_is_int _).
Qed.

Definition loop_relations : list ir_relation :=
  [ir_relation_less; ir_relation_less_equal; ir_relation_greater;
   ir_relation_greater_equal].

Lemma is_loop_relation_spec rel :
  is_loop_relation rel = true → rel ∈ loop_relations.
Proof.
  unfold is_loop_relation, loop_relations. intros H.
  apply negb_true_iff in H.
  repeat (apply andb_false_iff in H as [H | H]);
    apply bool_decide_eq_false in H; apply dec_stable in H; subst;
    set_solver.
Qed.

Lemma investigate_compare_records A g alias u loop node rel r u' alias' :
  investigate_compare A g alias u loop node rel = Some (r, u', alias') →
  info_cmp u' = Some node ∧ info_rel u' = rel.
Proof.
  unfold investigate_compare. intros H.
  repeat case_match; simplify_eq; try done;
    repeat match goal with
    | Hc : check_phi _ _ _ _ _ = Some _ |- _ =>
        apply check_phi_same_compare in Hc; destruct Hc; simpl in *
    end; split; congruence.
Qed.

Lemma scan_header_outs_records A g alias u loop header outs r u' alias' :
  scan_header_outs A g alias u loop header outs = Some (r, u', alias') →
  (r = duff_unrollable_none ∧ u' = u)
  ∨ ∃ cmp rel,
      info_cmp u' = Some cmp ∧ info_rel u' = rel
      ∧ is_Cmp g cmp = true ∧ get_Cmp_relation g cmp = Some rel
      ∧ rel ∈ loop_relations.
Proof.
  induction outs as [| out outs IH]; simpl; intros H.
  { left. by simplify_eq. }
  repeat case_match; simplify_eq; try (by apply IH).
  right. 
  match goal with
  | Hi : investigate_compare _ _ _ _ _ _ _ = Some _ |- _ =>
      apply investigate_compare_records in Hi as [? ?]
  end.
  eexists _, _.
  split; [done |]. split; [done |].
  split; [by apply negb_false_iff |]. split; [done |].
  apply is_loop_relation_spec. by apply negb_false_iff.
Qed.

Lemma determine_lin_unroll_info_records A g alias u loop r u' alias' :
  determine_lin_unroll_info A g alias u loop = Some (r, u', alias') →
  (r = duff_unrollable_none ∧ same_compare u u')
  ∨ ∃ cmp rel,
      info_cmp u' = Some cmp ∧ info_rel u' = rel
      ∧ is_Cmp g cmp = true ∧ get_Cmp_relation g cmp = Some rel
      ∧ rel ∈ loop_relations.
Proof.
  unfold determine_lin_unroll_info. intros H.
  repeat case_match; simplify_eq; try (by left).
  apply scan_header_outs_records in H as [[-> ->] | H]; [by left | by right].
Qed.

Lemma loop_relations_ordered rel :
  rel ∈ loop_relations →
  rel ≠ ir_relation_equal ∧ rel ≠ ir_relation_less_greater
  ∧ rel ≠ ir_relation_unordered_less_greater
  ∧ Z.land rel ir_relation_unordered = 0.
Proof.
  unfold loop_relations. intros H.
  repeat (apply elem_of_cons in H as [-> | H]); [done .. |].
  by apply elem_of_nil in H.
Qed.


Lemma land_clear_bits_nonzero a b c :
  Z.land (clear_bits a b) c ≠ 0 → Z.land a c ≠ 0.
Proof.
  unfold clear_bits. intros H Ha. apply H.
  rewrite <- Z.land_assoc, (Z.land_comm (Z.lnot b)), Z.land_assoc, Ha.
  apply Z.land_0_l.
Qed.

Lemma land_lor_nonzero a b c :
  Z.land (Z.lor a b) c ≠ 0 → Z.land a c ≠ 0 ∨ Z.land b c ≠ 0.
Proof.
  rewrite Z.land_lor_distr_l. intros H.
  destruct (Z.eq_dec (Z.land a c) 0) as [Ha | Ha]; [| by left].
  right. intros Hb. apply H. by rewrite Ha, Hb.
Qed.

Lemma investigate_compare_switch_fixup A g alias u loop node rel r u' alias' :
  investigate_compare A g alias u loop node rel = Some (r, u', alias') →
  Z.land r duff_unrollable_switch_fixup ≠ 0 →
  info_op u' ≠ MUL
  ∧ ∃ phi mode,
      (get_Cmp_left g node = Some phi ∨ get_Cmp_right g node = Some phi)
      ∧ is_Phi g phi = true
      ∧ get_irn_mode g phi = Some mode ∧ mode_is_int mode = true.
Proof.
  unfold investigate_compare. intros H Hbit.
  destruct (get_Cmp_left g node) as [left_ |] eqn:Hl; [| done].
  destruct (get_Cmp_right g node) as [right_ |] eqn:Hr; [| done].
  repeat case_match; simplify_eq; try done;
    repeat match goal with
    | Hb : Z.land (clear_bits _ _) _ ≠ 0 |- _ =>
        first [ by (exfalso; apply Hb, clear_bits_land)
              | apply land_clear_bits_nonzero in Hb ]
    | Hb : Z.land (Z.lor _ _) _ ≠ 0 |- _ =>
        apply land_lor_nonzero in Hb as [Hb | Hb]
    | Hb : Z.land duff_unrollable_none _ ≠ 0 |- _ => done
    end.
  all: split; [by eapply bool_decide_eq_false_1 |].
  all: match goal with
       | Hc : check_phi _ _ _ ?u0 _ = Some (?r0, _, _),
         Hb : Z.land ?r0 _ ≠ 0 |- _ =>
           destruct (check_phi_switch_fixup_mode _ _ _ _ _ _ _ _ Hc Hb)
             as (phi & mode & Hphi & Hp & Hm & Hi); simpl in Hphi;
           injection Hphi as <-;
           eexists _, _; split_and!; [| exact Hp | exact Hm | exact Hi]; eauto
       end.
Qed.


(** C6: when [determine_lin_unroll_info] reports the loop unrollable, or
    leaves another compare in [unroll_info->cmp] than it found there, the
    recorded node is a Cmp whose relation is [<], [<=], [>] or [>=] (and it
    is the relation stored in [unroll_info->rel]): never [==], never [!=]
    in its ordered or unordered form, and without the unordered bit. *)
Theorem determine_lin_unroll_info_compare_relation
    (A : analyses) (g : ir_graph) (alias : list alias_list)
    (u : linear_unroll_info) (loop : loop_id) (r : duff_unrollability)
    (u' : linear_unroll_info) (alias' : list alias_list) :
  determine_lin_unroll_info A g alias u loop = Some (r, u', alias') →
  r ≠ duff_unrollable_none ∨ info_cmp u' ≠ info_cmp u →
  ∃ cmp rel,
    info_cmp u' = Some cmp ∧ info_rel u' = rel
    ∧ is_Cmp g cmp = true ∧ get_Cmp_relation g cmp = Some rel
    ∧ rel ∈ loop_relations
    ∧ rel ≠ ir_relation_equal ∧ rel ≠ ir_relation_less_greater
    ∧ rel ≠ ir_relation_unordered_less_greater
    ∧ Z.land rel ir_relation_unordered = 0.
Proof.
  intros H Hrec.
  apply determine_lin_unroll_info_records in H
    as [[-> [Hcmp _]] | (cmp & rel & H1 & H2 & H3 & H4 & H5)].
  { by destruct Hrec. }
  exists cmp, rel. split_and!; try done; by apply loop_relations_ordered.
Qed.

Lemma determine_lin_unroll_info_compare_relation_witness :
  determine_lin_unroll_info Example.ana Example.irg [] Example.info0 1
    = Some (duff_unrollable_all,
            mk_linear_unroll_info ADD (Some 1%nat) (Some [5%nat])
              (Some 12%nat) ir_relation_less (Some 7%nat) (Some 11%nat)
              (Some 6%nat) None, [])
  ∧ ∃ cmp rel,
      Some 12%nat = Some cmp ∧ ir_relation_less = rel
      ∧ is_Cmp Example.irg cmp = true
      ∧ get_Cmp_relation Example.irg cmp = Some rel
      ∧ rel ∈ loop_relations
      ∧ rel ≠ ir_relation_equal ∧ rel ≠ ir_relation_less_greater
      ∧ rel ≠ ir_relation_unordered_less_greater
      ∧ Z.land rel ir_relation_unordered = 0.
Proof.
  split; [vm_compute; reflexivity |].
  apply (determine_lin_unroll_info_compare_relation Example.ana Example.irg
           [] Example.info0 1 duff_unrollable_all
           (mk_linear_unroll_info ADD (Some 1%nat) (Some [5%nat])
              (Some 12%nat) ir_relation_less (Some 7%nat) (Some 11%nat)
              (Some 6%nat) None) []).
  - vm_compute; reflexivity.
  - left. vm_compute. discriminate.
Defined.

(** ** Results: the switch fix-up and the step operation *)

(** The switch fix-up is only reported when [unroll_info->op] is not [MUL]
    at the end of the analysis and a Phi operand of the recorded compare
    has an integer mode. *)
Lemma determine_lin_unroll_info_switch_fixup
    A g alias u loop r u' alias' :
  determine_lin_unroll_info A g alias u loop = Some (r, u', alias') →
  Z.land r duff_unrollable_switch_fixup ≠ 0 →
  info_op u' ≠ MUL
  ∧ ∃ cmp phi mode,
      info_cmp u' = Some cmp
      ∧ (get_Cmp_left g cmp = Some phi ∨ get_Cmp_right g cmp = Some phi)
      ∧ is_Phi g phi = true
      ∧ get_irn_mode g phi = Some mode ∧ mode_is_int mode = true.
Proof.
  unfold determine_lin_unroll_info. intros H Hbit.
  repeat case_match; simplify_eq; try done.
  clear -H Hbit. revert H.
  generalize (set_info_loop (Some loop) (set_info_i None u)).
  generalize (get_irn_outs g i).
  intros outs. induction outs as [| out outs IH]; intros u0 H; simpl in H.
  { by simplify_eq. }
  repeat case_match; simplify_eq; try (by eapply IH).
  match goal with
  | Hi : investigate_compare _ _ _ _ _ _ _ = Some _ |- _ =>
      pose proof (investigate_compare_records _ _ _ _ _ _ _ _ _ _ Hi)
        as [Hcmp _];
      apply investigate_compare_switch_fixup in Hi
        as (Hop & phi & mode & Hside & Hphi & Hmode & Hint); [| done]
  end.
  split; [done |]. by exists out.1, phi, mode.
Qed.

(** C5: the claim is that no loop whose step is a multiplication is
    reported fit for the switch fix-up. On the example loop
    [for (i = a + b; i < 100; i *= 2)] with the back edge as operand 0 of
    the Phi the analysis returns [duff_unrollable_all]: the Mul is accepted
    as the increment ([unroll_info->incr] is its constant operand), then
    the check of the start value [a + b] overwrites [unroll_info->op] with
    [ADD], and the test [unroll_info->op == MUL] no longer sees the Mul.
    With the operands in the other order the bit is cleared. *)
Theorem switch_fixup_reported_for_mul_step :
  determine_lin_unroll_info Example.ana Example.irg [] Example.info0 1
    = Some (duff_unrollable_all,
            mk_linear_unroll_info ADD (Some 1%nat) (Some [5%nat])
              (Some 12%nat) ir_relation_less (Some 7%nat) (Some 11%nat)
              (Some 6%nat) None, [])
  ∧ Z.land duff_unrollable_all duff_unrollable_switch_fixup ≠ 0
  ∧ get_Phi_preds Example.irg 11 = Some [16; 5]%nat
  ∧ is_Mul Example.irg 16 = true
  ∧ get_binop_left Example.irg 16 = Some 11%nat
  ∧ get_binop_right Example.irg 16 = Some 7%nat
  ∧ determine_lin_unroll_info Example.ana
      (Example.irg_of false ir_relation_less iro_Mul) [] Example.info0 1
    = Some (duff_unrollable_loop_fixup,
            mk_linear_unroll_info MUL (Some 1%nat) (Some [5%nat])
              (Some 12%nat) ir_relation_less (Some 7%nat) (Some 11%nat)
              (Some 6%nat) None, []).
Proof. split_and!; by vm_compute. Qed.

(** ** Results: a declined loop leaves the graph alone *)

Definition never_unrollable (A : analyses) (g : ir_graph) : Prop :=
  ∀ alias u loop r u' alias',
    determine_lin_unroll_info A g alias u loop = Some (r, u', alias') →
    r = duff_unrollable_none.

Definition unchanged (st st' : unroll_state) : Prop :=
  us_irg st' = us_irg st ∧ us_n_loops_unrolled st' = us_n_loops_unrolled st.

Section declined.
Context (A : analyses).
Context (rewire_loop rewire_fully_unrolled :
           ir_graph → loop_id → irn → Z → option ir_graph).
Context (unroll_loop_duff :
           unroll_state → loop_id → Z → linear_unroll_info
           → duff_unrollability → option unroll_state).
Context (iteration_count_analysis : ir_graph → irn → Z → bool → Z * bool).
Context (DEBUG_libfirm : bool) (uninitialised_info : linear_unroll_info).

Lemma unroll_loop_early_return st loop factor :
  unroll_loop A rewire_loop rewire_fully_unrolled iteration_count_analysis
    st loop factor
  = (λ header : option irn,
       (match header with
        | Some _ => path_declined
        | None => path_no_header
        end, st))
      <$> get_loop_header A (us_irg st) loop.
Proof.
  unfold unroll_loop.
  destruct (get_loop_header A (us_irg st) loop) as [[h |] |]; reflexivity.
Qed.

Lemma try_duff_unchanged st loop st' :
  never_unrollable A (us_irg st) →
  try_duff A unroll_loop_duff uninitialised_info st loop = Some st' →
  unchanged st st'.
Proof.
  intros Hnever. unfold try_duff. intros H.
  repeat case_match; simplify_eq; try done.
  match goal with
  | Hd : determine_lin_unroll_info _ _ _ _ _ = Some _ |- _ =>
      apply Hnever in Hd; subst
  end.
  by rewrite bool_decide_eq_false_2 in * by (intros Hne; by apply Hne).
Qed.

Lemma visit_sons_unchanged rec loop n i st innermost st' innermost' :
  (∀ st son st', never_unrollable A (us_irg st) →
                 rec st son = Some st' → unchanged st st') →
  never_unrollable A (us_irg st) →
  visit_sons rec loop n i st innermost = Some (st', innermost') →
  unchanged st st'.
Proof.
  intros Hrec. revert i st innermost.
  induction n as [| n IH]; intros i st innermost Hnever H; simpl in H.
  { by simplify_eq. }
  repeat case_match; simplify_eq.
  - by eapply IH.
  - match goal with
    | Hr : rec _ _ = Some ?st1 |- _ =>
        apply Hrec in Hr as [Hg Hn]; [| done];
        apply IH in H as [Hg' Hn']; [| by rewrite Hg];
        split; congruence
    end.
Qed.

Lemma duplicate_innermost_loops_from_unchanged fuel factor maxsize :
  ∀ outermost st loop st',
    never_unrollable A (us_irg st) →
    duplicate_innermost_loops_from A rewire_loop rewire_fully_unrolled
      unroll_loop_duff iteration_count_analysis DEBUG_libfirm
      uninitialised_info fuel factor maxsize outermost st loop = Some st' →
    unchanged st st'.
Proof.
  induction fuel as [| fuel IH]; intros outermost st loop st' Hnever H;
    [done |].
  simpl in H.
  destruct (get_loop_elements (us_irg st) loop) as [elements |]; [| done].
  destruct (visit_sons _ _ _ _ _ _) as [[st1 innermost] |] eqn:Hsons;
    [| done].
  apply visit_sons_unchanged in Hsons as [Hg Hn]; [| | done].
  2: { intros ? ? ? ? Hr. by eapply IH. }
  assert (Hnever1 : never_unrollable A (us_irg st1)) by by rewrite Hg.
  assert (Hduff : ∀ st2, try_duff A unroll_loop_duff uninitialised_info
                           st1 loop = Some st2 → unchanged st st2).
  { intros st2 Hd. apply try_duff_unchanged in Hd as [? ?]; [| done].
    split; congruence. }
  repeat case_match; simplify_eq; try (by apply Hduff); try done.
  rewrite unroll_loop_early_return in *.
  match goal with
  | Hu : _ <$> _ = Some _ |- _ =>
      apply fmap_Some in Hu as (? & _ & ->)
  end.
  done.
Qed.
End declined.

(** C2: when the recognizer returns [duff_unrollable_none] for every loop
    it is asked about, [duplicate_innermost_loops] returns with the graph
    it was given (nodes, edges and loop tree) and with [n_loops_unrolled]
    as it was, whatever [unroll_loop_duff] and the rewiring routines would
    do: every innermost loop is either sent to [unroll_loop], which always
    declines, or to the Duff analysis, which declines by hypothesis. *)
Theorem declined_loops_leave_graph_unchanged
    (A : analyses)
    (rewire_loop rewire_fully_unrolled :
       ir_graph → loop_id → irn → Z → option ir_graph)
    (unroll_loop_duff :
       unroll_state → loop_id → Z → linear_unroll_info
       → duff_unrollability → option unroll_state)
    (iteration_count_analysis : ir_graph → irn → Z → bool → Z * bool)
    (DEBUG_libfirm : bool) (uninitialised_info : linear_unroll_info)
    (st : unroll_state) (loop : loop_id) (factor maxsize : Z)
    (outermost : bool) (st' : unroll_state) :
  never_unrollable A (us_irg st) →
  duplicate_innermost_loops A rewire_loop rewire_fully_unrolled
    unroll_loop_duff iteration_count_analysis DEBUG_libfirm
    uninitialised_info st loop factor maxsize outermost = Some st' →
  us_irg st' = us_irg st
  ∧ us_n_loops_unrolled st' = us_n_loops_unrolled st.
Proof.
  intros Hnever H.
  by eapply duplicate_innermost_loops_from_unchanged.
Qed.

Lemma irg_equal_never_unrollable :
  never_unrollable Example.ana Example.irg_equal.
Proof.
  intros alias u loop r u' alias' H.
  unfold determine_lin_unroll_info in H.
  destruct loop as [| [| loop]].
  - vm_compute in H. by simplify_eq.
  - vm_compute in H. by simplify_eq.
  - unfold no_of_block_in_loop, get_loop_elements, get_loop in H.
    simpl irg_loops in H. unfold Example.loops in H.
    simpl list_to_map in H.
    by rewrite !lookup_insert_ne, lookup_empty in H by done.
Qed.

Lemma declined_loops_leave_graph_unchanged_witness :
  let st := mk_unroll_state Example.irg_equal [] 0 in
  duplicate_innermost_loops Example.ana (λ _ _ _ _, None) (λ _ _ _ _, None)
    (λ _ _ _ _ _, None) (λ _ _ _ _, (8, true)) true Example.info0
    st 0 4 100 true = Some st
  ∧ us_irg st = us_irg st
  ∧ us_n_loops_unrolled st = us_n_loops_unrolled st.
Proof.
  intros st. split; [vm_compute; reflexivity |].
  apply (declined_loops_leave_graph_unchanged Example.ana (λ _ _ _ _, None)
           (λ _ _ _ _, None) (λ _ _ _ _ _, None) (λ _ _ _ _, (8, true))
           true Example.info0 st 0%nat 4 100 true st).
  - exact irg_equal_never_unrollable.
  - vm_compute; reflexivity.
Defined.

(** ** Results: the residue of the switch fix-up *)

(** *** Arithmetic modulo the mode's width *)

Lemma to_signed_mod bits v : 0 < bits → to_signed bits v mod 2 ^ bits = v mod 2 ^ bits.
Proof.
  intros Hb. unfold to_signed.
  assert (0 < 2 ^ bits) by (apply Z.pow_pos_nonneg; lia).
  rewrite Zminus_mod, Zmod_mod, <- Zminus_mod. f_equal. lia.
Qed.

Lemma wrap_mod mode v :
  0 < get_mode_size_bits mode →
  wrap mode v mod 2 ^ get_mode_size_bits mode = v mod 2 ^ get_mode_size_bits mode.
Proof.
  intros Hb. unfold wrap. destruct (mode_is_signed mode).
  - by apply to_signed_mod.
  - apply Zmod_mod.
Qed.

Lemma to_signed_congr bits a b :
  a mod 2 ^ bits = b mod 2 ^ bits → to_signed bits a = to_signed bits b.
Proof.
  intros H. unfold to_signed. f_equal.
  rewrite (Zplus_mod a), (Zplus_mod b), H. done.
Qed.

Lemma wrap_congr mode a b :
  a mod 2 ^ get_mode_size_bits mode = b mod 2 ^ get_mode_size_bits mode →
  wrap mode a = wrap mode b.
Proof.
  intros H. unfold wrap. destruct (mode_is_signed mode); [| done].
  by apply to_signed_congr.
Qed.

Lemma to_signed_range bits v :
  0 < bits → - 2 ^ (bits - 1) <= to_signed bits v < 2 ^ (bits - 1).
Proof.
  intros Hb. unfold to_signed.
  assert (Hp : 2 ^ bits = 2 * 2 ^ (bits - 1)).
  { rewrite <- Z.pow_succ_r by lia. f_equal. lia. }
  assert (0 < 2 ^ (bits - 1)) by (apply Z.pow_pos_nonneg; lia).
  pose proof (Z.mod_pos_bound (v + 2 ^ (bits - 1)) (2 ^ bits)). lia.
Qed.

Lemma to_signed_small bits v :
  0 < bits → - 2 ^ (bits - 1) <= v < 2 ^ (bits - 1) → to_signed bits v = v.
Proof.
  intros Hb Hv. unfold to_signed.
  assert (Hp : 2 ^ bits = 2 * 2 ^ (bits - 1)).
  { rewrite <- Z.pow_succ_r by lia. f_equal. lia. }
  rewrite Z.mod_small; lia.
Qed.

Lemma to_signed_wrap mode v :
  0 < get_mode_size_bits mode →
  to_signed (get_mode_size_bits mode) (wrap mode v)
  = to_signed (get_mode_size_bits mode) v.
Proof. intros Hb. apply to_signed_congr. by apply wrap_mod. Qed.

(** The sign word: all ones for a negative value, zero otherwise. *)
Lemma shiftr_sign bits s :
  0 < bits → - 2 ^ (bits - 1) <= s < 2 ^ (bits - 1) →
  Z.shiftr s (bits - 1) = if s <? 0 then -1 else 0.
Proof.
  intros Hb Hs. rewrite Z.shiftr_div_pow2 by lia.
  assert (0 < 2 ^ (bits - 1)) by (apply Z.pow_pos_nonneg; lia).
  destruct (Z.ltb_spec s 0).
  - symmetry. apply Z.div_unique with (r := s + 2 ^ (bits - 1)); lia.
  - apply Z.div_small. lia.
Qed.

(** [create_abs] computes the absolute value of the signed reading. *)
Lemma abs_by_shift mode v :
  0 < get_mode_size_bits mode →
  let shrs := tarval_shrs mode v (get_mode_size_bits mode - 1) in
  tarval_sub mode (tarval_eor mode shrs v) shrs
  = wrap mode (Z.abs (to_signed (get_mode_size_bits mode) v)).
Proof.
  intros Hb. simpl. unfold tarval_sub, tarval_eor, tarval_shrs.
  pose proof (to_signed_range _ v Hb) as Hs.
  rewrite (shiftr_sign _ _ Hb Hs).
  apply wrap_congr.
  rewrite Zminus_mod, !wrap_mod, <- Zminus_mod by done.
  f_equal. rewrite to_signed_wrap by done.
  set (bits := get_mode_size_bits mode) in *.
  set (s := to_signed bits v) in *.
  assert (0 < 2 ^ (bits - 1)) by (apply Z.pow_pos_nonneg; lia).
  destruct (Z.ltb_spec s 0).
  - rewrite (to_signed_small bits (-1)) by lia.
    rewrite Z.lxor_m1_l. unfold Z.lnot. lia.
  - rewrite (to_signed_small bits 0) by lia.
    rewrite Z.lxor_0_l. lia.
Qed.

(** *** New nodes do not disturb old ones *)

Definition graph_wf (g : ir_graph) : Prop :=
  ∀ n : irn, (irg_last_idx g ≤ n)%nat → irg_nodes g !! n = None.

Definition extends (g g' : ir_graph) : Prop :=
  irg_nodes g ⊆ irg_nodes g' ∧ (irg_last_idx g ≤ irg_last_idx g')%nat.

Definition rho_below (g : ir_graph) (rho : gmap irn Z) : Prop :=
  ∀ n : irn, (irg_last_idx g ≤ n)%nat → rho !! n = None.

Lemma extends_refl g : extends g g.
Proof. split; done. Qed.

Lemma extends_trans g1 g2 g3 : extends g1 g2 → extends g2 g3 → extends g1 g3.
Proof. intros [? ?] [? ?]. split; [by etrans | lia]. Qed.

Lemma rho_below_extends g g' rho : extends g g' → rho_below g rho → rho_below g' rho.
Proof. intros [_ Hle] Hrho n Hn. apply Hrho. lia. Qed.

Lemma get_node_extends g g' n nd :
  extends g g' → get_node g n = Some nd → get_node g' n = Some nd.
Proof. intros [Hsub _] H. by eapply lookup_weaken. Qed.

Lemma get_irn_mode_extends g g' n mode :
  extends g g' → get_irn_mode g n = Some mode → get_irn_mode g' n = Some mode.
Proof.
  unfold get_irn_mode. intros Hext H.
  destruct (get_node g n) as [nd |] eqn:Hn; [| done].
  by rewrite (get_node_extends _ _ _ _ Hext Hn).
Qed.

Lemma add_node_spec g nd g' n :
  graph_wf g → add_node g nd = (g', n) →
  graph_wf g' ∧ extends g g' ∧ n = irg_last_idx g
  ∧ irg_last_idx g' = S n ∧ get_node g' n = Some nd.
Proof.
  intros Hwf H. unfold add_node in H. simplify_eq. split_and!; try done.
  - intros n Hn. simpl in *. rewrite lookup_insert_ne by lia. apply Hwf. lia.
  - split; simpl; [| lia]. apply insert_subseteq. by apply Hwf.
  - unfold get_node. simpl. apply lookup_insert_eq.
Qed.

Lemma eval_mono fuel fuel' g g' rho n v :
  (fuel ≤ fuel')%nat → extends g g' →
  eval fuel g rho n = Some v → eval fuel' g' rho n = Some v.
Proof.
  intros Hle Hext. revert fuel' n v Hle.
  induction fuel as [| fuel IH]; intros fuel' n v Hle H.
  - destruct fuel'; simpl in *; destruct (rho !! n); done.
  - destruct fuel' as [| fuel']; [lia |].
    simpl in *. destruct (rho !! n); [done |].
    destruct (get_node g n) as [nd |] eqn:Hn; [| done].
    rewrite (get_node_extends _ _ _ _ Hext Hn).
    assert (Hbin : ∀ f,
      match irn_in nd with
      | [a; b] =>
          let? va := eval fuel g rho a in
          let? vb := eval fuel g rho b in Some (f (irn_mode nd) va vb)
      | _ => None
      end = Some v →
      match irn_in nd with
      | [a; b] =>
          let? va := eval fuel' g' rho a in
          let? vb := eval fuel' g' rho b in Some (f (irn_mode nd) va vb)
      | _ => None
      end = Some v).
    { intros f Hf. destruct (irn_in nd) as [| a [| b [| ? ?]]]; try done.
      destruct (eval fuel g rho a) as [va |] eqn:Ha; [| done].
      destruct (eval fuel g rho b) as [vb |] eqn:Hb; [| done].
      rewrite (IH fuel' a va), (IH fuel' b vb) by (done || lia). done. }
    destruct (irn_op nd); try done; by apply Hbin.
Qed.

Definition binop_value (op : ir_opcode) : option (ir_mode → Z → Z → Z) :=
  match op with
  | iro_Add => Some tarval_add
  | iro_Sub => Some tarval_sub
  | iro_Mul => Some tarval_mul
  | iro_Eor => Some tarval_eor
  | iro_Shrs => Some tarval_shrs
  | _ => None
  end.

Lemma eval_binop fuel g rho n op mode block x y f vx vy :
  get_node g n = Some (plain_node op mode block [x; y]) →
  rho !! n = None → binop_value op = Some f →
  eval fuel g rho x = Some vx → eval fuel g rho y = Some vy →
  eval (S fuel) g rho n = Some (f mode vx vy).
Proof.
  intros Hn Hrho Hop Hx Hy. simpl. rewrite Hrho, Hn. simpl.
  rewrite Hx, Hy. destruct op; simpl in Hop; by simplify_eq.
Qed.

(** What a new binary operation is and computes. *)
Lemma new_r_binop_spec op g block x y g' n rho fuel f vx vy :
  graph_wf g → rho_below g rho →
  new_r_binop op g block x y = Some (g', n) →
  binop_value op = Some f →
  eval fuel g rho x = Some vx → eval fuel g rho y = Some vy →
  ∃ mode,
    get_irn_mode g x = Some mode ∧ get_irn_mode g' n = Some mode
    ∧ graph_wf g' ∧ extends g g' ∧ (irg_last_idx g ≤ n)%nat
    ∧ eval (S fuel) g' rho n = Some (f mode vx vy).
Proof.
  intros Hwf Hrho H Hop Hx Hy. unfold new_r_binop in H.
  destruct (get_irn_mode g x) as [mode |] eqn:Hmode; [| done].
  apply (inj Some) in H.
  apply add_node_spec in H as (Hwf' & Hext & -> & Hlast & Hn); [| done].
  exists mode. split_and!; try done.
  - unfold get_irn_mode. by rewrite Hn.
  - eapply eval_binop; try done.
    + by apply Hrho.
    + by eapply eval_mono.
    + by eapply eval_mono.
Qed.

Lemma new_r_Const_long_spec g mode value g' n rho fuel :
  graph_wf g → rho_below g rho →
  new_r_Const_long g mode value = (g', n) →
  get_irn_mode g' n = Some mode
  ∧ graph_wf g' ∧ extends g g' ∧ (irg_last_idx g ≤ n)%nat
  ∧ eval (S fuel) g' rho n = Some (wrap mode value).
Proof.
  intros Hwf Hrho H. unfold new_r_Const_long in H.
  apply add_node_spec in H as (Hwf' & Hext & -> & Hlast & Hn); [| done].
  split_and!; try done.
  - unfold get_irn_mode. by rewrite Hn.
  - simpl. rewrite Hrho, Hn by done. done.
Qed.

Definition int_mode_bits (mode : ir_mode) : Prop :=
  0 < get_mode_size_bits mode ∧ get_mode_size_bits mode - 1 < 2 ^ 32.

Lemma mode_is_int_bits mode : mode_is_int mode = true → int_mode_bits mode.
Proof. destruct mode; try done; by vm_compute. Qed.

Lemma create_abs_spec g block node g' n rho fuel mode v :
  graph_wf g → rho_below g rho →
  create_abs g block node = Some (g', n) →
  get_irn_mode g node = Some mode → int_mode_bits mode →
  eval fuel g rho node = Some v →
  get_irn_mode g' n = Some mode ∧ graph_wf g' ∧ extends g g'
  ∧ eval (4 + fuel) g' rho n
    = Some (wrap mode (Z.abs (to_signed (get_mode_size_bits mode) v))).
Proof.
  intros Hwf Hrho H Hmode [Hb1 Hb2] Hv. unfold create_abs in H.
  rewrite Hmode in H.
  destruct (new_r_Const_long g mode_Iu _) as [g1 shift] eqn:H1.
  apply (new_r_Const_long_spec _ _ _ _ _ rho fuel) in H1
    as (_ & Hwf1 & Hext1 & _ & Hshift); [| done ..].
  pose proof (rho_below_extends _ _ _ Hext1 Hrho) as Hrho1.
  destruct (new_r_Shrs g1 block node shift) as [[g2 shrs] |] eqn:H2; [| done].
  eapply (new_r_binop_spec _ _ _ _ _ _ _ rho (S fuel)) in H2
    as (m2 & Hm2 & Hm2' & Hwf2 & Hext2 & _ & Hshrs);
    [| done | done | reflexivity | by eapply eval_mono; [| | exact Hv]; [lia | done]
     | exact Hshift].
  rewrite (get_irn_mode_extends _ _ _ _ Hext1 Hmode) in Hm2.
  injection Hm2 as <-.
  pose proof (rho_below_extends _ _ _ Hext2 Hrho1) as Hrho2.
  pose proof (extends_trans _ _ _ Hext1 Hext2) as Hext12.
  destruct (new_r_Eor g2 block shrs node) as [[g3 eor] |] eqn:H3; [| done].
  eapply (new_r_binop_spec _ _ _ _ _ _ _ rho (S (S fuel))) in H3
    as (m3 & Hm3 & Hm3' & Hwf3 & Hext3 & _ & Heor);
    [| done | done | reflexivity | exact Hshrs
     | by eapply eval_mono; [| | exact Hv]; [lia | done]].
  rewrite Hm2' in Hm3. injection Hm3 as <-.
  pose proof (rho_below_extends _ _ _ Hext3 Hrho2) as Hrho3.
  eapply (new_r_binop_spec _ _ _ _ _ _ _ rho (S (S (S fuel)))) in H
    as (m4 & Hm4 & Hm4' & Hwf4 & Hext4 & _ & Hsub);
    [| done | done | reflexivity | exact Heor
     | by eapply eval_mono; [| | exact Hshrs]; [lia | done]].
  rewrite Hm3' in Hm4. injection Hm4 as <-.
  split_and!; try done.
  - by eapply extends_trans; [eapply extends_trans |].
  - change (4 + fuel)%nat with (S (S (S (S fuel)))). rewrite Hsub. f_equal.
    assert (Hs : wrap mode_Iu (get_mode_size_bits mode - 1)
                 = get_mode_size_bits mode - 1).
    { unfold wrap. simpl. apply Z.mod_small. lia. }
    rewrite Hs. by apply abs_by_shift.
Qed.

Section wrap_arith.
Context (mode : ir_mode) (Hbits : 0 < get_mode_size_bits mode).

Lemma wrap_add_l a b : wrap mode (wrap mode a + b) = wrap mode (a + b).
Proof. apply wrap_congr. by rewrite Zplus_mod, wrap_mod, <- Zplus_mod. Qed.

Lemma wrap_add_r a b : wrap mode (a + wrap mode b) = wrap mode (a + b).
Proof. apply wrap_congr. by rewrite Zplus_mod, wrap_mod, <- Zplus_mod. Qed.

Lemma wrap_sub_l a b : wrap mode (wrap mode a - b) = wrap mode (a - b).
Proof. apply wrap_congr. by rewrite Zminus_mod, wrap_mod, <- Zminus_mod. Qed.

Lemma wrap_sub_r a b : wrap mode (a - wrap mode b) = wrap mode (a - b).
Proof. apply wrap_congr. by rewrite Zminus_mod, wrap_mod, <- Zminus_mod. Qed.
End wrap_arith.

Lemma is_less_extends g g' info less :
  extends g g' → is_less g info = Some less → is_less g' info = Some less.
Proof.
  intros Hext. unfold is_less, get_Cmp_right, get_irn_n, get_irn_in.
  destruct (info_cmp info) as [cmp |]; [| done]. simpl.
  destruct (get_node g cmp) as [nd |] eqn:Hn; [| done].
  by rewrite (get_node_extends _ _ _ _ Hext Hn).
Qed.

Lemma is_less_extends_inv g g' info less :
  extends g g' → is_Some (is_less g info) →
  is_less g' info = Some less → is_less g info = Some less.
Proof.
  intros Hext [l Hl] H.
  rewrite (is_less_extends _ _ _ _ Hext Hl) in H. congruence.
Qed.

(** The value [create_fixup_switch_header] builds in [res]. *)
Definition residue_value (mode : ir_mode) (less : bool) (rel : ir_relation)
    (vN vi vc : Z) : Z :=
  let bits := get_mode_size_bits mode in
  let N_abs := Z.abs (to_signed bits vN) in
  let c_abs := Z.abs (to_signed bits vc) in
  wrap mode
    ((if less then N_abs - vi else vi - N_abs)
     + (if bool_decide (rel = ir_relation_less_equal)
           || bool_decide (rel = ir_relation_greater_equal)
        then 1 else 0)
     + (c_abs - 1)).

Lemma build_residue_spec g sh info c_cpy N_cpy g' c_abs res rho fuel mode
    phi vN vc vi :
  graph_wf g → rho_below g rho →
  build_residue g sh info c_cpy N_cpy = Some (g', c_abs, res) →
  info_phi info = Some phi →
  get_irn_mode g N_cpy = Some mode → get_irn_mode g c_cpy = Some mode →
  get_irn_mode g phi = Some mode → mode_is_int mode = true →
  eval fuel g rho N_cpy = Some vN → eval fuel g rho c_cpy = Some vc →
  eval fuel g rho phi = Some vi →
  ∃ less,
    is_less g' info = Some less
    ∧ graph_wf g' ∧ extends g g'
    ∧ get_irn_mode g' c_abs = Some mode
    ∧ eval (8 + fuel) g' rho res
      = Some (residue_value mode less (info_rel info) vN vi vc).
Proof.
  intros Hwf Hrho H Hphi HmN Hmc Hmphi Hint HeN Hec Hei.
  pose proof (mode_is_int_bits _ Hint) as Hbits.
  unfold build_residue in H. rewrite Hphi in H.
  destruct (create_abs g sh N_cpy) as [[g1 N_abs] |] eqn:H1; [| done].
  eapply create_abs_spec in H1 as (HmNa & Hwf1 & Hext1 & HNa); [| done ..].
  pose proof (rho_below_extends _ _ _ Hext1 Hrho) as Hrho1.
  destruct (create_abs g1 sh c_cpy) as [[g2 c_abs'] |] eqn:H2; [| done].
  eapply create_abs_spec in H2 as (Hmca & Hwf2 & Hext2 & Hca);
    [| done | done | by eapply get_irn_mode_extends | done
     | by eapply eval_mono; [| | exact Hec]].
  pose proof (rho_below_extends _ _ _ Hext2 Hrho1) as Hrho2.
  rewrite Hmca in H.
  destruct (new_r_Const_long g2 mode 1) as [g3 one_const] eqn:H3.
  apply (new_r_Const_long_spec _ _ _ _ _ rho (3 + fuel)%nat) in H3
    as (Hmone & Hwf3 & Hext3 & _ & Hone); [| done ..].
  pose proof (rho_below_extends _ _ _ Hext3 Hrho2) as Hrho3.
  destruct (is_less g3 info) as [less |] eqn:Hless; [| done].
  pose proof (extends_trans _ _ _ Hext1 (extends_trans _ _ _ Hext2 Hext3))
    as Hext03.
  set (bits := get_mode_size_bits mode) in *.
  (* N_minus_i *)
  destruct (if less then new_r_Sub g3 sh N_abs phi
            else new_r_Sub g3 sh phi N_abs) as [[g4 N_minus_i] |] eqn:H4;
    [| done].
  assert (∃ m4, get_irn_mode g4 N_minus_i = Some mode
                ∧ graph_wf g4 ∧ extends g3 g4
                ∧ eval (5 + fuel) g4 rho N_minus_i
                  = Some (wrap mode
                      (if less
                       then Z.abs (to_signed bits vN) - vi
                       else vi - Z.abs (to_signed bits vN))) ∧ m4 = mode)
    as (_ & Hm4 & Hwf4 & Hext4 & HNmi & _).
  { destruct less.
    - eapply (new_r_binop_spec _ _ _ _ _ _ _ rho (4 + fuel)%nat) in H4
        as (m4 & Hm4 & Hm4' & Hwf4 & Hext4 & _ & He);
        [| done | done | reflexivity
         | by eapply eval_mono; [| | exact HNa]; [lia | by eapply extends_trans]
         | by eapply eval_mono; [| | exact Hei]; [lia | done]].
      rewrite (get_irn_mode_extends _ _ _ _
                 (extends_trans _ _ _ Hext2 Hext3) HmNa) in Hm4.
      injection Hm4 as <-. exists mode. split_and!; try done.
      etrans; [exact He |]. unfold tarval_sub. f_equal. apply wrap_sub_l, Hbits.
    - eapply (new_r_binop_spec _ _ _ _ _ _ _ rho (4 + fuel)%nat) in H4
        as (m4 & Hm4 & Hm4' & Hwf4 & Hext4 & _ & He);
        [| done | done | reflexivity
         | by eapply eval_mono; [| | exact Hei]; [lia | done]
         | by eapply eval_mono; [| | exact HNa]; [lia | by eapply extends_trans]].
      rewrite (get_irn_mode_extends _ _ _ _ Hext03 Hmphi) in Hm4.
      injection Hm4 as <-. exists mode. split_and!; try done.
      etrans; [exact He |]. unfold tarval_sub. f_equal. apply wrap_sub_r, Hbits. }
  pose proof (rho_below_extends _ _ _ Hext4 Hrho3) as Hrho4.
  (* the non-strict relations add one *)
  set (nonstrict := bool_decide (info_rel info = ir_relation_less_equal)
                    || bool_decide (info_rel info = ir_relation_greater_equal))
    in *.
  destruct (if nonstrict then new_r_Add g4 sh N_minus_i one_const
            else Some (g4, N_minus_i)) as [[g5 N_minus_i'] |] eqn:H5;
    [| done].
  assert (get_irn_mode g5 N_minus_i' = Some mode
          ∧ graph_wf g5 ∧ extends g4 g5
          ∧ eval (6 + fuel) g5 rho N_minus_i'
            = Some (wrap mode
                ((if less
                  then Z.abs (to_signed bits vN) - vi
                  else vi - Z.abs (to_signed bits vN))
                 + (if nonstrict then 1 else 0))))
    as (Hm5 & Hwf5 & Hext5 & HNmi').
  { destruct nonstrict.
    - eapply (new_r_binop_spec _ _ _ _ _ _ _ rho (5 + fuel)%nat) in H5
        as (m5 & Hm5 & Hm5' & Hwf5 & Hext5 & _ & He);
        [| done | done | reflexivity | exact HNmi
         | by eapply eval_mono; [| | exact Hone]; [lia | done]].
      rewrite Hm4 in Hm5. injection Hm5 as <-. split_and!; try done.
      etrans; [exact He |]. unfold tarval_add. f_equal.
      rewrite wrap_add_l, wrap_add_r by apply Hbits. done.
    - injection H5 as <- <-.
      split; [done |]. split; [done |]. split; [apply extends_refl |].
      rewrite Z.add_0_r.
      eapply eval_mono; [| apply extends_refl | exact HNmi]. lia. }
  pose proof (rho_below_extends _ _ _ Hext5 Hrho4) as Hrho5.
  pose proof (extends_trans _ _ _ Hext3 (extends_trans _ _ _ Hext4 Hext5))
    as Hext25.
  (* c_one and res *)
  destruct (new_r_Sub g5 sh c_abs' one_const) as [[g6 c_one] |] eqn:H6;
    [| done].
  eapply (new_r_binop_spec _ _ _ _ _ _ _ rho (6 + fuel)%nat) in H6
    as (m6 & Hm6 & Hm6' & Hwf6 & Hext6 & _ & Hcone);
    [| done | done | reflexivity
     | by eapply eval_mono; [| | exact Hca]; [lia | done]
     | by eapply eval_mono; [| | exact Hone];
         [lia | by eapply extends_trans]].
  rewrite (get_irn_mode_extends _ _ _ _ Hext25 Hmca) in Hm6.
  injection Hm6 as <-.
  pose proof (rho_below_extends _ _ _ Hext6 Hrho5) as Hrho6.
  destruct (new_r_Add g6 sh N_minus_i' c_one) as [[g7 res'] |] eqn:H7;
    [| done].
  eapply (new_r_binop_spec _ _ _ _ _ _ _ rho (7 + fuel)%nat) in H7
    as (m7 & Hm7 & Hm7' & Hwf7 & Hext7 & _ & Hres);
    [| done | done | reflexivity
     | by eapply eval_mono; [| | exact HNmi']; [lia | done]
     | exact Hcone].
  rewrite (get_irn_mode_extends _ _ _ _ Hext6 Hm5) in Hm7.
  injection Hm7 as <-.
  injection H as <- <- <-.
  pose proof (extends_trans _ _ _ Hext6 Hext7) as Hext57.
  exists less. split_and!; try done.
  - eapply is_less_extends; [| exact Hless].
    by eapply extends_trans; [| eapply extends_trans].
  - eapply extends_trans; [exact Hext03 |].
    eapply extends_trans; [exact Hext4 |].
    by eapply extends_trans.
  - eapply get_irn_mode_extends; [| exact Hmca].
    by eapply extends_trans.
  - etrans; [exact Hres |].
    unfold residue_value, tarval_add, tarval_sub. f_equal.
    fold bits. fold nonstrict.
    rewrite wrap_sub_l, wrap_sub_r, wrap_add_l, wrap_add_r by apply Hbits.
    done.
Qed.

(** *** The compare chain *)

Local Arguments new_r_Const_long : simpl never.
Local Arguments new_r_Block : simpl never.
Local Arguments new_r_Cmp : simpl never.
Local Arguments new_r_Cond : simpl never.
Local Arguments new_r_Proj : simpl never.
Local Arguments new_r_binop : simpl never.
Local Arguments new_r_Mul : simpl never.
Local Arguments set_irn_n : simpl never.
Local Arguments get_in_n_to_header : simpl never.

(** Every Cmp of [g'] with an index from [from] on compares [res] with its
    right operand under [>=]. *)
Definition compares_fed_by (res : irn) (from : nat) (g' : ir_graph) : Prop :=
  ∀ (k : irn) (nd : ir_node),
    (from ≤ k)%nat → get_node g' k = Some nd → irn_op nd = iro_Cmp →
    irn_in nd !! 0%nat = Some res
    ∧ irn_relation nd = ir_relation_greater_equal.

Lemma new_r_Proj_spec g pred mode num g' n :
  graph_wf g → new_r_Proj g pred mode num = Some (g', n) →
  ∃ nd, irn_op nd = iro_Proj ∧ graph_wf g' ∧ extends g g'
        ∧ n = irg_last_idx g ∧ irg_last_idx g' = S n
        ∧ get_node g' n = Some nd.
Proof.
  intros Hwf H. unfold new_r_Proj in H.
  destruct (get_block g pred) as [block |]; [| done].
  apply (inj Some) in H.
  apply add_node_spec in H as (? & ? & ? & ? & ?); [| done].
  eexists. split; [| split_and!; done]. done.
Qed.

Lemma new_r_binop_node op g block x y g' n :
  graph_wf g → new_r_binop op g block x y = Some (g', n) →
  ∃ nd, irn_op nd = op ∧ graph_wf g' ∧ extends g g'
        ∧ n = irg_last_idx g ∧ irg_last_idx g' = S n
        ∧ get_node g' n = Some nd.
Proof.
  intros Hwf H. unfold new_r_binop in H.
  destruct (get_irn_mode g x) as [mode |]; [| done].
  apply (inj Some) in H.
  apply add_node_spec in H as (? & ? & ? & ? & ?); [| done].
  eexists. split; [| split_and!; done]. done.
Qed.

Lemma build_compares_unfold n g sh factor res c_abs i prev_jmp to_block :
  build_compares (S n) g sh factor res c_abs i prev_jmp to_block =
    let? c_abs_mode := get_irn_mode g c_abs in
    let (g, const_i) :=
      new_r_Const_long g c_abs_mode (to_unsigned (factor - 1 - i)) in
    let? (g, c_times) := new_r_Mul g sh const_i c_abs in
    let (g, cmp_block) := new_r_Block g [prev_jmp] in
    let (g, cmp) :=
      new_r_Cmp g cmp_block res c_times ir_relation_greater_equal in
    let (g, cond) := new_r_Cond g cmp_block cmp in
    let? (g, proj_true) := new_r_Proj g cond mode_X pn_Cond_true in
    let? (g, proj_false) := new_r_Proj g cond mode_X pn_Cond_false in
    build_compares n g sh factor res c_abs (i + 1) proj_false
      (to_block ++ [proj_true]).
Proof. reflexivity. Qed.

Lemma build_compares_spec n :
  ∀ g sh factor res c_abs i prev_jmp to_block g' to_block' prev_jmp',
    graph_wf g →
    build_compares n g sh factor res c_abs i prev_jmp to_block
      = Some (g', to_block', prev_jmp') →
    graph_wf g' ∧ extends g g'
    ∧ length to_block' = (length to_block + n)%nat
    ∧ compares_fed_by res (irg_last_idx g) g'.
Proof.
  induction n as [| n IH];
    intros g sh factor res c_abs i prev_jmp to_block g' to_block' prev_jmp'
      Hwf H; [simpl in H | rewrite build_compares_unfold in H].
  { simplify_eq. split_and!; [done | apply extends_refl | lia |].
    intros k nd Hk Hn. unfold get_node in Hn. by rewrite Hwf in Hn. }
  destruct (get_irn_mode g c_abs) as [c_abs_mode |]; [| done].
  destruct (new_r_Const_long g c_abs_mode _) as [g1 const_i] eqn:H1.
  unfold new_r_Const_long in H1.
  apply add_node_spec in H1 as (Hwf1 & Hext1 & Hn1 & Hl1 & Hnd1); [| done].
  destruct (new_r_Mul g1 sh const_i c_abs) as [[g2 c_times] |] eqn:H2;
    [| done].
  apply new_r_binop_node in H2
    as (nd2 & Hop2 & Hwf2 & Hext2 & Hn2 & Hl2 & Hnd2); [| done].
  destruct (new_r_Block g2 [prev_jmp]) as [g3 cmp_block] eqn:H3.
  unfold new_r_Block in H3.
  apply add_node_spec in H3 as (Hwf3 & Hext3 & Hn3 & Hl3 & Hnd3); [| done].
  destruct (new_r_Cmp g3 cmp_block res c_times _) as [g4 cmp] eqn:H4.
  unfold new_r_Cmp in H4.
  apply add_node_spec in H4 as (Hwf4 & Hext4 & Hn4 & Hl4 & Hnd4); [| done].
  destruct (new_r_Cond g4 cmp_block cmp) as [g5 cond] eqn:H5.
  unfold new_r_Cond in H5.
  apply add_node_spec in H5 as (Hwf5 & Hext5 & Hn5 & Hl5 & Hnd5); [| done].
  destruct (new_r_Proj g5 cond mode_X pn_Cond_true) as [[g6 proj_true] |]
    eqn:H6; [| done].
  apply new_r_Proj_spec in H6
    as (nd6 & Hop6 & Hwf6 & Hext6 & Hn6 & Hl6 & Hnd6); [| done].
  destruct (new_r_Proj g6 cond mode_X pn_Cond_false) as [[g7 proj_false] |]
    eqn:H7; [| done].
  apply new_r_Proj_spec in H7
    as (nd7 & Hop7 & Hwf7 & Hext7 & Hn7 & Hl7 & Hnd7); [| done].
  apply IH in H as (Hwf' & Hext' & Hlen & Hfed); [| done].
  pose proof (extends_trans _ _ _ Hext7 Hext') as E7.
  pose proof (extends_trans _ _ _ Hext6 E7) as E6.
  pose proof (extends_trans _ _ _ Hext5 E6) as E5.
  pose proof (extends_trans _ _ _ Hext4 E5) as E4.
  pose proof (extends_trans _ _ _ Hext3 E4) as E3.
  pose proof (extends_trans _ _ _ Hext2 E3) as E2.
  pose proof (extends_trans _ _ _ Hext1 E2) as E1.
  split_and!; try done.
  - rewrite Hlen, length_app. simpl. lia.
  - intros k nd Hk Hnd Hop.
    destruct (decide (irg_last_idx g7 ≤ k)%nat) as [Hge | Hlt].
    { by eapply Hfed. }
    assert (Hcases : k = const_i ∨ k = c_times ∨ k = cmp_block ∨ k = cmp
                     ∨ k = cond ∨ k = proj_true ∨ k = proj_false) by lia.
    destruct Hcases as [-> | [-> | [-> | [-> | [-> | [-> | ->]]]]]].
    + rewrite (get_node_extends _ _ _ _ E2 Hnd1) in Hnd. by simplify_eq.
    + rewrite (get_node_extends _ _ _ _ E3 Hnd2) in Hnd.
      simplify_eq. congruence.
    + rewrite (get_node_extends _ _ _ _ E4 Hnd3) in Hnd. by simplify_eq.
    + rewrite (get_node_extends _ _ _ _ E5 Hnd4) in Hnd. by simplify_eq.
    + rewrite (get_node_extends _ _ _ _ E6 Hnd5) in Hnd. by simplify_eq.
    + rewrite (get_node_extends _ _ _ _ E7 Hnd6) in Hnd.
      simplify_eq. congruence.
    + rewrite (get_node_extends _ _ _ _ Hext' Hnd7) in Hnd.
      simplify_eq. congruence.
Qed.

(** *** Rewiring a block's inputs *)

(** [g'] is [g] with other inputs in some of its Blocks. *)
Definition rewired (g g' : ir_graph) : Prop :=
  irg_last_idx g' = irg_last_idx g
  ∧ ∀ k : irn,
      get_node g' k = get_node g k
      ∨ ∃ nd ins, get_node g k = Some nd ∧ irn_op nd = iro_Block
                  ∧ get_node g' k = Some (with_in nd ins).

Lemma rewired_refl g : rewired g g.
Proof. split; [done |]. intros k. by left. Qed.

Lemma rewired_trans g1 g2 g3 : rewired g1 g2 → rewired g2 g3 → rewired g1 g3.
Proof.
  intros [Hl1 H1] [Hl2 H2]. split; [congruence |]. intros k.
  destruct (H1 k) as [E1 | (nd & ins & Hn & Hop & Hn')];
    destruct (H2 k) as [E2 | (nd2 & ins2 & Hn2 & Hop2 & Hn2')].
  - left. congruence.
  - right. exists nd2, ins2. split_and!; congruence.
  - right. exists nd, ins. split_and!; congruence.
  - right. exists nd, ins2. rewrite Hn' in Hn2. simplify_eq.
    split_and!; try done.
Qed.

Lemma rewired_is_Block g g' n :
  rewired g g' → is_Block g n = true → is_Block g' n = true.
Proof.
  intros [_ H]. unfold is_Block, has_op.
  destruct (H n) as [-> | (nd & ins & -> & Hop & ->)]; [done |].
  simpl. by rewrite Hop.
Qed.

Lemma set_node_rewired g n nd ins :
  get_node g n = Some nd → is_Block g n = true →
  rewired g (set_node g n (with_in nd ins)).
Proof.
  intros Hn Hb. split; [done |]. intros k.
  unfold is_Block, has_op in Hb. rewrite Hn in Hb.
  apply bool_decide_eq_true in Hb.
  destruct (decide (k = n)) as [-> | Hne].
  - right. exists nd, ins. split_and!; try done.
    unfold get_node, set_node. simpl. apply lookup_insert_eq.
  - left. unfold get_node, set_node. simpl. by apply lookup_insert_ne.
Qed.

Lemma set_irn_in_rewired g n ins g' :
  is_Block g n = true → set_irn_in g n ins = Some g' → rewired g g'.
Proof.
  unfold set_irn_in. intros Hb H.
  destruct (get_node g n) as [nd |] eqn:Hn; [| done].
  simplify_eq. by apply set_node_rewired.
Qed.

Lemma set_irn_n_rewired g n pos pred g' :
  is_Block g n = true → set_irn_n g n pos pred = Some g' → rewired g g'.
Proof.
  unfold set_irn_n. intros Hb H.
  destruct (get_node g n) as [nd |] eqn:Hn; [| done].
  destruct (assert _); [| done].
  simplify_eq. by apply set_node_rewired.
Qed.

Lemma wire_targets_rewired targets :
  ∀ g header g',
    Forall (λ t, ∀ target, t.2 = Some target → is_Block g target = true)
      targets →
    wire_targets g header targets = Some g' → rewired g g'.
Proof.
  induction targets as [| [proj target] targets IH]; intros g header g' Hb H;
    simpl in H.
  { simplify_eq. apply rewired_refl. }
  destruct proj as [proj |]; [| done].
  destruct target as [target |]; [| done].
  destruct (get_in_n_to_header g target header) as [pos |]; [| done].
  destruct (set_irn_n g target pos proj) as [g1 |] eqn:H1; [| done].
  apply Forall_cons in Hb as [Hb1 Hb].
  apply set_irn_n_rewired in H1; [| by apply Hb1].
  eapply rewired_trans; [exact H1 |].
  eapply IH; [| exact H].
  eapply Forall_impl; [exact Hb |].
  intros t Ht target' Htarget. eapply rewired_is_Block; [exact H1 |].
  by apply Ht.
Qed.

Lemma eval_rewired fuel g g' rho n :
  rewired g g' → eval fuel g' rho n = eval fuel g rho n.
Proof.
  intros [_ H]. revert n. induction fuel as [| fuel IH]; intros n; simpl.
  { done. }
  destruct (rho !! n); [done |].
  destruct (H n) as [-> | (nd & ins & -> & Hop & ->)].
  - destruct (get_node g n) as [nd |]; [| done].
    destruct (irn_in nd) as [| a [| b [| ? ?]]]; try done.
    by rewrite !IH.
  - simpl. by rewrite Hop.
Qed.

Lemma compares_fed_by_rewired res from g g' :
  rewired g g' → compares_fed_by res from g → compares_fed_by res from g'.
Proof.
  intros [_ H] Hfed k nd Hk Hnd Hop.
  destruct (H k) as [E | (nd0 & ins & Hn0 & Hop0 & Hn')].
  - rewrite E in Hnd. by eapply Hfed.
  - rewrite Hn' in Hnd. simplify_eq. simpl in Hop. congruence.
Qed.

(** *** [create_fixup_switch_header] *)

Lemma is_Block_extends g g' n :
  extends g g' → is_Block g n = true → is_Block g' n = true.
Proof.
  intros Hext. unfold is_Block, has_op.
  destruct (get_node g n) as [nd |] eqn:Hn; [| done].
  by rewrite (get_node_extends _ _ _ _ Hext Hn).
Qed.

Lemma create_abs_wf g block node g' n :
  graph_wf g → create_abs g block node = Some (g', n) →
  graph_wf g' ∧ extends g g'.
Proof.
  intros Hwf H. unfold create_abs in H.
  destruct (get_irn_mode g node) as [mode |]; [| done].
  destruct (new_r_Const_long g mode_Iu _) as [g1 shift] eqn:H1.
  unfold new_r_Const_long in H1.
  apply add_node_spec in H1 as (Hwf1 & Hext1 & _); [| done].
  destruct (new_r_Shrs g1 block node shift) as [[g2 shrs] |] eqn:H2; [| done].
  apply new_r_binop_node in H2 as (_ & _ & Hwf2 & Hext2 & _); [| done].
  destruct (new_r_Eor g2 block shrs node) as [[g3 eor] |] eqn:H3; [| done].
  apply new_r_binop_node in H3 as (_ & _ & Hwf3 & Hext3 & _); [| done].
  apply new_r_binop_node in H as (_ & _ & Hwf4 & Hext4 & _); [| done].
  split; [done |].
  eapply extends_trans; [exact Hext1 |].
  eapply extends_trans; [exact Hext2 |]. by eapply extends_trans.
Qed.

Lemma build_residue_wf g sh info c_cpy N_cpy g' c_abs res :
  graph_wf g → build_residue g sh info c_cpy N_cpy = Some (g', c_abs, res) →
  graph_wf g' ∧ extends g g' ∧ irg_last_idx g' = S res.
Proof.
  intros Hwf H. unfold build_residue in H.
  destruct (create_abs g sh N_cpy) as [[g1 N_abs] |] eqn:H1; [| done].
  apply create_abs_wf in H1 as [Hwf1 Hext1]; [| done].
  destruct (create_abs g1 sh c_cpy) as [[g2 c_abs'] |] eqn:H2; [| done].
  apply create_abs_wf in H2 as [Hwf2 Hext2]; [| done].
  destruct (get_irn_mode g2 c_abs') as [c_abs_mode |]; [| done].
  destruct (new_r_Const_long g2 c_abs_mode 1) as [g3 one_const] eqn:H3.
  unfold new_r_Const_long in H3.
  apply add_node_spec in H3 as (Hwf3 & Hext3 & _); [| done].
  destruct (info_phi info) as [phi |]; [| done].
  destruct (is_less g3 info) as [less |]; [| done].
  destruct (if less then new_r_Sub g3 sh N_abs phi
            else new_r_Sub g3 sh phi N_abs) as [[g4 N_minus_i] |] eqn:H4;
    [| done].
  assert (graph_wf g4 ∧ extends g3 g4) as [Hwf4 Hext4].
  { destruct less;
      apply new_r_binop_node in H4 as (_ & _ & ? & ? & _); done. }
  set (nonstrict := bool_decide (info_rel info = ir_relation_less_equal)
                    || bool_decide (info_rel info = ir_relation_greater_equal))
    in *.
  destruct (if nonstrict then new_r_Add g4 sh N_minus_i one_const
            else Some (g4, N_minus_i)) as [[g5 N_minus_i'] |] eqn:H5;
    [| done].
  assert (graph_wf g5 ∧ extends g4 g5) as [Hwf5 Hext5].
  { destruct nonstrict.
    - apply new_r_binop_node in H5 as (_ & _ & ? & ? & _); done.
    - simplify_eq. split; [done | apply extends_refl]. }
  destruct (new_r_Sub g5 sh c_abs' one_const) as [[g6 c_one] |] eqn:H6;
    [| done].
  apply new_r_binop_node in H6 as (_ & _ & Hwf6 & Hext6 & _); [| done].
  destruct (new_r_Add g6 sh N_minus_i' c_one) as [[g7 res'] |] eqn:H7;
    [| done].
  apply new_r_binop_node in H7 as (_ & _ & Hwf7 & Hext7 & _ & Hlast & _);
    [| done].
  simplify_eq. split_and!; try done.
  eapply extends_trans; [exact Hext1 |].
  eapply extends_trans; [exact Hext2 |].
  eapply extends_trans; [exact Hext3 |].
  eapply extends_trans; [exact Hext4 |].
  eapply extends_trans; [exact Hext5 |]. by eapply extends_trans.
Qed.

Definition copy_preserves
    (copy_into_block : ir_graph → irn → irn → irn → option (ir_graph * irn))
    : Prop :=
  ∀ g node target_block phi_M g' n,
    graph_wf g → copy_into_block g node target_block phi_M = Some (g', n) →
    graph_wf g' ∧ extends g g'.

Section header_spec.
Context (A : analyses).
Context (copy_into_block :
           ir_graph → irn → irn → irn → option (ir_graph * irn)).
Context (Hcopy : copy_preserves copy_into_block).

Lemma copy_and_rewire_wf g node target_block phi_M g' n :
  graph_wf g →
  copy_and_rewire A copy_into_block g node target_block phi_M = Some (g', n) →
  graph_wf g' ∧ extends g g'.
Proof.
  intros Hwf H. unfold copy_and_rewire, exact_copy in H.
  destruct (is_irn_constlike g node).
  - destruct (get_node g node) as [nd |]; [| done].
    apply (inj Some) in H.
    by apply add_node_spec in H as (? & ? & _).
  - destruct (get_block g node) as [block |]; [| done].
    destruct (block_dominates A block target_block).
    + simplify_eq. split; [done | apply extends_refl].
    + by eapply Hcopy.
Qed.

Lemma copy_operands_wf g sh phi_M info g' c_cpy N_cpy :
  graph_wf g →
  copy_operands A copy_into_block g sh phi_M info = Some (g', c_cpy, N_cpy) →
  graph_wf g' ∧ extends g g'.
Proof.
  intros Hwf H. unfold copy_operands in H.
  destruct (info_incr info) as [c |]; [| done].
  destruct (if is_Phi g c then Some (g, c)
            else copy_and_rewire A copy_into_block g c sh phi_M)
    as [[g1 c_cpy'] |] eqn:H1; [| done].
  assert (graph_wf g1 ∧ extends g g1) as [Hwf1 Hext1].
  { destruct (is_Phi g c).
    - simplify_eq. split; [done | apply extends_refl].
    - by eapply copy_and_rewire_wf. }
  destruct (info_bound info) as [N |]; [| done].
  destruct (if is_Phi g1 N then Some (g1, N)
            else copy_and_rewire A copy_into_block g1 N sh phi_M)
    as [[g2 N_cpy'] |] eqn:H2; [| done].
  assert (graph_wf g2 ∧ extends g1 g2) as [Hwf2 Hext2].
  { destruct (is_Phi g1 N).
    - simplify_eq. split; [done | apply extends_refl].
    - by eapply copy_and_rewire_wf. }
  simplify_eq. split; [done | by eapply extends_trans].
Qed.

(** What [create_fixup_switch_header] builds: every compare created after
    [res] tests [res >= ...], and [res] evaluates to [residue_value]. *)
Lemma create_fixup_switch_header_spec g loop factor target_blocks after_loop
    info g' switch_header :
  graph_wf g →
  is_Block g after_loop = true →
  Forall (λ t, is_Block g t = true) target_blocks →
  create_fixup_switch_header A copy_into_block g loop factor target_blocks
    after_loop info = Some (g', switch_header) →
  ∃ header after_ins in0 phi_M g_c c_cpy N_cpy res phi,
    get_loop_header A g loop = Some (Some header)
    ∧ get_irn_in g after_loop = Some after_ins
    ∧ find_pred_in_block g header after_ins = Some in0
    ∧ get_phi_M (new_r_Block g [in0]).1 header = Some (Some phi_M)
    ∧ copy_operands A copy_into_block (new_r_Block g [in0]).1 switch_header
        phi_M info = Some (g_c, c_cpy, N_cpy)
    ∧ info_phi info = Some phi
    ∧ graph_wf g_c ∧ extends g g_c
    ∧ compares_fed_by res (S res) g'
    ∧ ∀ rho fuel mode less vN vi vc,
        rho_below g_c rho → is_less g info = Some less →
        get_irn_mode g_c N_cpy = Some mode →
        get_irn_mode g_c c_cpy = Some mode →
        get_irn_mode g_c phi = Some mode → mode_is_int mode = true →
        eval fuel g_c rho N_cpy = Some vN →
        eval fuel g_c rho c_cpy = Some vc →
        eval fuel g_c rho phi = Some vi →
        eval (8 + fuel) g' rho res
        = Some (residue_value mode less (info_rel info) vN vi vc).
Proof.
  intros Hwf Hal Htb H. unfold create_fixup_switch_header in H.
  destruct (get_loop_header A g loop) as [header |] eqn:Hheader; [| done].
  destruct (get_irn_in g after_loop) as [after_ins |] eqn:Hafter; [| done].
  destruct header as [header |]; [| done].
  destruct (find_pred_in_block g header after_ins) as [in0 |] eqn:Hin0;
    [| done].
  destruct (new_r_Block g [in0]) as [g_sh sh] eqn:Hsh.
  pose proof Hsh as Hsh'. unfold new_r_Block in Hsh'.
  apply add_node_spec in Hsh' as (Hwf_sh & Hext_sh & _); [| done].
  destruct (get_phi_M g_sh header) as [[phi_M |] |] eqn:HphiM;
    [| done | done].
  destruct (copy_operands A copy_into_block g_sh sh phi_M info)
    as [[[g_c c_cpy] N_cpy] |] eqn:Hc; [| done].
  pose proof (copy_operands_wf _ _ _ _ _ _ _ Hwf_sh Hc) as [Hwf_c Hext_c].
  destruct (build_residue g_c sh info c_cpy N_cpy)
    as [[[g_r c_abs] res] |] eqn:Hr; [| done].
  pose proof (build_residue_wf _ _ _ _ _ _ _ _ Hwf_c Hr)
    as (Hwf_r & Hext_r & Hlast_r).
  destruct (new_r_Jmp g_r sh) as [g_j prev_jmp] eqn:Hj.
  unfold new_r_Jmp in Hj.
  apply add_node_spec in Hj as (Hwf_j & Hext_j & Hnj & Hlj & Hndj); [| done].
  destruct (build_compares _ g_j sh factor res c_abs 0 prev_jmp [])
    as [[[g_k to_block] prev_jmp'] |] eqn:Hk; [| done].
  apply build_compares_spec in Hk as (Hwf_k & Hext_k & _ & Hfed); [| done].
  pose proof (extends_trans _ _ _ Hext_sh Hext_c) as Hext_0c.
  assert (Hext_0k : extends g g_k).
  { eapply extends_trans; [exact Hext_0c |].
    eapply extends_trans; [exact Hext_r |]. by eapply extends_trans. }
  destruct (to_block !! 0%nat) as [to_block_0 |]; [| done].
  destruct (target_blocks !! 0%nat) as [target_0 |] eqn:Ht0; [| done].
  destruct (set_irn_in g_k target_0 [to_block_0]) as [g_w1 |] eqn:Hw1;
    [| done].
  assert (Hblock : ∀ t, t ∈ target_blocks → is_Block g_k t = true).
  { intros t Ht. eapply is_Block_extends; [exact Hext_0k |].
    by eapply Forall_forall in Htb. }
  apply set_irn_in_rewired in Hw1;
    [| apply Hblock; by eapply list_elem_of_lookup_2].
  destruct (wire_targets g_w1 header _) as [g_w2 |] eqn:Hw2; [| done].
  apply wire_targets_rewired in Hw2.
  2: { apply Forall_fmap, Forall_forall. intros i _ target Htarget.
       simpl in Htarget. eapply rewired_is_Block; [exact Hw1 |].
       apply Hblock. by eapply list_elem_of_lookup_2. }
  destruct (get_in_n_to_header g_w2 after_loop header) as [pos |]; [| done].
  destruct (set_irn_n g_w2 after_loop pos prev_jmp') as [g_w3 |] eqn:Hw3;
    [| done].
  apply set_irn_n_rewired in Hw3.
  2: { eapply rewired_is_Block; [exact Hw2 |].
       eapply rewired_is_Block; [exact Hw1 |].
       by eapply is_Block_extends. }
  simplify_eq.
  assert (Hrew : rewired g_k g').
  { eapply rewired_trans; [exact Hw1 |]. by eapply rewired_trans. }
  exists header, after_ins, in0, phi_M, g_c, c_cpy, N_cpy, res.
  assert (∃ phi, info_phi info = Some phi) as [phi Hphi].
  { unfold build_residue in Hr. repeat case_match; simplify_eq; eauto. }
  exists phi. rewrite Hsh. simpl fst. split_and!; try done.
  - eapply compares_fed_by_rewired; [exact Hrew |].
    intros k nd Hk Hnd Hop.
    destruct (decide (k = irg_last_idx g_r)) as [-> | Hne].
    + rewrite (get_node_extends _ _ _ _ Hext_k Hndj) in Hnd. by simplify_eq.
    + eapply Hfed; [| done ..]. lia.
  - intros rho fuel mode less vN vi vc Hrho Hless HmN Hmc Hmphi Hint
      HeN Hec Hei.
    rewrite (eval_rewired _ _ _ _ _ Hrew).
    eapply build_residue_spec in Hr as (less' & Hless' & _ & _ & _ & Hres);
      [| done ..].
    assert (less' = less) as ->.
    { eapply is_less_extends in Hless;
        [| eapply extends_trans; [exact Hext_0c | exact Hext_r]].
      congruence. }
    eapply eval_mono; [| | exact Hres]; [lia |].
    by eapply extends_trans.
Qed.
End header_spec.

(** The residue as the specification states it. *)
Definition claimed_residue (mode : ir_mode) (N i c : Z) : Z :=
  wrap mode (Z.abs (N - i) + (Z.abs c - 1)).

Definition is_nonstrict (rel : ir_relation) : bool :=
  bool_decide (rel = ir_relation_less_equal)
  || bool_decide (rel = ir_relation_greater_equal).

(** C4 (amended): in the wrap-around arithmetic of the induction
    variable's integer mode, for a bound [N >= 0] that the induction value
    [i] has not passed ([i <= N] when the loop counts up to the bound,
    [N <= i] when it counts down), the value [res] that every landing-pad
    compare tests is [|N - i| + (|c| - 1)] for the relations [<] and [>],
    and [|N - i| + 1 + (|c| - 1)] for [<=] and [>=]. [N], [i] and [c] are
    the signed readings of the values of the copied bound, the Phi and
    the copied step. *)
Theorem switch_fixup_residue
    (A : analyses)
    (copy_into_block : ir_graph → irn → irn → irn → option (ir_graph * irn))
    (g : ir_graph) (loop : loop_id) (factor : Z) (target_blocks : list irn)
    (after_loop : irn) (info : linear_unroll_info) (g' : ir_graph)
    (switch_header : irn) :
  graph_wf g → copy_preserves copy_into_block →
  is_Block g after_loop = true →
  Forall (λ t, is_Block g t = true) target_blocks →
  create_fixup_switch_header A copy_into_block g loop factor target_blocks
    after_loop info = Some (g', switch_header) →
  ∃ header after_ins in0 phi_M g_c c_cpy N_cpy res phi,
    get_loop_header A g loop = Some (Some header)
    ∧ get_irn_in g after_loop = Some after_ins
    ∧ find_pred_in_block g header after_ins = Some in0
    ∧ get_phi_M (new_r_Block g [in0]).1 header = Some (Some phi_M)
    ∧ copy_operands A copy_into_block (new_r_Block g [in0]).1 switch_header
        phi_M info = Some (g_c, c_cpy, N_cpy)
    ∧ info_phi info = Some phi
    ∧ compares_fed_by res (S res) g'
    ∧ ∀ rho fuel mode less vN vi vc,
        rho_below g_c rho → is_less g info = Some less →
        get_irn_mode g_c N_cpy = Some mode →
        get_irn_mode g_c c_cpy = Some mode →
        get_irn_mode g_c phi = Some mode → mode_is_int mode = true →
        eval fuel g_c rho N_cpy = Some vN →
        eval fuel g_c rho c_cpy = Some vc →
        eval fuel g_c rho phi = Some vi →
        let N := to_signed (get_mode_size_bits mode) vN in
        let i := to_signed (get_mode_size_bits mode) vi in
        let c := to_signed (get_mode_size_bits mode) vc in
        0 <= N → (if less then i <= N else N <= i) →
        eval (8 + fuel) g' rho res
        = Some (wrap mode
                  (Z.abs (N - i)
                   + (if is_nonstrict (info_rel info) then 1 else 0)
                   + (Z.abs c - 1))).
Proof.
  intros Hwf Hcopy Hal Htb H.
  destruct (create_fixup_switch_header_spec A copy_into_block Hcopy _ _ _ _ _
              _ _ _ Hwf Hal Htb H)
    as (header & after_ins & in0 & phi_M & g_c & c_cpy & N_cpy & res & phi
        & Hheader & Hafter & Hin0 & HphiM & Hc & Hphi & _ & _ & Hfed & Hval).
  exists header, after_ins, in0, phi_M, g_c, c_cpy, N_cpy, res, phi.
  split_and!; try done.
  intros rho fuel mode less vN vi vc Hrho Hless HmN Hmc Hmphi Hint HeN Hec Hei
    N i c HN Hdir.
  rewrite (Hval rho fuel mode less vN vi vc) by done.
  f_equal. unfold residue_value. fold N c.
  pose proof (mode_is_int_bits _ Hint) as [Hbits _].
  apply wrap_congr. unfold is_nonstrict.
  set (s := if _ || _ then 1 else 0).
  assert (Hi : vi mod 2 ^ get_mode_size_bits mode
               = i mod 2 ^ get_mode_size_bits mode).
  { unfold i. by rewrite to_signed_mod. }
  rewrite (Z.abs_eq N) by done.
  destruct less.
  - rewrite (Z.abs_eq (N - i)) by lia.
    rewrite <- !Z.add_assoc, (Zplus_mod (N - vi)), (Zplus_mod (N - i)).
    by rewrite (Zminus_mod N vi), (Zminus_mod N i), Hi.
  - rewrite (Z.abs_neq (N - i)) by lia.
    replace (- (N - i)) with (i - N) by lia.
    rewrite <- !Z.add_assoc, (Zplus_mod (vi - N)), (Zplus_mod (i - N)).
    by rewrite (Zminus_mod vi N), (Zminus_mod i N), Hi.
Qed.


(** The unroll info the recognizer leaves for [Example.irg_add]. *)
Definition info_add : linear_unroll_info :=
  mk_linear_unroll_info ADD (Some 1%nat) (Some [5%nat]) (Some 12%nat)
    ir_relation_less_equal (Some 7%nat) (Some 11%nat) (Some 6%nat) None.

Lemma info_add_recognized :
  determine_lin_unroll_info Example.ana Example.irg_add [] Example.info0 1
  = Some (duff_unrollable_all, info_add, []).
Proof. by vm_compute. Qed.

(** For [for (i = a + b; i <= 100; i += 2)] entered with [i = 0] the
    compare of the switch fix-up tests the value 102, where the formula
    [|N - i| + (|c| - 1)] gives 101. *)
Lemma switch_fixup_residue_counterexample :
  ∃ g' switch_header res,
    create_fixup_switch_header Example.ana (λ _ _ _ _, None) Example.irg_add 1
      2 [30%nat] 20%nat info_add = Some (g', switch_header)
    ∧ is_Cmp g' 60 = true ∧ get_Cmp_left g' 60 = Some res
    ∧ eval 9 g' {[11%nat := 0]} 42 = Some 100    (* N_cpy *)
    ∧ eval 9 g' {[11%nat := 0]} 41 = Some 2      (* c_cpy *)
    ∧ eval 9 g' {[11%nat := 0]} res = Some 102
    ∧ claimed_residue mode_Is 100 0 2 = 101
    ∧ eval 9 g' {[11%nat := 0]} res
      ≠ Some (claimed_residue mode_Is 100 0 2).
Proof.
  eexists _, _, 55%nat. split; [by vm_compute |].
  split_and!; by vm_compute.
Qed.


Lemma irg_add_wf : graph_wf Example.irg_add.
Proof.
  intros n Hn. 
  change (irg_last_idx Example.irg_add) with 40%nat in Hn.
  unfold Example.irg_add, Example.irg_of, Example.nodes, irg_nodes.
  unfold list_to_map. cbn [foldr uncurry fst snd curry].
  repeat (rewrite lookup_insert_ne by lia). apply lookup_empty.
Qed.

Lemma switch_fixup_residue_witness :
  match
    create_fixup_switch_header Example.ana (λ _ _ _ _, None) Example.irg_add 1
      2 [30%nat] 20%nat info_add
  with
  | Some (g', switch_header) =>
      ∃ res,
        compares_fed_by res (S res) g'
        ∧ eval 9 g' {[11%nat := 0]} res = Some 102
  | None => False
  end.
Proof.
  destruct (create_fixup_switch_header _ _ _ _ _ _ _ _)
    as [[g' switch_header] |] eqn:H; [| by vm_compute in H].
  destruct (switch_fixup_residue Example.ana (λ _ _ _ _, None)
              Example.irg_add 1 2 [30%nat] 20%nat info_add g' switch_header)
    as (header & after_ins & in0 & phi_M & g_c & c_cpy & N_cpy & res & phi
        & Hheader & Hafter & Hin0 & HphiM & Hc & Hphi & Hfed & Hval).
  - exact irg_add_wf.
  - intros ? ? ? ? ? ? _ H'. discriminate H'.
  - by vm_compute.
  - repeat constructor.
  - exact H.
  - vm_compute in Hheader. injection Hheader as <-.
    vm_compute in Hafter. injection Hafter as <-.
    vm_compute in Hin0. injection Hin0 as <-.
    vm_compute in HphiM. injection HphiM as <-.
    assert (switch_header = 40%nat) as ->.
    { vm_compute in H. by injection H as _ <-. }
    vm_compute in Hc. injection Hc as <- <- <-.
    injection Hphi as <-.
    exists res. split; [exact Hfed |].
    refine (Hval {[11%nat := 0]} 1%nat mode_Is true 100 0 2 _ _ _ _ _ _ _ _ _
              _ _).
    + intros n Hn. change (43 ≤ n)%nat in Hn. apply lookup_singleton_ne. lia.
    + by vm_compute.
    + by vm_compute.
    + by vm_compute.
    + by vm_compute.
    + reflexivity.
    + by vm_compute.
    + by vm_compute.
    + by vm_compute.
    + by vm_compute.
    + by vm_compute.
Defined.

End LoopUnrolling.

(** ** The graph as the back end sees it

    After code selection the nodes carry target opcodes, assigned registers
    and a schedule.  [besched] keeps the schedule of a block as a list
    threaded through the nodes; here it is the list of the block's nodes
    from first to last, next to the time step of every node.  The out edges
    are the ones [iredges] maintains while nodes are rewired: they are read
    off the inputs. *)

Module Be.

Definition irn := Firm.irn.
Definition ir_entity := Firm.ir_entity.
Bind Scope nat_scope with irn ir_entity.

Inductive opcode : Set :=
  | iro_Block | iro_Start | iro_End | iro_Phi | iro_Proj | iro_Jmp
  | iro_Return | iro_NoMem | iro_Bad | iro_Dummy | iro_Deleted
  | beo_Asm | beo_Copy | beo_CopyKeep | beo_IncSP | beo_Keep | beo_MemPerm
  | beo_Perm
  | iro_ia32_Add | iro_ia32_Adc | iro_ia32_Sub | iro_ia32_Sbb | iro_ia32_Neg
  | iro_ia32_Not | iro_ia32_Cmc | iro_ia32_Stc | iro_ia32_xAdd | iro_ia32_xSub
  | iro_ia32_xXor | iro_ia32_Lea | iro_ia32_Minus64 | iro_ia32_ShlD
  | iro_ia32_ShrD | iro_ia32_Immediate | iro_ia32_NoReg_GP
  | iro_ia32_NoReg_XMM | iro_ia32_Jcc | iro_ia32_Setcc | iro_ia32_Load
  | iro_ia32_Return
  | iro_mips_addiu | iro_mips_lw | iro_mips_sw | iro_mips_ret.

Global Instance opcode_eq_dec : EqDecision opcode.
Proof. solve_decision. Defined.

Definition is_ia32_op (o : opcode) : bool :=
  match o with
  | iro_ia32_Add | iro_ia32_Adc | iro_ia32_Sub | iro_ia32_Sbb | iro_ia32_Neg
  | iro_ia32_Not | iro_ia32_Cmc | iro_ia32_Stc | iro_ia32_xAdd | iro_ia32_xSub
  | iro_ia32_xXor | iro_ia32_Lea | iro_ia32_Minus64 | iro_ia32_ShlD
  | iro_ia32_ShrD | iro_ia32_Immediate | iro_ia32_NoReg_GP
  | iro_ia32_NoReg_XMM | iro_ia32_Jcc | iro_ia32_Setcc | iro_ia32_Load
  | iro_ia32_Return => true
  | _ => false
  end.

(** The modes of the middle end and the ones ia32 registers. *)
Inductive mode : Set :=
  | firm_mode (m : Firm.ir_mode)
  | ia32_mode_gp | ia32_mode_flags | ia32_mode_float32 | ia32_mode_float64.

Global Instance mode_eq_dec : EqDecision mode.
Proof. solve_decision. Defined.

Definition mode_T : mode := firm_mode Firm.mode_T.
Definition mode_M : mode := firm_mode Firm.mode_M.
Definition mode_X : mode := firm_mode Firm.mode_X.
Definition mode_BB : mode := firm_mode Firm.mode_BB.
Definition mode_ANY : mode := firm_mode Firm.mode_ANY.

Definition get_mode_size_bits (m : mode) : Z :=
  match m with
  | firm_mode m => Firm.get_mode_size_bits m
  | ia32_mode_gp | ia32_mode_float32 => 32
  | ia32_mode_float64 => 64
  | ia32_mode_flags => 5
  end.

(** [arch_register_class_t], [arch_register_t], [arch_register_req_t]:
    the fields the code below reads. *)
Record arch_register_class : Set := mk_arch_register_class {
  cls_index : nat;
  cls_n_regs : Z;
  cls_has_regs : bool                  (* cls->regs != NULL *)
}.

Record arch_register : Set := mk_arch_register {
  reg_global_index : nat;
  reg_index : nat;
  reg_is_virtual : bool
}.

Record arch_register_req : Set := mk_arch_register_req {
  req_cls : arch_register_class;
  req_width : Z;
  req_same_as : nat;
  req_same_as_next : bool
}.

Global Instance arch_register_class_eq_dec : EqDecision arch_register_class.
Proof. solve_decision. Defined.
Global Instance arch_register_eq_dec : EqDecision arch_register.
Proof. solve_decision. Defined.

(** The ia32 attributes of a node. *)
Inductive ia32_op_type_t : Set := ia32_Normal | ia32_AddrModeD | ia32_AddrModeS.
Inductive ia32_am_type_t : Set := ia32_am_none | ia32_am_unary | ia32_am_binary.

Global Instance ia32_op_type_eq_dec : EqDecision ia32_op_type_t.
Proof. solve_decision. Defined.
Global Instance ia32_am_type_eq_dec : EqDecision ia32_am_type_t.
Proof. solve_decision. Defined.

Record ia32_attr_t : Set := mk_ia32_attr {
  attr_op_type : ia32_op_type_t;
  attr_am_support : ia32_am_type_t;
  attr_ls_mode : option mode;
  attr_am_ent : option ir_entity;
  attr_is_commutative : bool;
  attr_condcode : Z;                   (* x86_condition_code_t *)
  attr_imm_offset : Z                  (* ia32_immediate_attr_t.imm.offset *)
}.

Definition ia32_attr_default : ia32_attr_t :=
  mk_ia32_attr ia32_Normal ia32_am_none None None false 0 0.

Record be_node : Type := mk_be_node {
  n_op : opcode;
  n_mode : mode;
  n_block : irn;                       (* input -1 *)
  n_in : list irn;
  n_proj_num : nat;                    (* Proj *)
  n_not_scheduled : bool;              (* arch_irn_flag_not_scheduled *)
  n_out_regs : gmap nat arch_register; (* out_infos[pos].reg, when set *)
  n_offset : Z;                        (* be_IncSP: offset *)
  n_align : Z;                         (* be_IncSP: alignment *)
  n_ia32 : ia32_attr_t
}.

Record be_graph : Type := mk_be_graph {
  irg_nodes : gmap irn be_node;
  irg_sched : gmap irn (list irn);     (* the schedule of every block *)
  irg_time_step : gmap irn Z;          (* sched_info_t.time_step *)
  irg_last_idx : nat;                  (* the index the next new node gets *)
  irg_start : irn;
  irg_end_block : irn;
  irg_no_mem : irn;
  irg_frame_size : Z;                  (* get_type_size(get_irg_frame_type) *)
  irg_noreg_gp : irn;                  (* ia32_irg_data_t.noreg_gp *)
  irg_noreg_xmm : irn                  (* ia32_irg_data_t.noreg_xmm *)
}.

Definition with_nodes (g : be_graph) (nodes : gmap irn be_node) : be_graph :=
  mk_be_graph nodes (irg_sched g) (irg_time_step g) (irg_last_idx g)
    (irg_start g) (irg_end_block g) (irg_no_mem g) (irg_frame_size g)
    (irg_noreg_gp g) (irg_noreg_xmm g).

Definition with_sched (g : be_graph) (sched : gmap irn (list irn))
    : be_graph :=
  mk_be_graph (irg_nodes g) sched (irg_time_step g) (irg_last_idx g)
    (irg_start g) (irg_end_block g) (irg_no_mem g) (irg_frame_size g)
    (irg_noreg_gp g) (irg_noreg_xmm g).

Definition with_last_idx (g : be_graph) (idx : nat) : be_graph :=
  mk_be_graph (irg_nodes g) (irg_sched g) (irg_time_step g) idx
    (irg_start g) (irg_end_block g) (irg_no_mem g) (irg_frame_size g)
    (irg_noreg_gp g) (irg_noreg_xmm g).

Section accessors.
Context (g : be_graph).

Definition get_node (n : irn) : option be_node := irg_nodes g !! n.

Definition has_op (o : opcode) (n : irn) : bool :=
  match get_node n with
  | Some nd => bool_decide (n_op nd = o)
  | None => false
  end.

Definition is_Block := has_op iro_Block.
Definition is_Phi := has_op iro_Phi.
Definition is_Proj := has_op iro_Proj.
Definition is_Bad := has_op iro_Bad.
Definition be_is_Keep := has_op beo_Keep.
Definition be_is_CopyKeep := has_op beo_CopyKeep.
Definition be_is_Asm := has_op beo_Asm.

Definition get_irn_mode (n : irn) : option mode := n_mode <$> get_node n.
Definition get_irn_in (n : irn) : option (list irn) := n_in <$> get_node n.
Definition get_irn_n (n : irn) (i : nat) : option irn :=
  ins ← get_irn_in n; ins !! i.

(** [get_nodes_block] asserts that the node is not a Block. *)
Definition get_nodes_block (n : irn) : option irn :=
  nd ← get_node n;
  if bool_decide (n_op nd = iro_Block) then None else Some (n_block nd).

Definition get_Proj_pred (n : irn) : option irn := get_irn_n n 0.
Definition get_Proj_num (n : irn) : option nat := n_proj_num <$> get_node n.

Definition skip_Proj (n : irn) : option irn :=
  if is_Proj n then get_Proj_pred n else Some n.

(** The uses of [n]: the pairs of a user and the position of the input,
    [-1] for the block input, in the order of the users' indices.  A
    deleted node uses nothing. *)
Definition uses_of (n : irn) (user : irn) (nd : be_node) : list (irn * Z) :=
  if bool_decide (n_op nd = iro_Deleted) then []
  else
    (if bool_decide (n_op nd ≠ iro_Block ∧ n_block nd = n)
     then [(user, -1)] else [])
    ++ omap (λ '(i, a), if bool_decide (a = n)
                        then Some (user, Z.of_nat i) else None)
            (imap (λ i a, (i, a)) (n_in nd)).

Definition out_edges (n : irn) : list (irn * Z) :=
  flat_map (λ user, match get_node user with
                    | Some nd => uses_of n user nd
                    | None => []
                    end)
    (seq 0 (irg_last_idx g)).

Definition get_irn_n_edges (n : irn) : nat := length (out_edges n).

(** [get_Proj_for_pn]: the Proj of [n] with the given number, if any. *)
Definition get_Proj_for_pn (n : irn) (pn : nat) : option irn :=
  fst <$> head (filter (λ '(user, _),
                          is_Proj user = true ∧ get_Proj_num user = Some pn)
                  (out_edges n)).

(** Registers: the out info of a Proj is kept at its predecessor. *)
Definition arch_get_irn_register_out (n : irn) (pos : nat)
    : option (option arch_register) :=
  nd ← get_node n; Some (n_out_regs nd !! pos).

Definition arch_get_irn_register (n : irn) : option (option arch_register) :=
  nd ← get_node n;
  if bool_decide (n_mode nd = mode_T) then None
  else if bool_decide (n_op nd = iro_Proj)
       then pred ← n_in nd !! 0%nat;
            arch_get_irn_register_out pred (n_proj_num nd)
       else Some (n_out_regs nd !! 0%nat).

Definition arch_get_irn_register_in (n : irn) (pos : nat)
    : option (option arch_register) :=
  a ← get_irn_n n pos; arch_get_irn_register a.

(** The schedule. *)
Definition sched_nodes (block : irn) : list irn :=
  default [] (irg_sched g !! block).

Definition sched_get_time_step (n : irn) : Z :=
  default 0 (irg_time_step g !! n).

Definition sched_is_scheduled (n : irn) : bool :=
  existsb (λ bl : irn * list irn, bool_decide (n ∈ bl.2))
    (map_to_list (irg_sched g)).

End accessors.

(** *** Changing the graph *)

Definition set_node (g : be_graph) (n : irn) (nd : be_node) : be_graph :=
  with_nodes g (<[n := nd]> (irg_nodes g)).

(** A new node gets the next free index. *)
Definition add_node (g : be_graph) (nd : be_node) : be_graph * irn :=
  let n := irg_last_idx g in
  (with_last_idx (set_node g n nd) (S n), n).

Definition with_in (nd : be_node) (ins : list irn) : be_node :=
  mk_be_node (n_op nd) (n_mode nd) (n_block nd) ins (n_proj_num nd)
    (n_not_scheduled nd) (n_out_regs nd) (n_offset nd) (n_align nd)
    (n_ia32 nd).

Definition with_block (nd : be_node) (block : irn) : be_node :=
  mk_be_node (n_op nd) (n_mode nd) block (n_in nd) (n_proj_num nd)
    (n_not_scheduled nd) (n_out_regs nd) (n_offset nd) (n_align nd)
    (n_ia32 nd).

Definition with_mode (nd : be_node) (m : mode) : be_node :=
  mk_be_node (n_op nd) m (n_block nd) (n_in nd) (n_proj_num nd)
    (n_not_scheduled nd) (n_out_regs nd) (n_offset nd) (n_align nd)
    (n_ia32 nd).

Definition with_op (nd : be_node) (o : opcode) : be_node :=
  mk_be_node o (n_mode nd) (n_block nd) (n_in nd) (n_proj_num nd)
    (n_not_scheduled nd) (n_out_regs nd) (n_offset nd) (n_align nd)
    (n_ia32 nd).

Definition with_out_regs (nd : be_node) (regs : gmap nat arch_register)
    : be_node :=
  mk_be_node (n_op nd) (n_mode nd) (n_block nd) (n_in nd) (n_proj_num nd)
    (n_not_scheduled nd) regs (n_offset nd) (n_align nd) (n_ia32 nd).

Definition with_ia32 (nd : be_node) (a : ia32_attr_t) : be_node :=
  mk_be_node (n_op nd) (n_mode nd) (n_block nd) (n_in nd) (n_proj_num nd)
    (n_not_scheduled nd) (n_out_regs nd) (n_offset nd) (n_align nd) a.

Definition set_irn_n (g : be_graph) (n : irn) (i : nat) (a : irn)
    : option be_graph :=
  nd ← get_node g n;
  if bool_decide (i < length (n_in nd))%nat
  then Some (set_node g n (with_in nd (<[i := a]> (n_in nd))))
  else None.

Definition set_irn_mode (g : be_graph) (n : irn) (m : mode)
    : option be_graph :=
  nd ← get_node g n; Some (set_node g n (with_mode nd m)).

Definition arch_set_irn_register_out (g : be_graph) (n : irn) (pos : nat)
    (reg : arch_register) : option be_graph :=
  nd ← get_node g n;
  Some (set_node g n (with_out_regs nd (<[pos := reg]> (n_out_regs nd)))).

Definition arch_set_irn_register (g : be_graph) (n : irn)
    (reg : arch_register) : option be_graph :=
  nd ← get_node g n;
  if bool_decide (n_mode nd = mode_T) then None
  else if bool_decide (n_op nd = iro_Proj)
       then pred ← n_in nd !! 0%nat;
            arch_set_irn_register_out g pred (n_proj_num nd) reg
       else arch_set_irn_register_out g n 0 reg.

(** [edges_reroute_except (from, to, exception)]: every use of [from],
    apart from the ones by [exception], becomes a use of [to_]. *)
Definition reroute_node (from to_ : irn) (nd : be_node) : be_node :=
  if bool_decide (n_op nd = iro_Deleted) then nd
  else
    mk_be_node (n_op nd) (n_mode nd)
      (if bool_decide (n_op nd ≠ iro_Block ∧ n_block nd = from)
       then to_ else n_block nd)
      ((λ a, if bool_decide (a = from) then to_ else a) <$> n_in nd)
      (n_proj_num nd) (n_not_scheduled nd) (n_out_regs nd) (n_offset nd)
      (n_align nd) (n_ia32 nd).

Definition edges_reroute_except (g : be_graph) (from to_ : irn)
    (exception : option irn) : be_graph :=
  with_nodes g
    (map_imap (λ user nd, Some (if bool_decide (Some user = exception)
                                then nd else reroute_node from to_ nd))
       (irg_nodes g)).

Definition edges_reroute (g : be_graph) (from to_ : irn) : be_graph :=
  edges_reroute_except g from to_ None.

(** [exchange (old, nw)]: the users of [old] use [nw]; [old] is turned
    into a Deleted node, which uses nothing. *)
Definition exchange (g : be_graph) (old nw : irn) : option be_graph :=
  if bool_decide (old = nw) then None
  else
    let g := edges_reroute g old nw in
    nd ← get_node g old;
    Some (set_node g old (with_op nd iro_Deleted)).

(** [sched_add_before (before, n)], [sched_add_after (after, n)] and
    [sched_replace (old, nw)] act on the schedule of the block of the node
    named first, which has to be scheduled there; the new node must not be
    scheduled, and neither may be a Proj. *)
Fixpoint insert_before (before n : irn) (l : list irn) : option (list irn) :=
  match l with
  | [] => None
  | x :: l =>
      if bool_decide (x = before) then Some (n :: x :: l)
      else (x ::.) <$> insert_before before n l
  end.

Fixpoint insert_after (after n : irn) (l : list irn) : option (list irn) :=
  match l with
  | [] => None
  | x :: l =>
      if bool_decide (x = after) then Some (x :: n :: l)
      else (x ::.) <$> insert_after after n l
  end.

Fixpoint replace_in (old nw : irn) (l : list irn) : option (list irn) :=
  match l with
  | [] => None
  | x :: l =>
      if bool_decide (x = old) then Some (nw :: l)
      else (x ::.) <$> replace_in old nw l
  end.

Definition sched_update (f : irn → irn → list irn → option (list irn))
    (g : be_graph) (at_ n : irn) : option be_graph :=
  if is_Proj g at_ || is_Proj g n || sched_is_scheduled g n then None
  else
    block ← get_nodes_block g at_;
    l ← f at_ n (sched_nodes g block);
    Some (with_sched g (<[block := l]> (irg_sched g))).

Definition sched_add_before := sched_update insert_before.
Definition sched_add_after := sched_update insert_after.
Definition sched_replace := sched_update replace_in.

(** *** Facts about the graph operations *)

(** Node indices and scheduled nodes lie below [irg_last_idx]. *)
Definition be_graph_wf (g : be_graph) : Prop :=
  (∀ u nd, irg_nodes g !! u = Some nd → (u < irg_last_idx g)%nat)
  ∧ (∀ b l n, irg_sched g !! b = Some l → n ∈ l → (n < irg_last_idx g)%nat).

(** [x] is scheduled right before [y]. *)
Definition adjacent (x y : irn) (l : list irn) : Prop :=
  ∃ pre post, l = pre ++ x :: y :: post.

Lemma sched_is_scheduled_spec g n :
  sched_is_scheduled g n = true ↔ ∃ b l, irg_sched g !! b = Some l ∧ n ∈ l.
Proof.
  unfold sched_is_scheduled. rewrite existsb_exists. split.
  - intros [[b l] [Hin%list_elem_of_In%elem_of_map_to_list
                   Hn%bool_decide_eq_true]]. by exists b, l.
  - intros (b & l & Hl & Hn). exists (b, l). split.
    + by apply list_elem_of_In, elem_of_map_to_list.
    + by apply bool_decide_eq_true_2.
Qed.

Lemma sched_is_scheduled_fresh g n :
  be_graph_wf g → (irg_last_idx g ≤ n)%nat → sched_is_scheduled g n = false.
Proof.
  intros [_ Hs] Hn. apply not_true_is_false.
  intros (b & l & Hl & Hin)%sched_is_scheduled_spec.
  specialize (Hs b l n Hl Hin). lia.
Qed.

Lemma insert_before_spec before n l :
  before ∈ l →
  ∃ pre post, l = pre ++ before :: post
              ∧ insert_before before n l = Some (pre ++ n :: before :: post).
Proof.
  induction l as [| x l IH]; [by intros ?%elem_of_nil |].
  intros Hin. simpl. destruct (decide (x = before)) as [-> | Hne].
  - exists [], l. by rewrite bool_decide_eq_true_2.
  - rewrite bool_decide_eq_false_2 by done.
    apply elem_of_cons in Hin as [-> | Hin]; [done |].
    destruct (IH Hin) as (pre & post & -> & ->). by exists (x :: pre), post.
Qed.

Lemma insert_after_spec after n l :
  after ∈ l →
  ∃ pre post, l = pre ++ after :: post
              ∧ insert_after after n l = Some (pre ++ after :: n :: post).
Proof.
  induction l as [| x l IH]; [by intros ?%elem_of_nil |].
  intros Hin. simpl. destruct (decide (x = after)) as [-> | Hne].
  - exists [], l. by rewrite bool_decide_eq_true_2.
  - rewrite bool_decide_eq_false_2 by done.
    apply elem_of_cons in Hin as [-> | Hin]; [done |].
    destruct (IH Hin) as (pre & post & -> & ->). by exists (x :: pre), post.
Qed.

Lemma replace_in_spec old nw l :
  old ∈ l →
  ∃ pre post, l = pre ++ old :: post
              ∧ replace_in old nw l = Some (pre ++ nw :: post).
Proof.
  induction l as [| x l IH]; [by intros ?%elem_of_nil |].
  intros Hin. simpl. destruct (decide (x = old)) as [-> | Hne].
  - exists [], l. by rewrite bool_decide_eq_true_2.
  - rewrite bool_decide_eq_false_2 by done.
    apply elem_of_cons in Hin as [-> | Hin]; [done |].
    destruct (IH Hin) as (pre & post & -> & ->). by exists (x :: pre), post.
Qed.

(** Inserting a node keeps two neighbours together unless it comes
    between them. *)
Lemma adjacent_insert pre post n at_ x y :
  adjacent x y (pre ++ at_ :: post) → at_ ≠ y →
  adjacent x y (pre ++ n :: at_ :: post).
Proof.
  intros (l1 & l2 & Heq) Hne. revert l1 Heq.
  induction pre as [| p pre IH]; intros l1 Heq; simpl in *.
  - destruct l1 as [| a l1]; simplify_eq/=.
    + by exists [n], l2.
    + by exists (n :: a :: l1), l2.
  - destruct l1 as [| a l1]; simplify_eq/=.
    + destruct pre as [| q pre]; simplify_eq/=.
      by exists [], (pre ++ n :: at_ :: post).
    + destruct (IH l1) as (l1' & l2' & ->); [done |].
      by exists (a :: l1'), l2'.
Qed.

Lemma adjacent_insert_after pre post n at_ x y :
  adjacent x y (pre ++ at_ :: post) → at_ ≠ x →
  adjacent x y (pre ++ at_ :: n :: post).
Proof.
  intros (l1 & l2 & Heq) Hne. revert l1 Heq.
  induction pre as [| p pre IH]; intros l1 Heq; simpl in *.
  - destruct l1 as [| a l1]; simplify_eq/=.
    by exists (a :: n :: l1), l2.
  - destruct l1 as [| a l1]; simplify_eq/=.
    + destruct pre as [| q pre]; simplify_eq/=.
      * by exists [], (n :: l2).
      * by exists [], (pre ++ at_ :: n :: post).
    + destruct (IH l1) as (l1' & l2' & ->); [done |].
      by exists (a :: l1'), l2'.
Qed.

Lemma get_node_set_node g n nd u :
  get_node (set_node g n nd) u
  = if decide (n = u) then Some nd else get_node g u.
Proof.
  unfold get_node, set_node. simpl. destruct (decide (n = u)) as [-> | Hne].
  - by rewrite lookup_insert_eq.
  - by rewrite lookup_insert_ne.
Qed.

Lemma get_node_with_sched g sched u :
  get_node (with_sched g sched) u = get_node g u.
Proof. done. Qed.

Lemma get_node_reroute g from to_ exception u :
  get_node (edges_reroute_except g from to_ exception) u
  = (λ nd, if bool_decide (Some u = exception) then nd
           else reroute_node from to_ nd) <$> get_node g u.
Proof.
  unfold get_node, edges_reroute_except. simpl. rewrite map_lookup_imap.
  by destruct (irg_nodes g !! u).
Qed.

Lemma get_node_edges_reroute g from to_ u :
  get_node (edges_reroute g from to_) u
  = reroute_node from to_ <$> get_node g u.
Proof.
  unfold edges_reroute. rewrite get_node_reroute.
  by destruct (get_node g u).
Qed.

Lemma sched_update_spec f g at_ n block :
  is_Proj g at_ = false → is_Proj g n = false →
  sched_is_scheduled g n = false → get_nodes_block g at_ = Some block →
  sched_update f g at_ n
  = l ← f at_ n (sched_nodes g block);
    Some (with_sched g (<[block := l]> (irg_sched g))).
Proof.
  intros Hat Hn Hs Hb. unfold sched_update. by rewrite Hat, Hn, Hs, Hb.
Qed.

Lemma sched_nodes_with_sched g block l b :
  sched_nodes (with_sched g (<[block := l]> (irg_sched g))) b
  = if decide (block = b) then l else sched_nodes g b.
Proof.
  unfold sched_nodes. simpl. destruct (decide (block = b)) as [-> | Hne].
  - by rewrite lookup_insert_eq.
  - by rewrite lookup_insert_ne.
Qed.

(** [get_Proj_for_pn] yields the Proj user of lowest index. *)
Definition uses_in (g : be_graph) (n user : irn) : list (irn * Z) :=
  match get_node g user with
  | Some nd => uses_of n user nd
  | None => []
  end.

Definition is_Proj_for_pn (g : be_graph) (n : irn) (pn : nat) (user : irn)
    : Prop :=
  (is_Proj g user = true ∧ get_Proj_num g user = Some pn)
  ∧ uses_in g n user ≠ [].

Global Instance is_Proj_for_pn_dec g n pn user :
  Decision (is_Proj_for_pn g n pn user).
Proof. unfold is_Proj_for_pn. apply _. Defined.

Lemma uses_of_user n user nd x : x ∈ uses_of n user nd → x.1 = user.
Proof.
  unfold uses_of. destruct (bool_decide (n_op nd = iro_Deleted));
    [by intros ?%elem_of_nil |].
  intros [Hx | Hx]%elem_of_app.
  - destruct (bool_decide _); [| by apply elem_of_nil in Hx].
    by apply list_elem_of_singleton in Hx as ->.
  - apply list_elem_of_omap in Hx as ([i a] & _ & Hx).
    destruct (bool_decide (a = n)); by simplify_eq.
Qed.

Lemma filter_by_user {A} (P : irn → Prop) `{∀ u, Decision (P u)} (user : irn)
    (l : list (irn * A)) :
  (∀ x, x ∈ l → x.1 = user) →
  filter (λ x, P x.1) l = if decide (P user) then l else [].
Proof.
  intros Hl. induction l as [| x l IH]; [by destruct (decide _) |].
  rewrite filter_cons. rewrite (Hl x) by left.
  rewrite IH by (intros y Hy; apply Hl; by right).
  by destruct (decide (P user)).
Qed.

Lemma head_filter_flat_map {A} (P : irn → Prop) `{∀ u, Decision (P u)}
    (f : irn → list (irn * A)) (l : list irn) :
  (∀ u x, x ∈ f u → x.1 = u) →
  fst <$> head (filter (λ x, P x.1) (flat_map f l))
  = head (filter (λ u, P u ∧ f u ≠ []) l).
Proof.
  intros Hf. induction l as [| u l IH]; [done |]. simpl.
  rewrite filter_app, (filter_by_user P u) by apply Hf.
  rewrite filter_cons. destruct (decide (P u)) as [HP | HP].
  - destruct (f u) as [| x xs] eqn:Hfu.
    + rewrite decide_False by naive_solver. simpl. by rewrite IH.
    + rewrite decide_True by done. simpl. f_equal. apply Hf.
      rewrite Hfu. left.
  - rewrite decide_False by naive_solver. simpl. by rewrite IH.
Qed.

Lemma get_Proj_for_pn_first g n pn :
  get_Proj_for_pn g n pn
  = head (filter (is_Proj_for_pn g n pn) (seq 0 (irg_last_idx g))).
Proof.
  unfold get_Proj_for_pn, out_edges.
  assert (Hf : ∀ u x, x ∈ uses_in g n u → x.1 = u).
  { intros u x. unfold uses_in.
    destruct (get_node g u); [| by intros ?%elem_of_nil].
    apply uses_of_user. }
  pose proof (head_filter_flat_map
                (λ u, is_Proj g u = true ∧ get_Proj_num g u = Some pn)
                (uses_in g n) (seq 0 (irg_last_idx g)) Hf) as E.
  etrans; [| etrans; [exact E |]].
  - f_equal. f_equal. apply list_filter_iff. by intros [user pos].
  - reflexivity.
Qed.

Lemma filter_ext_in {A} (P Q : A → Prop) `{∀ x, Decision (P x)}
    `{∀ x, Decision (Q x)} (l : list A) :
  (∀ x, x ∈ l → P x ↔ Q x) → filter P l = filter Q l.
Proof.
  intros HPQ. induction l as [| x l IH]; [done |].
  rewrite !filter_cons. rewrite IH by (intros y Hy; apply HPQ; by right).
  destruct (decide (P x)) as [HP | HP], (decide (Q x)) as [HQ | HQ];
    try done; exfalso; apply (HPQ x) in HP || apply (HPQ x) in HQ;
    try done; left.
Qed.

Lemma filter_none {A} (P : A → Prop) `{∀ x, Decision (P x)} (l : list A) :
  (∀ x, x ∈ l → ¬ P x) → filter P l = [].
Proof.
  intros HP. induction l as [| x l IH]; [done |].
  rewrite filter_cons_False by (apply HP; left).
  apply IH. intros y Hy. apply HP. by right.
Qed.

(** The Proj found stays the same when the nodes that were there keep
    their being a Proj of [n], and the new ones are no Projs. *)
Lemma get_Proj_for_pn_ext g g' n pn k :
  irg_last_idx g' = (irg_last_idx g + k)%nat →
  (∀ u, (u < irg_last_idx g)%nat →
     is_Proj_for_pn g' n pn u ↔ is_Proj_for_pn g n pn u) →
  (∀ u, (irg_last_idx g ≤ u < irg_last_idx g + k)%nat →
     is_Proj g' u = false) →
  get_Proj_for_pn g' n pn = get_Proj_for_pn g n pn.
Proof.
  intros Hidx Hold Hnew. rewrite !get_Proj_for_pn_first, Hidx.
  rewrite seq_app, filter_app. simpl.
  rewrite (filter_none _ (seq _ k)).
  - rewrite app_nil_r. f_equal. apply filter_ext_in.
    intros u Hu%elem_of_seq. apply Hold. lia.
  - intros u Hu%elem_of_seq [[Hp _] _]. rewrite Hnew in Hp; [done | lia].
Qed.

Lemma get_Proj_for_pn_is_Proj g n pn p :
  get_Proj_for_pn g n pn = Some p →
  is_Proj g p = true ∧ (p < irg_last_idx g)%nat.
Proof.
  rewrite get_Proj_for_pn_first. intros Hp%head_Some_elem_of.
  apply list_elem_of_filter in Hp as [[[Hp _] _] Hs%elem_of_seq].
  split; [done | lia].
Qed.

(** The scheduled nodes are old ones, below [bound], or among [added]. *)
Definition sched_within (g : be_graph) (bound : nat) (added : list irn)
    : Prop :=
  ∀ b l n, irg_sched g !! b = Some l → n ∈ l →
    (n < bound)%nat ∨ n ∈ added.

Lemma sched_within_wf g : be_graph_wf g → sched_within g (irg_last_idx g) [].
Proof. intros [_ Hs] b l n Hb Hn. left. by eapply Hs. Qed.

Lemma sched_within_not_scheduled g bound added n :
  sched_within g bound added → (bound ≤ n)%nat → n ∉ added →
  sched_is_scheduled g n = false.
Proof.
  intros Hs Hn Hadded. apply not_true_is_false.
  intros (b & l & Hl & Hin)%sched_is_scheduled_spec.
  destruct (Hs b l n Hl Hin); [lia | done].
Qed.

Lemma sched_within_insert g bound added block l n :
  sched_within g bound added →
  (∀ x, x ∈ l → x = n ∨ x ∈ sched_nodes g block) →
  sched_within (with_sched g (<[block := l]> (irg_sched g))) bound
    (n :: added).
Proof.
  intros Hs Hl b l' x Hb Hx. simpl in Hb.
  apply lookup_insert_Some in Hb as [[<- <-] | [_ Hb]].
  - destruct (Hl x Hx) as [-> | Hold]; [right; left |].
    unfold sched_nodes in Hold.
    destruct (irg_sched g !! block) as [l0 |] eqn:E;
      [| by apply elem_of_nil in Hold].
    destruct (Hs block l0 x E Hold); [by left | right; by right].
  - destruct (Hs b l' x Hb Hx); [by left | right; by right].
Qed.

Lemma insert_before_at before n pre post :
  before ∉ pre →
  insert_before before n (pre ++ before :: post)
  = Some (pre ++ n :: before :: post).
Proof.
  intros Hpre. induction pre as [| x pre IH]; simpl.
  - by rewrite bool_decide_eq_true_2.
  - rewrite bool_decide_eq_false_2 by (intros ->; apply Hpre; left).
    rewrite IH; [done |]. intros Hin. apply Hpre. by right.
Qed.

Lemma insert_after_at after n pre post :
  after ∉ pre →
  insert_after after n (pre ++ after :: post)
  = Some (pre ++ after :: n :: post).
Proof.
  intros Hpre. induction pre as [| x pre IH]; simpl.
  - by rewrite bool_decide_eq_true_2.
  - rewrite bool_decide_eq_false_2 by (intros ->; apply Hpre; left).
    rewrite IH; [done |]. intros Hin. apply Hpre. by right.
Qed.

Lemma replace_in_at old nw pre post :
  old ∉ pre →
  replace_in old nw (pre ++ old :: post) = Some (pre ++ nw :: post).
Proof.
  intros Hpre. induction pre as [| x pre IH]; simpl.
  - by rewrite bool_decide_eq_true_2.
  - rewrite bool_decide_eq_false_2 by (intros ->; apply Hpre; left).
    rewrite IH; [done |]. intros Hin. apply Hpre. by right.
Qed.

(** Operations that change one node. *)
Definition modify (g : be_graph) (n : irn) (f : be_node → be_node)
    : option be_graph :=
  nd ← get_node g n; Some (set_node g n (f nd)).

Lemma modify_spec g n f nd :
  get_node g n = Some nd → modify g n f = Some (set_node g n (f nd)).
Proof. intros Hnd. unfold modify. by rewrite Hnd. Qed.

Lemma set_irn_mode_modify g n m :
  set_irn_mode g n m = modify g n (λ nd, with_mode nd m).
Proof. done. Qed.

Lemma arch_set_irn_register_out_modify g n pos reg :
  arch_set_irn_register_out g n pos reg
  = modify g n (λ nd, with_out_regs nd (<[pos := reg]> (n_out_regs nd))).
Proof. done. Qed.

Lemma arch_set_irn_register_spec g n reg nd :
  get_node g n = Some nd → n_mode nd ≠ mode_T → n_op nd ≠ iro_Proj →
  arch_set_irn_register g n reg
  = Some (set_node g n
            (with_out_regs nd (<[0%nat := reg]> (n_out_regs nd)))).
Proof.
  intros Hnd Hm Hop. unfold arch_set_irn_register. rewrite Hnd. simpl.
  rewrite !bool_decide_eq_false_2 by done.
  unfold arch_set_irn_register_out. by rewrite Hnd.
Qed.

Lemma n_op_reroute_node from to_ nd :
  n_op (reroute_node from to_ nd) = n_op nd.
Proof. unfold reroute_node. by destruct (bool_decide _). Qed.

Lemma n_mode_reroute_node from to_ nd :
  n_mode (reroute_node from to_ nd) = n_mode nd.
Proof. unfold reroute_node. by destruct (bool_decide _). Qed.

Lemma n_out_regs_reroute_node from to_ nd :
  n_out_regs (reroute_node from to_ nd) = n_out_regs nd.
Proof. unfold reroute_node. by destruct (bool_decide _). Qed.

Lemma n_proj_num_reroute_node from to_ nd :
  n_proj_num (reroute_node from to_ nd) = n_proj_num nd.
Proof. unfold reroute_node. by destruct (bool_decide _). Qed.

Lemma n_block_reroute_node from to_ nd :
  n_block nd ≠ from → n_block (reroute_node from to_ nd) = n_block nd.
Proof.
  intros Hne. unfold reroute_node. destruct (bool_decide _); [done |].
  simpl. by rewrite bool_decide_eq_false_2 by (by intros [_ ?]).
Qed.

Lemma n_in_reroute_node from to_ nd :
  n_op nd ≠ iro_Deleted →
  n_in (reroute_node from to_ nd)
  = (λ a, if bool_decide (a = from) then to_ else a) <$> n_in nd.
Proof.
  intros Hop. unfold reroute_node. by rewrite bool_decide_eq_false_2.
Qed.

(** A use that is not of [from] stays. *)
Lemma lookup_reroute from to_ (ins : list irn) i a :
  ins !! i = Some a → a ≠ from →
  ((λ a, if bool_decide (a = from) then to_ else a) <$> ins) !! i = Some a.
Proof.
  intros Hi Hne. rewrite list_lookup_fmap, Hi. simpl.
  by rewrite bool_decide_eq_false_2.
Qed.

Lemma exchange_spec g old nw nd :
  old ≠ nw → get_node g old = Some nd →
  exchange g old nw
  = Some (set_node (edges_reroute g old nw) old
            (with_op (reroute_node old nw nd) iro_Deleted)).
Proof.
  intros Hne Hnd. unfold exchange.
  rewrite bool_decide_eq_false_2 by done.
  by rewrite get_node_edges_reroute, Hnd.
Qed.

Lemma sched_is_scheduled_sched g g' n :
  irg_sched g' = irg_sched g →
  sched_is_scheduled g' n = sched_is_scheduled g n.
Proof. intros Hs. unfold sched_is_scheduled. by rewrite Hs. Qed.

Lemma has_op_node g o n nd :
  get_node g n = Some nd → has_op g o n = bool_decide (n_op nd = o).
Proof. intros Hnd. unfold has_op. by rewrite Hnd. Qed.

Lemma get_nodes_block_value g n nd :
  get_node g n = Some nd → n_op nd ≠ iro_Block →
  get_nodes_block g n = Some (n_block nd).
Proof.
  intros Hnd Hop. unfold get_nodes_block. rewrite Hnd. simpl.
  by rewrite bool_decide_eq_false_2.
Qed.

(** A check of [be_graph_wf] that can be run. *)
Definition be_graph_wfb (g : be_graph) : bool :=
  forallb (λ un : irn * be_node, bool_decide (un.1 < irg_last_idx g)%nat)
    (map_to_list (irg_nodes g))
  && forallb (λ bl : irn * list irn,
                forallb (λ n, bool_decide (n < irg_last_idx g)%nat) bl.2)
       (map_to_list (irg_sched g)).

Lemma be_graph_wfb_spec g : be_graph_wfb g = true → be_graph_wf g.
Proof.
  unfold be_graph_wfb, be_graph_wf. intros [Hn Hs]%andb_true_iff.
  rewrite forallb_forall in Hn. rewrite forallb_forall in Hs. split.
  - intros u nd Hu%elem_of_map_to_list%list_elem_of_In.
    by apply Hn, bool_decide_eq_true in Hu.
  - intros b l n Hb%elem_of_map_to_list%list_elem_of_In Hin%list_elem_of_In.
    apply Hs in Hb. simpl in Hb. rewrite forallb_forall in Hb.
    by apply Hb, bool_decide_eq_true in Hin.
Qed.

End Be.

(** ** [ir/be/beverify.c]: the verifiers of the back end

    The verifiers run in a world made of the graph and the diagnostic
    stream [stderr]; a computation may change either, or crash. *)

Module BeVerify.

Import Be.

Inductive warning : Set :=
  | scheduled_twice | in_wrong_block | timestep_did_not_increase
  | flag_not_scheduled_but_scheduled | phi_after_non_phi
  | additional_cfop | scheduled_after_cfop | used_before_defined
  | dead_but_scheduled | not_after_its_pred | should_be_scheduled (b : bool)
  | pressure_too_high_at_end | pressure_too_high_before | living_values
  | no_register_assigned | register_not_allowed | no_input_requirements
  | bad_input | register_class_differs | register_width_too_small
  | phi_input_register_differs | register_assigned_twice
  | not_registered_as_value | not_live_in_and_no_def.

(** What [verify_warnf (node, fmt, ...)] prints: the block and graph of
    [node] as the prefix, then the message with its arguments. *)
Record diagnostic : Type := mk_diagnostic {
  diag_node : irn;
  diag_what : warning;
  diag_args : list irn
}.

Record world : Type := mk_world {
  w_irg : be_graph;
  w_stderr : list diagnostic
}.

Definition M (A : Type) : Type := world → option (A * world).

Definition ret {A} (a : A) : M A := λ w, Some (a, w).

Definition bind {A B} (m : M A) (k : A → M B) : M B :=
  λ w, match m w with
       | Some (a, w') => k a w'
       | None => None
       end.

Notation "'let!' x := y 'in' z" := (bind y (λ x, z))
  (at level 10, x pattern, y at level 100, z at level 200,
   format "'[v' 'let!'  x  :=  y  'in' '/' z ']'").

(** Reading the graph; [rd_opt] crashes where the C code would. *)
Definition rd {A} (f : be_graph → A) : M A := λ w, Some (f (w_irg w), w).

Definition rd_opt {A} (f : be_graph → option A) : M A :=
  λ w, match f (w_irg w) with
       | Some a => Some (a, w)
       | None => None
       end.

Definition crash {A} : M A := λ _, None.

Definition verify_warnf (node : irn) (what : warning) (args : list irn)
    : M unit :=
  λ w, Some ((), mk_world (w_irg w)
                   (w_stderr w ++ [mk_diagnostic node what args])).

Fixpoint foldM {S X : Type} (f : S → X → M S) (s : S) (l : list X) : M S :=
  match l with
  | [] => ret s
  | x :: l => let! s := f s x in foldM f s l
  end.

(** [if (c) { verify_warnf (...); env->problem_found = true; }] *)
Definition problem (c : bool) (node : irn) (what : warning)
    (args : list irn) (problem_found : bool) : M bool :=
  if c then let! _ := verify_warnf node what args in ret true
  else ret problem_found.

(** *** be_verify_schedule *)

Record be_verify_schedule_env_t : Type := mk_be_verify_schedule_env_t {
  problem_found : bool;
  scheduled : gset nat                 (* bitset over the node indices *)
}.

Definition bitset_is_set (bs : gset nat) (i : nat) : bool :=
  bool_decide (i ∈ bs).
Definition bitset_set (bs : gset nat) (i : nat) : gset nat := {[ i ]} ∪ bs.

(** [sched_foreach] walks the ring [block, l0, l1, ..., block]; a position
    on it is 0 for the block and [S i] for the [i]-th scheduled node. *)
Definition sched_at (block : irn) (l : list irn) (c : nat) : irn :=
  match c with
  | O => block
  | S i => nth i l block
  end.

Definition sched_prev_at (l : list irn) (c : nat) : nat :=
  match c with
  | O => length l
  | S i => i
  end.

(** The state of the loop over the schedule of a block. *)
Record walker_state : Type := mk_walker_state {
  ws_env : be_verify_schedule_env_t;
  ws_non_phi_found : option irn;
  ws_cfchange_found : option irn;
  ws_last_timestep : Z
}.

Section verifier.
Context (is_op_cfopcode : opcode → bool)      (* irop_flag_cfopcode *)
        (arch_is_irn_not_scheduled : be_graph → irn → bool)
        (irg_block_walk_graph : be_graph → list irn)
        (irg_walk_graph : be_graph → list irn).

Definition is_cfop (g : be_graph) (n : irn) : bool :=
  match get_node g n with
  | Some nd => is_op_cfopcode (n_op nd)
  | None => false
  end.

Definition env_problem (c : bool) (node : irn) (what : warning)
    (args : list irn) (env : be_verify_schedule_env_t)
    : M be_verify_schedule_env_t :=
  let! p := problem c node what args (problem_found env) in
  ret (mk_be_verify_schedule_env_t p (scheduled env)).

(** [while (be_is_Keep (prev) || be_is_CopyKeep (prev))
      prev = sched_prev (prev)] *)
Fixpoint skip_keeps (fuel : nat) (g : be_graph) (block : irn) (l : list irn)
    (c : nat) : option nat :=
  match fuel with
  | O => None
  | S fuel =>
      if be_is_Keep g (sched_at block l c)
         || be_is_CopyKeep g (sched_at block l c)
      then skip_keeps fuel g block l (sched_prev_at l c)
      else Some c
  end.

(** The [do ... while (is_Phi (prev))] loop: [true] is [goto ok]. *)
Fixpoint keep_after_pred (fuel : nat) (g : be_graph) (block : irn)
    (l : list irn) (ins : list irn) (c : nat) : option bool :=
  match fuel with
  | O => None
  | S fuel =>
      if existsb (λ a, bool_decide (skip_Proj g a = Some (sched_at block l c)))
           ins
      then Some true
      else
        let c := sched_prev_at l c in
        if is_Phi g (sched_at block l c)
        then keep_after_pred fuel g block l ins c
        else Some false
  end.

(** The check of one argument in [foreach_irn_in (node, i, arg)]. *)
Definition verify_use (block node : irn) (nodetime : Z)
    (env : be_verify_schedule_env_t) (arg : irn)
    : M be_verify_schedule_env_t :=
  let! arg_block := rd_opt (λ g, get_nodes_block g arg) in
  let! arg_scheduled := rd (λ g, sched_is_scheduled g arg) in
  if bool_decide (arg_block ≠ block) || negb arg_scheduled then ret env
  else
    let! argtime := rd (λ g, sched_get_time_step g arg) in
    env_problem (nodetime <=? argtime) block used_before_defined [arg; node]
      env.

(** The body of [sched_foreach (block, node)]; [pos] is the position of
    [node] in the schedule [l] of the block. *)
Definition verify_scheduled_node (block : irn) (l : list irn)
    (st : walker_state) (pos_node : nat * irn) : M walker_state :=
  let '(pos, node) := pos_node in
  let env := ws_env st in
  (* this node is scheduled *)
  let! env := env_problem (bitset_is_set (scheduled env) node) block
                scheduled_twice [] env in
  let env := mk_be_verify_schedule_env_t (problem_found env)
               (bitset_set (scheduled env) node) in
  (* Check that scheduled nodes are in the correct block *)
  let! node_block := rd_opt (λ g, get_nodes_block g node) in
  let! env := env_problem (bool_decide (node_block ≠ block)) block
                in_wrong_block [node; node_block] env in
  (* Check that timesteps are increasing *)
  let! timestep := rd (λ g, sched_get_time_step g node) in
  let! env := env_problem (timestep <=? ws_last_timestep st) block
                timestep_did_not_increase [node] env in
  let last_timestep := timestep in
  let! not_scheduled := rd_opt (λ g, n_not_scheduled <$> get_node g node) in
  let! env := env_problem not_scheduled block
                flag_not_scheduled_but_scheduled [node] env in
  (* Check that phis come before any other node *)
  let! phi := rd (λ g, is_Phi g node) in
  let non_phi_found :=
    if phi then ws_non_phi_found st else Some node in
  let! env :=
    match phi, ws_non_phi_found st with
    | true, Some non_phi =>
        env_problem true block phi_after_non_phi [node; non_phi] env
    | _, _ => ret env
    end in
  (* Check for control flow changing nodes *)
  let! cfop := rd (λ g, is_cfop g node) in
  let cfchange_found :=
    match cfop, ws_cfchange_found st with
    | true, None => Some node
    | _, found => found
    end in
  let! env :=
    match cfop, ws_cfchange_found st with
    | true, Some cfchange =>
        env_problem true block additional_cfop [node; cfchange] env
    | true, None => ret env
    | false, Some _ =>
        (* keepany isn't a real instruction. *)
        let! keep := rd (λ g, be_is_Keep g node) in
        env_problem (negb keep) block scheduled_after_cfop [node] env
    | false, None => ret env
    end in
  (* Check that all uses come before their definitions *)
  let! env :=
    if phi then ret env
    else
      let! nodetime := rd (λ g, sched_get_time_step g node) in
      let! ins := rd_opt (λ g, get_irn_in g node) in
      foldM (verify_use block node nodetime) env ins in
  (* Check that no dead nodes are scheduled *)
  let! n_edges := rd (λ g, get_irn_n_edges g node) in
  let! env := env_problem (bool_decide (n_edges = 0%nat)) block
                dead_but_scheduled [node] env in
  let! keep := rd (λ g, be_is_Keep g node || be_is_CopyKeep g node) in
  let! env :=
    if keep then
      (* at least 1 of the keep arguments has to be its schedule
         predecessor *)
      let fuel := (2 * length l + 3)%nat in
      let! prev := rd_opt (λ g, skip_keeps fuel g block l pos) in
      let! ins := rd_opt (λ g, get_irn_in g node) in
      let! ok := rd_opt (λ g, keep_after_pred fuel g block l ins prev) in
      env_problem (negb ok) block not_after_its_pred [node] env
    else ret env in
  ret (mk_walker_state env non_phi_found cfchange_found last_timestep).

Definition verify_schedule_walker (block : irn)
    (env : be_verify_schedule_env_t) : M be_verify_schedule_env_t :=
  let! l := rd (λ g, sched_nodes g block) in
  let! st := foldM (verify_scheduled_node block l)
               (mk_walker_state env None None 0)
               (imap (λ i n, (i, n)) l) in
  ret (ws_env st).

Definition check_schedule (node : irn) (env : be_verify_schedule_env_t)
    : M be_verify_schedule_env_t :=
  let! should_be := rd (λ g, negb (arch_is_irn_not_scheduled g node)) in
  let scheduled := bitset_is_set (scheduled env) node in
  env_problem (negb (eqb should_be scheduled)) node
    (should_be_scheduled should_be) [node] env.

Definition be_verify_schedule : M bool :=
  let env := mk_be_verify_schedule_env_t false ∅ in
  let! blocks := rd irg_block_walk_graph in
  let! env := foldM (λ env block, verify_schedule_walker block env) env
                blocks in
  (* check if all nodes are scheduled *)
  let! nodes := rd irg_walk_graph in
  let! env := foldM (λ env node, check_schedule node env) env nodes in
  ret (negb (problem_found env)).

End verifier.

(** *** be_verify_register_pressure *)

Inductive be_lv_state_t : Set := be_lv_state_in | be_lv_state_end.

Section pressure.
Context (irg_block_walk_graph : be_graph → list irn)
        (be_lv_t : Type)
        (be_liveness_new : M be_lv_t)
        (be_liveness_compute_sets : be_lv_t → M be_lv_t)
        (be_liveness_free : be_lv_t → M unit)
        (be_liveness_end_of_block :
           be_graph → be_lv_t → arch_register_class → irn → gset irn)
        (be_liveness_transfer :
           be_graph → arch_register_class → irn → gset irn → gset irn)
        (be_get_n_allocatable_regs : be_graph → arch_register_class → Z).

(** [sched_foreach_non_phi_reverse]: from the last node backwards, up to
    the first Phi. *)
Fixpoint non_phi_reverse (g : be_graph) (rev_sched : list irn) : list irn :=
  match rev_sched with
  | [] => []
  | n :: l => if is_Phi g n then [] else n :: non_phi_reverse g l
  end.

Definition pressure_problem (pressure registers_available : Z)
    (block : irn) (what : warning) (args : list irn) (live_nodes : gset irn)
    (problem_found : bool) : M bool :=
  if registers_available <? pressure then
    let! _ := verify_warnf block what args in
    let! _ := verify_warnf block living_values (elements live_nodes) in
    ret true
  else ret problem_found.

Definition verify_liveness_walker (lv : be_lv_t) (cls : arch_register_class)
    (registers_available : Z) (block : irn) (problem_found : bool)
    : M bool :=
  (* collect register pressure info, start with end of a block *)
  let! live_nodes := rd (λ g, be_liveness_end_of_block g lv cls block) in
  let pressure := Z.of_nat (size live_nodes) in
  let! problem_found :=
    pressure_problem pressure registers_available block
      pressure_too_high_at_end [] live_nodes problem_found in
  let! nodes := rd (λ g, non_phi_reverse g (reverse (sched_nodes g block))) in
  let! st :=
    foldM (λ '(problem_found, live_nodes) node,
             let! live_nodes :=
               rd (λ g, be_liveness_transfer g cls node live_nodes) in
             let pressure := Z.of_nat (size live_nodes) in
             let! problem_found :=
               pressure_problem pressure registers_available block
                 pressure_too_high_before [node] live_nodes problem_found in
             ret (problem_found, live_nodes))
      (problem_found, live_nodes) nodes in
  ret (fst st).

Definition be_verify_register_pressure (cls : arch_register_class) : M bool :=
  let! lv := be_liveness_new in
  let! registers_available := rd (λ g, be_get_n_allocatable_regs g cls) in
  let! lv := be_liveness_compute_sets lv in
  let! blocks := rd irg_block_walk_graph in
  let! problem_found :=
    foldM (λ problem_found block,
             verify_liveness_walker lv cls registers_available block
               problem_found)
      false blocks in
  let! _ := be_liveness_free lv in
  ret (negb problem_found).

End pressure.

(** *** be_verify_register_allocation *)

(** The state of a block's check: [env->problem_found] and the array
    [registers] with the value every register holds. *)
Definition alloc_state : Type := bool * list (option irn).

Section allocation.
Context (irg_block_walk_graph : be_graph → list irn)
        (be_lv_t : Type)
        (be_liveness_new : M be_lv_t)
        (be_liveness_compute_sets : be_lv_t → M be_lv_t)
        (be_liveness_free : be_lv_t → M unit)
        (be_lv_nodes : be_graph → be_lv_t → irn → be_lv_state_t → list irn)
        (arch_get_irn_register_req : be_graph → irn → arch_register_req)
        (arch_get_irn_register_reqs_in :
           be_graph → irn → option (list arch_register_req))
        (arch_reg_is_allocatable : arch_register_req → arch_register → bool)
        (non_ssa_regs : be_graph → option (gset nat))
        (n_registers : nat).                  (* isa_if->n_registers *)

Definition check_output_constraints (node : irn) (problem_found : bool)
    : M bool :=
  let! req := rd (λ g, arch_get_irn_register_req g node) in
  if negb (cls_has_regs (req_cls req)) then ret problem_found
  else
    (* verify output register *)
    let! reg := rd_opt (λ g, arch_get_irn_register g node) in
    match reg with
    | None => problem true node no_register_assigned [node] problem_found
    | Some reg =>
        problem (negb (arch_reg_is_allocatable req reg)) node
          register_not_allowed [node] problem_found
    end.

Definition check_input (node : irn) (in_reqs : option (list arch_register_req))
    (problem_found : bool) (i_pred : nat * irn) : M bool :=
  let '(i, pred) := i_pred in
  let! bad := rd (λ g, is_Bad g pred) in
  if bad then problem true node bad_input [node] problem_found
  else
    let! req := rd_opt (λ _, reqs ← in_reqs; reqs !! i) in
    let! pred_req := rd (λ g, arch_get_irn_register_req g pred) in
    let! problem_found :=
      problem (bool_decide (req_cls req ≠ req_cls pred_req)) node
        register_class_differs [node] problem_found in
    if negb (cls_has_regs (req_cls req)) then ret problem_found
    else
      let! problem_found :=
        problem (req_width pred_req <? req_width req) node
          register_width_too_small [node] problem_found in
      let! reg := rd_opt (λ g, arch_get_irn_register g pred) in
      match reg with
      | None => problem true pred no_register_assigned [pred; node]
                  problem_found
      | Some reg =>
          problem (negb (arch_reg_is_allocatable req reg)) node
            register_not_allowed [node] problem_found
      end.

(** The registers of the inputs of a Phi; [pred_reg->is_virtual] is read
    whenever the two registers differ. *)
Definition check_phi_input (node : irn) (reg : option arch_register)
    (problem_found : bool) (pred : irn) : M bool :=
  let! pred_reg := rd_opt (λ g, arch_get_irn_register g pred) in
  if bool_decide (reg = pred_reg) then ret problem_found
  else
    match pred_reg with
    | None => crash
    | Some r =>
        problem (negb (reg_is_virtual r)) node phi_input_register_differs
          [node] problem_found
    end.

Definition check_input_constraints (node : irn) (problem_found : bool)
    : M bool :=
  let! in_reqs := rd (λ g, arch_get_irn_register_reqs_in g node) in
  let! ins := rd_opt (λ g, get_irn_in g node) in
  if bool_decide (in_reqs = None ∧ ins ≠ []) then
    problem true node no_input_requirements [node] problem_found
  else
    (* verify input register *)
    let! problem_found :=
      foldM (check_input node in_reqs) problem_found
        (imap (λ i a, (i, a)) ins) in
    (* phis should be NOPs at this point, which means all input regs
       must be the same as the output reg *)
    let! phi := rd (λ g, is_Phi g node) in
    if phi then
      let! reg := rd_opt (λ g, arch_get_irn_register g node) in
      foldM (check_phi_input node reg) problem_found ins
    else ret problem_found.

Definition ignore_error_for_reg (g : be_graph) (reg : arch_register) : bool :=
  match non_ssa_regs g with
  | None => false
  | Some regs => bool_decide (reg_global_index reg ∈ regs)
  end.

Definition value_used (block node : irn) (st : alloc_state) : M alloc_state :=
  let! reg := rd_opt (λ g, arch_get_irn_register g node) in
  match reg with
  | None => ret st
  | Some reg =>
      if reg_is_virtual reg then ret st
      else
        let! req := rd (λ g, arch_get_irn_register_req g node) in
        if negb (0 <? req_width req) then crash
        else
          let idx := reg_global_index reg in
          foldM (λ '(problem_found, registers) i,
                   let! reg_node := rd_opt (λ _, registers !! (idx + i)%nat) in
                   let! ignore := rd (λ g, ignore_error_for_reg g reg) in
                   let! problem_found :=
                     problem (match reg_node with
                              | Some reg_node =>
                                  bool_decide (reg_node ≠ node) && negb ignore
                              | None => false
                              end)
                       block register_assigned_twice
                       (node :: option_list reg_node) problem_found in
                   ret (problem_found, <[(idx + i)%nat := Some node]> registers))
            st (seq 0 (Z.to_nat (req_width req)))
  end.

Fixpoint value_def_loop (node : irn) (reg : arch_register) (is_ : list nat)
    (st : alloc_state) : M alloc_state :=
  match is_ with
  | [] => ret st
  | i :: is_ =>
      let '(problem_found, registers) := st in
      let idx := reg_global_index reg in
      let! reg_node := rd_opt (λ _, registers !! (idx + i)%nat) in
      (* a little cheat, since its so hard to remove all outedges to dead
         code in the backend. *)
      let! n_edges := rd (λ g, get_irn_n_edges g node) in
      if bool_decide (reg_node = None) && bool_decide (n_edges = 0%nat)
      then ret st
      else
        let! ignore := rd (λ g, ignore_error_for_reg g reg) in
        let! problem_found :=
          problem (bool_decide (reg_node ≠ Some node) && negb ignore) node
            not_registered_as_value (node :: option_list reg_node)
            problem_found in
        value_def_loop node reg is_
          (problem_found, <[(idx + i)%nat := None]> registers)
  end.

Definition value_def (node : irn) (st : alloc_state) : M alloc_state :=
  let! reg := rd_opt (λ g, arch_get_irn_register g node) in
  match reg with
  | None => ret st
  | Some reg =>
      if reg_is_virtual reg then ret st
      else
        let! req := rd (λ g, arch_get_irn_register_req g node) in
        if negb (0 <? req_width req) then crash
        else value_def_loop node reg (seq 0 (Z.to_nat (req_width req))) st
  end.

(** [be_foreach_value]: the Projs of a [mode_T] node, else the node. *)
Definition be_values (g : be_graph) (node : irn) : option (list irn) :=
  m ← get_irn_mode g node;
  if bool_decide (m = mode_T)
  then Some (filter (λ v, is_Proj g v = true) (fst <$> out_edges g node))
  else Some [node].

Definition verify_allocated_node (block : irn) (st : alloc_state)
    (node : irn) : M alloc_state :=
  let! values := rd_opt (λ g, be_values g node) in
  let! st :=
    foldM (λ st value,
             let! st := value_def value st in
             let! problem_found := check_output_constraints value (fst st) in
             ret (problem_found, snd st))
      st values in
  let! problem_found := check_input_constraints node (fst st) in
  let st := (problem_found, snd st) in
  (* process uses. (Phi inputs are no real uses) *)
  let! phi := rd (λ g, is_Phi g node) in
  if phi then ret st
  else
    let! ins := rd_opt (λ g, get_irn_in g node) in
    foldM (λ st use, value_used block use st) st ins.

Definition verify_block_register_allocation (lv : be_lv_t) (block : irn)
    (problem_found : bool) : M bool :=
  let registers : list (option irn) := replicate n_registers None in
  let! live_end := rd (λ g, be_lv_nodes g lv block be_lv_state_end) in
  let! st := foldM (λ st lv_node, value_used block lv_node st)
               (problem_found, registers) live_end in
  let! nodes := rd (λ g, reverse (sched_nodes g block)) in
  let! st := foldM (verify_allocated_node block) st nodes in
  let! live_in := rd (λ g, be_lv_nodes g lv block be_lv_state_in) in
  let! st := foldM (λ st lv_node, value_def lv_node st) st live_in in
  (* set must be empty now *)
  foldM (λ problem_found reg_node,
           match reg_node with
           | Some n => problem true block not_live_in_and_no_def [n]
                         problem_found
           | None => ret problem_found
           end)
    (fst st) (snd st).

Definition be_verify_register_allocation : M bool :=
  let! lv := be_liveness_new in
  let! lv := be_liveness_compute_sets lv in
  let! blocks := rd irg_block_walk_graph in
  let! problem_found :=
    foldM (λ problem_found block,
             verify_block_register_allocation lv block problem_found)
      false blocks in
  let! _ := be_liveness_free lv in
  ret (negb problem_found).

End allocation.

(** ** Results: the verifiers only read the graph *)

(** [w'] is [w] with more diagnostics on [stderr]. *)
Definition only_warns (w w' : world) : Prop :=
  w_irg w' = w_irg w ∧ ∃ ds, w_stderr w' = w_stderr w ++ ds.

Definition frame {A} (m : M A) : Prop :=
  ∀ w a w', m w = Some (a, w') → only_warns w w'.

Lemma only_warns_refl w : only_warns w w.
Proof. split; [done | exists []; by rewrite app_nil_r]. Qed.

Lemma only_warns_trans w1 w2 w3 :
  only_warns w1 w2 → only_warns w2 w3 → only_warns w1 w3.
Proof.
  intros [Hg1 [ds1 Hs1]] [Hg2 [ds2 Hs2]]. split; [congruence |].
  exists (ds1 ++ ds2). by rewrite Hs2, Hs1, app_assoc.
Qed.

Lemma frame_ret {A} (a : A) : frame (ret a).
Proof. intros w a' w' [= _ <-]. apply only_warns_refl. Qed.

Lemma frame_bind {A B} (m : M A) (k : A → M B) :
  frame m → (∀ a, frame (k a)) → frame (bind m k).
Proof.
  intros Hm Hk w b w'. unfold bind.
  destruct (m w) as [[a w1] |] eqn:E; [| done].
  intros H. eapply only_warns_trans; [by eapply Hm | by eapply Hk].
Qed.

Lemma frame_rd {A} (f : be_graph → A) : frame (rd f).
Proof. intros w a w' [= _ <-]. apply only_warns_refl. Qed.

Lemma frame_rd_opt {A} (f : be_graph → option A) : frame (rd_opt f).
Proof.
  intros w a w'. unfold rd_opt. destruct (f (w_irg w)); [| done].
  intros [= _ <-]. apply only_warns_refl.
Qed.

Lemma frame_crash {A} : frame (@crash A).
Proof. by intros w a w'. Qed.

Lemma frame_verify_warnf node what args : frame (verify_warnf node what args).
Proof. intros w a w' [= _ <-]. split; [done | by eexists]. Qed.

Lemma frame_foldM {S X} (f : S → X → M S) (s : S) (l : list X) :
  (∀ s x, frame (f s x)) → frame (foldM f s l).
Proof.
  intros Hf. revert s. induction l as [| x l IH]; intros s; simpl.
  - apply frame_ret.
  - apply frame_bind; [apply Hf | intros s'; apply IH].
Qed.

Ltac frame_step :=
  match goal with
  | |- frame (bind _ _) => apply frame_bind; [| intros ?]
  | |- frame (ret _) => apply frame_ret
  | |- frame (rd _) => apply frame_rd
  | |- frame (rd_opt _) => apply frame_rd_opt
  | |- frame crash => apply frame_crash
  | |- frame (verify_warnf _ _ _) => apply frame_verify_warnf
  | |- frame (foldM _ _ _) => apply frame_foldM; intros ? ?; cbv beta
  | |- frame (match ?x with _ => _ end) => destruct x
  | |- frame ((match ?x with _ => _ end) _) => destruct x; cbv beta
  | |- frame _ => assumption
  end.

Ltac frame_steps := repeat frame_step.

Lemma frame_problem c node what args problem_found :
  frame (problem c node what args problem_found).
Proof. unfold problem. frame_steps. Qed.

Lemma frame_env_problem c node what args env :
  frame (env_problem c node what args env).
Proof. unfold env_problem. frame_steps. apply frame_problem. Qed.

Section frames.
Context (is_op_cfopcode : opcode → bool)
        (arch_is_irn_not_scheduled : be_graph → irn → bool)
        (irg_block_walk_graph : be_graph → list irn)
        (irg_walk_graph : be_graph → list irn)
        (be_lv_t : Type)
        (be_liveness_new : M be_lv_t)
        (be_liveness_compute_sets : be_lv_t → M be_lv_t)
        (be_liveness_free : be_lv_t → M unit)
        (be_liveness_end_of_block :
           be_graph → be_lv_t → arch_register_class → irn → gset irn)
        (be_liveness_transfer :
           be_graph → arch_register_class → irn → gset irn → gset irn)
        (be_get_n_allocatable_regs : be_graph → arch_register_class → Z)
        (be_lv_nodes : be_graph → be_lv_t → irn → be_lv_state_t → list irn)
        (arch_get_irn_register_req : be_graph → irn → arch_register_req)
        (arch_get_irn_register_reqs_in :
           be_graph → irn → option (list arch_register_req))
        (arch_reg_is_allocatable : arch_register_req → arch_register → bool)
        (non_ssa_regs : be_graph → option (gset nat))
        (n_registers : nat).

(** The liveness analysis is not part of the verifier: it is taken to
    leave the graph alone. *)
Hypothesis be_liveness_new_frame : frame be_liveness_new.
Hypothesis be_liveness_compute_sets_frame :
  ∀ lv, frame (be_liveness_compute_sets lv).
Hypothesis be_liveness_free_frame : ∀ lv, frame (be_liveness_free lv).

Lemma frame_verify_use block node nodetime env arg :
  frame (verify_use block node nodetime env arg).
Proof. unfold verify_use. frame_steps. apply frame_env_problem. Qed.

Lemma frame_verify_scheduled_node block l st pos_node :
  frame (verify_scheduled_node is_op_cfopcode block l st pos_node).
Proof.
  unfold verify_scheduled_node. destruct pos_node as [pos node].
  frame_steps;
    first [apply frame_env_problem | apply frame_verify_use].
Qed.

Lemma frame_verify_schedule_walker block env :
  frame (verify_schedule_walker is_op_cfopcode block env).
Proof.
  unfold verify_schedule_walker. frame_steps.
  apply frame_verify_scheduled_node.
Qed.

Lemma frame_check_schedule node env :
  frame (check_schedule arch_is_irn_not_scheduled node env).
Proof. unfold check_schedule. frame_steps. apply frame_env_problem. Qed.

Lemma frame_be_verify_schedule :
  frame (be_verify_schedule is_op_cfopcode arch_is_irn_not_scheduled
           irg_block_walk_graph irg_walk_graph).
Proof.
  unfold be_verify_schedule. frame_steps.
  - apply frame_verify_schedule_walker.
  - apply frame_check_schedule.
Qed.

Lemma frame_pressure_problem pressure avail block what args live pf :
  frame (pressure_problem pressure avail block what args live pf).
Proof. unfold pressure_problem. frame_steps. Qed.

Lemma frame_verify_liveness_walker lv cls avail block pf :
  frame (verify_liveness_walker be_lv_t be_liveness_end_of_block
           be_liveness_transfer lv cls avail block pf).
Proof.
  unfold verify_liveness_walker. frame_steps; apply frame_pressure_problem.
Qed.

Lemma frame_be_verify_register_pressure cls :
  frame (be_verify_register_pressure irg_block_walk_graph be_lv_t
           be_liveness_new be_liveness_compute_sets be_liveness_free
           be_liveness_end_of_block be_liveness_transfer
           be_get_n_allocatable_regs cls).
Proof.
  unfold be_verify_register_pressure. frame_steps; auto.
  apply frame_verify_liveness_walker.
Qed.

Lemma frame_check_output_constraints node pf :
  frame (check_output_constraints arch_get_irn_register_req
           arch_reg_is_allocatable node pf).
Proof. unfold check_output_constraints. frame_steps; apply frame_problem. Qed.

Lemma frame_check_input node in_reqs pf i_pred :
  frame (check_input arch_get_irn_register_req arch_reg_is_allocatable node
           in_reqs pf i_pred).
Proof.
  unfold check_input. destruct i_pred. frame_steps; apply frame_problem.
Qed.

Lemma frame_check_phi_input node reg pf pred :
  frame (check_phi_input node reg pf pred).
Proof. unfold check_phi_input. frame_steps; apply frame_problem. Qed.

Lemma frame_check_input_constraints node pf :
  frame (check_input_constraints arch_get_irn_register_req
           arch_get_irn_register_reqs_in arch_reg_is_allocatable node pf).
Proof.
  unfold check_input_constraints. frame_steps;
    first [apply frame_problem | apply frame_check_input
          | apply frame_check_phi_input].
Qed.

Lemma frame_value_used block node st :
  frame (value_used arch_get_irn_register_req non_ssa_regs block node st).
Proof. unfold value_used. frame_steps; apply frame_problem. Qed.

Lemma frame_value_def_loop node reg is_ st :
  frame (value_def_loop non_ssa_regs node reg is_ st).
Proof.
  revert st. induction is_ as [| i is_ IH]; intros st; simpl.
  - apply frame_ret.
  - destruct st. frame_steps; first [apply frame_problem | apply IH].
Qed.

Lemma frame_value_def node st :
  frame (value_def arch_get_irn_register_req non_ssa_regs node st).
Proof. unfold value_def. frame_steps; apply frame_value_def_loop. Qed.

Lemma frame_verify_allocated_node block st node :
  frame (verify_allocated_node arch_get_irn_register_req
           arch_get_irn_register_reqs_in arch_reg_is_allocatable non_ssa_regs
           block st node).
Proof.
  unfold verify_allocated_node. frame_steps;
    first [apply frame_value_def | apply frame_check_output_constraints
          | apply frame_check_input_constraints | apply frame_value_used].
Qed.

Lemma frame_verify_block_register_allocation lv block pf :
  frame (verify_block_register_allocation be_lv_t be_lv_nodes
           arch_get_irn_register_req arch_get_irn_register_reqs_in
           arch_reg_is_allocatable non_ssa_regs n_registers lv block pf).
Proof.
  unfold verify_block_register_allocation. frame_steps;
    first [apply frame_value_used | apply frame_verify_allocated_node
          | apply frame_value_def | apply frame_problem].
Qed.

Lemma frame_be_verify_register_allocation :
  frame (be_verify_register_allocation irg_block_walk_graph be_lv_t
           be_liveness_new be_liveness_compute_sets be_liveness_free
           be_lv_nodes arch_get_irn_register_req
           arch_get_irn_register_reqs_in arch_reg_is_allocatable non_ssa_regs
           n_registers).
Proof.
  unfold be_verify_register_allocation. frame_steps; auto.
  apply frame_verify_block_register_allocation.
Qed.

End frames.

(** C8.  Running the verifiers does not change the graph: whatever
    [be_verify_schedule], [be_verify_register_pressure] and
    [be_verify_register_allocation] return, the world they leave has the
    graph they started in, with its nodes, their inputs and users, and its
    schedules, and a diagnostic stream that was only appended to.  The
    liveness analysis they call is taken to leave the graph alone. *)
Theorem verifiers_leave_the_graph_unchanged
    (is_op_cfopcode : opcode → bool)
    (arch_is_irn_not_scheduled : be_graph → irn → bool)
    (irg_block_walk_graph irg_walk_graph : be_graph → list irn)
    (be_lv_t : Type)
    (be_liveness_new : M be_lv_t)
    (be_liveness_compute_sets : be_lv_t → M be_lv_t)
    (be_liveness_free : be_lv_t → M unit)
    (be_liveness_end_of_block :
       be_graph → be_lv_t → arch_register_class → irn → gset irn)
    (be_liveness_transfer :
       be_graph → arch_register_class → irn → gset irn → gset irn)
    (be_get_n_allocatable_regs : be_graph → arch_register_class → Z)
    (be_lv_nodes : be_graph → be_lv_t → irn → be_lv_state_t → list irn)
    (arch_get_irn_register_req : be_graph → irn → arch_register_req)
    (arch_get_irn_register_reqs_in :
       be_graph → irn → option (list arch_register_req))
    (arch_reg_is_allocatable : arch_register_req → arch_register → bool)
    (non_ssa_regs : be_graph → option (gset nat))
    (n_registers : nat) (cls : arch_register_class) (w : world) :
  frame be_liveness_new →
  (∀ lv, frame (be_liveness_compute_sets lv)) →
  (∀ lv, frame (be_liveness_free lv)) →
  (∀ b w',
     be_verify_schedule is_op_cfopcode arch_is_irn_not_scheduled
       irg_block_walk_graph irg_walk_graph w = Some (b, w') →
     w_irg w' = w_irg w ∧ ∃ ds, w_stderr w' = w_stderr w ++ ds)
  ∧ (∀ b w',
       be_verify_register_pressure irg_block_walk_graph be_lv_t
         be_liveness_new be_liveness_compute_sets be_liveness_free
         be_liveness_end_of_block be_liveness_transfer
         be_get_n_allocatable_regs cls w = Some (b, w') →
       w_irg w' = w_irg w ∧ ∃ ds, w_stderr w' = w_stderr w ++ ds)
  ∧ (∀ b w',
       be_verify_register_allocation irg_block_walk_graph be_lv_t
         be_liveness_new be_liveness_compute_sets be_liveness_free
         be_lv_nodes arch_get_irn_register_req arch_get_irn_register_reqs_in
         arch_reg_is_allocatable non_ssa_regs n_registers w = Some (b, w') →
       w_irg w' = w_irg w ∧ ∃ ds, w_stderr w' = w_stderr w ++ ds).
Proof.
  intros Hnew Hcompute Hfree. split_and!; intros b w' Hrun.
  - by eapply frame_be_verify_schedule.
  - by eapply frame_be_verify_register_pressure.
  - by eapply frame_be_verify_register_allocation.
Qed.

(** ** Results: what a schedule that passes the verifier looks like *)

(** [returns m w Q]: run in [w], [m] returns, with a result and a world
    that satisfy [Q]. *)
Definition returns {A} (m : M A) (w : world) (Q : A → world → Prop) : Prop :=
  match m w with
  | Some (a, w') => Q a w'
  | None => False
  end.

Lemma returns_ret {A} (a : A) w (Q : A → world → Prop) :
  Q a w → returns (ret a) w Q.
Proof. done. Qed.

Lemma returns_bind {A B} (m : M A) (k : A → M B) w (Q : B → world → Prop) :
  returns m w (λ a w', returns (k a) w' Q) → returns (bind m k) w Q.
Proof. unfold returns, bind. by destruct (m w) as [[a w'] |]. Qed.

Lemma returns_rd {A} (f : be_graph → A) w (Q : A → world → Prop) :
  Q (f (w_irg w)) w → returns (rd f) w Q.
Proof. done. Qed.

Lemma returns_rd_opt {A} (f : be_graph → option A) a w
    (Q : A → world → Prop) :
  f (w_irg w) = Some a → Q a w → returns (rd_opt f) w Q.
Proof. unfold returns, rd_opt. by intros ->. Qed.

Lemma returns_mono {A} (m : M A) w (Q Q' : A → world → Prop) :
  returns m w Q → (∀ a w', Q a w' → Q' a w') → returns m w Q'.
Proof. unfold returns. destruct (m w) as [[a w'] |]; [auto | done]. Qed.

Lemma returns_foldM {S X} (f : S → X → M S) (I : list X → S → world → Prop)
    l s w :
  I l s w →
  (∀ x l' s w, I (x :: l') s w → returns (f s x) w (I l')) →
  returns (foldM f s l) w (I []).
Proof.
  intros HI Hf. revert s w HI. induction l as [| x l IH]; intros s w HI.
  - by apply returns_ret.
  - simpl. apply returns_bind. eapply returns_mono; [by apply Hf |].
    intros s' w' HI'. by apply IH.
Qed.

Section schedule.
Context (is_op_cfopcode : opcode → bool)
        (arch_is_irn_not_scheduled : be_graph → irn → bool)
        (irg_block_walk_graph : be_graph → list irn)
        (irg_walk_graph : be_graph → list irn)
        (g : be_graph).

(** The six properties of the schedule [l] of [block]. *)
Definition phis_first (l : list irn) : Prop :=
  ∀ i j n m, l !! i = Some n → l !! j = Some m → (i < j)%nat →
    is_Phi g m = true → is_Phi g n = true.

Definition timestamps_increase (l : list irn) : Prop :=
  ∀ i j a b, l !! i = Some a → l !! j = Some b → (i < j)%nat →
    sched_get_time_step g a < sched_get_time_step g b.

Definition in_block (block : irn) (l : list irn) : Prop :=
  ∀ n, n ∈ l → get_nodes_block g n = Some block.

Definition one_cfop (l : list irn) : Prop :=
  ∀ i j a b, l !! i = Some a → l !! j = Some b →
    is_cfop is_op_cfopcode g a = true → is_cfop is_op_cfopcode g b = true →
    i = j.

Definition none_dead (l : list irn) : Prop :=
  ∀ n, n ∈ l → get_irn_n_edges g n ≠ 0%nat.

Definition uses_after_defs (block : irn) (l : list irn) : Prop :=
  ∀ n ins arg, n ∈ l → is_Phi g n = false →
    get_irn_in g n = Some ins → arg ∈ ins →
    get_nodes_block g arg = Some block → sched_is_scheduled g arg = true →
    sched_get_time_step g arg < sched_get_time_step g n.

Definition schedule_verified (block : irn) (l : list irn) : Prop :=
  phis_first l ∧ timestamps_increase l ∧ in_block block l ∧ one_cfop l
  ∧ none_dead l ∧ uses_after_defs block l.

(** Every pointer the walker follows leads to a node: the block is a
    Block, and the scheduled nodes and their inputs are nodes other than
    Blocks. *)
Definition is_value (n : irn) : Prop :=
  ∃ nd, get_node g n = Some nd ∧ n_op nd ≠ iro_Block.

Definition schedule_wf (block : irn) : Prop :=
  is_Block g block = true
  ∧ ∀ n, n ∈ sched_nodes g block →
      is_value n ∧ ∀ ins a, get_irn_in g n = Some ins → a ∈ ins → is_value a.

Lemma returns_env_problem c node what args env w
    (Q : be_verify_schedule_env_t → world → Prop) :
  (∀ w', w_irg w' = w_irg w →
     Q (mk_be_verify_schedule_env_t (c || problem_found env) (scheduled env))
       w') →
  returns (env_problem c node what args env) w Q.
Proof.
  intros HQ. unfold env_problem, problem, returns, bind.
  destruct c; simpl; by apply HQ.
Qed.

Lemma is_value_block n : is_value n → ∃ b, get_nodes_block g n = Some b.
Proof.
  intros (nd & Hnd & Hop). unfold get_nodes_block. rewrite Hnd. simpl.
  rewrite bool_decide_eq_false_2 by done. by eexists.
Qed.

Lemma returns_verify_uses block node nodetime ins env w :
  w_irg w = g → (∀ a, a ∈ ins → is_value a) →
  returns (foldM (verify_use block node nodetime) env ins) w
    (λ env' w',
       w_irg w' = g ∧ scheduled env' = scheduled env
       ∧ (problem_found env' = false →
          problem_found env = false
          ∧ ∀ arg, arg ∈ ins → get_nodes_block g arg = Some block →
              sched_is_scheduled g arg = true →
              sched_get_time_step g arg < nodetime)).
Proof.
  revert env w. induction ins as [| a ins IH]; intros env w Hw Hins.
  - apply returns_ret. split_and!; [done.. |]. intros ->. split; [done |].
    intros arg Harg. by apply elem_of_nil in Harg.
  - simpl. apply returns_bind. unfold verify_use at 1.
    destruct (is_value_block a) as [b Hb]; [apply Hins; left |].
    apply returns_bind. eapply returns_rd_opt; [by rewrite Hw |].
    apply returns_bind, returns_rd. rewrite Hw.
    assert (Htail : ∀ a, a ∈ ins → is_value a).
    { intros a' Ha'. apply Hins. by right. }
    destruct (bool_decide (b ≠ block) || negb (sched_is_scheduled g a))
      eqn:Hskip.
    + apply returns_ret.
      eapply returns_mono; [by apply IH |].
      intros env' w' (Hw' & Hs' & Hp'). split_and!; [done.. |].
      intros Hpf. destruct (Hp' Hpf) as [Hpf0 Hargs]. split; [done |].
      intros arg [-> | Harg]%elem_of_cons Hblock Hsched; [| by apply Hargs].
      apply orb_true_iff in Hskip as [Hne%bool_decide_eq_true | Hns].
      * congruence.
      * by rewrite Hsched in Hns.
    + apply returns_bind, returns_rd. rewrite Hw.
      apply returns_env_problem. intros w1 Hw1.
      eapply returns_mono; [apply IH; [congruence | done] |].
      intros env' w' (Hw' & Hs' & Hp'). split_and!; [done.. |].
      intros Hpf. destruct (Hp' Hpf) as [Hpf0 Hargs]. simpl in Hpf0.
      apply orb_false_elim in Hpf0 as [Hlt Hpf0]. split; [done |].
      intros arg [-> | Harg]%elem_of_cons Hblock Hsched; [| by apply Hargs].
      apply Z.leb_gt in Hlt. lia.
Qed.

(** A check leaves the bit set of the environment alone and cannot clear
    [problem_found]. *)
Lemma returns_check c node what args env w
    (Q : be_verify_schedule_env_t → world → Prop) :
  (∀ w' p, w_irg w' = w_irg w →
     (p = false → c = false ∧ problem_found env = false) →
     Q (mk_be_verify_schedule_env_t p (scheduled env)) w') →
  returns (env_problem c node what args env) w Q.
Proof.
  intros HQ. apply returns_env_problem. intros w' Hw'.
  apply HQ; [done |]. by intros [? ?]%orb_false_elim.
Qed.

Lemma returns_no_check env w
    (Q : be_verify_schedule_env_t → world → Prop) :
  (∀ w' p, w_irg w' = w_irg w →
     (p = false → problem_found env = false) →
     Q (mk_be_verify_schedule_env_t p (scheduled env)) w') →
  returns (ret env) w Q.
Proof. intros HQ. destruct env. by apply HQ. Qed.

Lemma is_Block_has_op block o :
  is_Block g block = true → o ≠ iro_Block → has_op g o block = false.
Proof.
  unfold is_Block, has_op. destruct (get_node g block) as [nd |]; [| done].
  intros ->%bool_decide_eq_true Ho. by apply bool_decide_eq_false_2.
Qed.

Lemma skip_keeps_returns block l c fuel :
  is_Block g block = true → (c < fuel)%nat →
  is_Some (skip_keeps fuel g block l c).
Proof.
  intros Hblock. revert fuel. induction c as [| c IH]; intros fuel Hfuel;
    (destruct fuel as [| fuel]; [lia |]); simpl.
  - unfold be_is_Keep, be_is_CopyKeep.
    by rewrite !is_Block_has_op by done.
  - destruct (_ || _); [| done]. apply IH. lia.
Qed.

Lemma keep_after_pred_descends block l ins c fuel :
  is_Block g block = true → (c < fuel)%nat → (1 ≤ c)%nat →
  is_Some (keep_after_pred fuel g block l ins c).
Proof.
  intros Hblock. revert fuel. induction c as [| c IH]; intros fuel Hfuel Hc;
    [lia |].
  destruct fuel as [| fuel]; [lia |]. simpl. destruct (existsb _ _); [done |].
  destruct c as [| c].
  - simpl. unfold is_Phi. by rewrite is_Block_has_op by done.
  - destruct (is_Phi g _); [| done]. apply IH; lia.
Qed.

Lemma keep_after_pred_returns block l ins c :
  is_Block g block = true →
  is_Some (keep_after_pred (2 * length l + 3) g block l ins c).
Proof.
  intros Hblock. destruct c as [| c].
  - replace (2 * length l + 3)%nat with (S (2 * length l + 2)) by lia.
    simpl. destruct (existsb _ _); [done |].
    destruct (length l) as [| k] eqn:Hlen.
    + simpl. unfold is_Phi. by rewrite is_Block_has_op by done.
    + destruct (is_Phi g _); [| done].
      apply keep_after_pred_descends; [done | lia..].
  - destruct (decide (S c < 2 * length l + 3)%nat) as [Hlt | Hge].
    { apply keep_after_pred_descends; [done | lia..]. }
    (* past the schedule: [nth] yields the block *)
    replace (2 * length l + 3)%nat with (S (2 * length l + 2)) by lia.
    simpl. destruct (existsb _ _); [done |].
    destruct c as [| c]; [lia |].
    simpl. rewrite nth_overflow by lia.
    unfold is_Phi. by rewrite is_Block_has_op by done.
Qed.

Lemma returns_phi_check (phi : bool) non_phi_found block node env w
    (Q : be_verify_schedule_env_t → world → Prop) :
  (∀ w' p, w_irg w' = w_irg w →
     (p = false →
      problem_found env = false ∧ (phi = true → non_phi_found = None)) →
     Q (mk_be_verify_schedule_env_t p (scheduled env)) w') →
  returns
    (match phi, non_phi_found with
     | true, Some non_phi =>
         env_problem true block phi_after_non_phi [node; non_phi] env
     | _, _ => ret env
     end) w Q.
Proof.
  intros HQ. destruct phi, non_phi_found as [non_phi |];
    first [apply returns_check | apply returns_no_check];
    intros w' p Hw' Hp; (apply HQ; [done |]); intros Hpf;
    specialize (Hp Hpf); naive_solver.
Qed.

Lemma returns_cfop_check (cfop : bool) cfchange_found block node env w
    (Q : be_verify_schedule_env_t → world → Prop) :
  (∀ w' p, w_irg w' = w_irg w →
     (p = false →
      problem_found env = false ∧ (cfop = true → cfchange_found = None)) →
     Q (mk_be_verify_schedule_env_t p (scheduled env)) w') →
  returns
    (match cfop, cfchange_found with
     | true, Some cfchange =>
         env_problem true block additional_cfop [node; cfchange] env
     | true, None => ret env
     | false, Some _ =>
         let! keep := rd (λ g, be_is_Keep g node) in
         env_problem (negb keep) block scheduled_after_cfop [node] env
     | false, None => ret env
     end) w Q.
Proof.
  intros HQ. destruct cfop, cfchange_found as [cfchange |];
    try (apply returns_bind, returns_rd);
    first [apply returns_check | apply returns_no_check];
    intros w' p Hw' Hp; (apply HQ; [done |]); intros Hpf;
    specialize (Hp Hpf); naive_solver.
Qed.

Lemma returns_uses_check (phi : bool) block node ins env w
    (Q : be_verify_schedule_env_t → world → Prop) :
  w_irg w = g → get_irn_in g node = Some ins →
  (∀ a, a ∈ ins → is_value a) →
  (∀ w' p, w_irg w' = g →
     (p = false →
      problem_found env = false
      ∧ (phi = false →
         ∀ arg, arg ∈ ins → get_nodes_block g arg = Some block →
           sched_is_scheduled g arg = true →
           sched_get_time_step g arg < sched_get_time_step g node)) →
     Q (mk_be_verify_schedule_env_t p (scheduled env)) w') →
  returns
    (if phi then ret env
     else
       let! nodetime := rd (λ g, sched_get_time_step g node) in
       let! ins := rd_opt (λ g, get_irn_in g node) in
       foldM (verify_use block node nodetime) env ins) w Q.
Proof.
  intros Hw Hin Hins HQ. destruct phi.
  - apply returns_no_check. intros w' p Hw' Hp. apply HQ; [congruence |].
    intros Hpf. by split; [apply Hp |].
  - apply returns_bind, returns_rd.
    apply returns_bind. eapply returns_rd_opt; [by rewrite Hw |].
    eapply returns_mono; [by apply returns_verify_uses |].
    rewrite Hw. intros [p' s'] w' (Hw' & Hs' & Hp'). simpl in Hs', Hp'.
    subst s'. apply HQ; [done |]. intros Hpf.
    destruct (Hp' Hpf) as [Hpf0 Hargs]. by split.
Qed.

Lemma returns_keep_check (keep : bool) block l pos node ins env w
    (Q : be_verify_schedule_env_t → world → Prop) :
  w_irg w = g → is_Block g block = true → get_irn_in g node = Some ins →
  (pos < 2 * length l + 3)%nat →
  (∀ w' p, w_irg w' = g → (p = false → problem_found env = false) →
     Q (mk_be_verify_schedule_env_t p (scheduled env)) w') →
  returns
    (if keep then
       let fuel := (2 * length l + 3)%nat in
       let! prev := rd_opt (λ g, skip_keeps fuel g block l pos) in
       let! ins := rd_opt (λ g, get_irn_in g node) in
       let! ok := rd_opt (λ g, keep_after_pred fuel g block l ins prev) in
       env_problem (negb ok) block not_after_its_pred [node] env
     else ret env) w Q.
Proof.
  intros Hw Hblock Hin Hpos HQ. destruct keep.
  - cbv zeta.
    destruct (skip_keeps_returns block l pos (2 * length l + 3))
      as [prev Hprev]; [done.. |].
    destruct (keep_after_pred_returns block l ins prev) as [ok Hok]; [done |].
    apply returns_bind. eapply returns_rd_opt; [by rewrite Hw |].
    apply returns_bind. eapply returns_rd_opt; [by rewrite Hw |].
    apply returns_bind. eapply returns_rd_opt; [by rewrite Hw |].
    apply returns_check. intros w' p Hw' Hp. apply HQ; [congruence |].
    intros Hpf. by apply Hp.
  - apply returns_no_check. intros w' p Hw' Hp. apply HQ; [congruence |].
    done.
Qed.

(** What the walker checks at one node, given the state left by the nodes
    before it. *)
Definition node_verified (block : irn) (non_phi_found cfchange_found : option irn)
    (last_timestep : Z) (node : irn) : Prop :=
  get_nodes_block g node = Some block
  ∧ last_timestep < sched_get_time_step g node
  ∧ (is_Phi g node = true → non_phi_found = None)
  ∧ (is_cfop is_op_cfopcode g node = true → cfchange_found = None)
  ∧ get_irn_n_edges g node ≠ 0%nat
  ∧ (is_Phi g node = false →
     ∀ ins arg, get_irn_in g node = Some ins → arg ∈ ins →
       get_nodes_block g arg = Some block →
       sched_is_scheduled g arg = true →
       sched_get_time_step g arg < sched_get_time_step g node).

(** The loop variables after [node]. *)
Definition non_phi_after (non_phi_found : option irn) (node : irn)
    : option irn :=
  if is_Phi g node then non_phi_found else Some node.

Definition cfchange_after (cfchange_found : option irn) (node : irn)
    : option irn :=
  match is_cfop is_op_cfopcode g node, cfchange_found with
  | true, None => Some node
  | _, found => found
  end.

Lemma returns_verify_scheduled_node block l st pos node w :
  w_irg w = g → is_Block g block = true → (pos ≤ length l)%nat →
  is_value node →
  (∀ ins a, get_irn_in g node = Some ins → a ∈ ins → is_value a) →
  returns (verify_scheduled_node is_op_cfopcode block l st (pos, node)) w
    (λ st' w',
       w_irg w' = g
       ∧ ws_non_phi_found st' = non_phi_after (ws_non_phi_found st) node
       ∧ ws_cfchange_found st' = cfchange_after (ws_cfchange_found st) node
       ∧ ws_last_timestep st' = sched_get_time_step g node
       ∧ (problem_found (ws_env st') = false →
          problem_found (ws_env st) = false
          ∧ node_verified block (ws_non_phi_found st) (ws_cfchange_found st)
              (ws_last_timestep st) node)).
Proof.
  intros Hw Hblock Hpos (nd & Hnd & Hop) Hins. unfold verify_scheduled_node.
  assert (Hnb : get_nodes_block g node = Some (n_block nd)).
  { unfold get_nodes_block. rewrite Hnd. simpl.
    by rewrite bool_decide_eq_false_2. }
  assert (Hin : get_irn_in g node = Some (n_in nd)).
  { unfold get_irn_in. by rewrite Hnd. }
  destruct st as [[pf0 sched0] non_phi_found cfchange_found last_timestep].
  cbn [ws_env ws_non_phi_found ws_cfchange_found ws_last_timestep
       problem_found scheduled].
  apply returns_bind, returns_check. intros w1 p1 Hw1 Hp1. rewrite Hw in Hw1.
  cbn [problem_found scheduled].
  apply returns_bind. eapply returns_rd_opt; [by rewrite Hw1 |].
  apply returns_bind, returns_check. intros w2 p2 Hw2 Hp2. rewrite Hw1 in Hw2.
  apply returns_bind, returns_rd. rewrite Hw2.
  apply returns_bind, returns_check. intros w3 p3 Hw3 Hp3. rewrite Hw2 in Hw3.
  apply returns_bind. eapply returns_rd_opt; [by rewrite Hw3, Hnd |].
  apply returns_bind, returns_check. intros w4 p4 Hw4 Hp4. rewrite Hw3 in Hw4.
  apply returns_bind, returns_rd. rewrite Hw4.
  cbn [problem_found scheduled] in *.
  apply returns_bind, returns_phi_check. intros w5 p5 Hw5 Hp5.
  rewrite Hw4 in Hw5. cbn [problem_found scheduled] in *.
  apply returns_bind, returns_rd. rewrite Hw5.
  apply returns_bind, returns_cfop_check. intros w6 p6 Hw6 Hp6.
  rewrite Hw5 in Hw6. cbn [problem_found scheduled] in *.
  apply returns_bind.
  apply (returns_uses_check _ block node (n_in nd));
    [done | exact Hin | intros a Ha; exact (Hins _ a Hin Ha) |].
  intros w7 p7 Hw7 Hp7. cbn [problem_found scheduled] in *.
  apply returns_bind, returns_rd. rewrite Hw7.
  apply returns_bind, returns_check. intros w8 p8 Hw8 Hp8. rewrite Hw7 in Hw8.
  cbn [problem_found scheduled] in *.
  apply returns_bind, returns_rd. rewrite Hw8.
  apply returns_bind.
  apply (returns_keep_check _ block l pos node (n_in nd));
    [done | done | exact Hin | lia |].
  intros w9 p9 Hw9 Hp9. cbn [problem_found scheduled] in *.
  apply returns_ret.
  cbn [ws_env ws_non_phi_found ws_cfchange_found ws_last_timestep
       problem_found scheduled].
  unfold cfchange_after.
  split_and!; [done | done | by destruct (is_cfop _ _ _), cfchange_found
              | done |].
  intros Hpf9.
  specialize (Hp9 Hpf9).
  destruct (Hp8 Hp9) as [Hdead%bool_decide_eq_false Hpf7].
  destruct (Hp7 Hpf7) as [Hpf6 Huses]. destruct (Hp6 Hpf6) as [Hpf5 Hcf].
  destruct (Hp5 Hpf5) as [Hpf4 Hphi]. destruct (Hp4 Hpf4) as [_ Hpf3].
  destruct (Hp3 Hpf3) as [Htime%Z.leb_gt Hpf2].
  destruct (Hp2 Hpf2) as [Hnblock%bool_decide_eq_false Hpf1].
  destruct (Hp1 Hpf1) as [_ Hpf0]. split; [done |].
  unfold node_verified. split_and!; try done.
  - rewrite Hnb. f_equal. by destruct (decide (n_block nd = block)).
  - intros Hphi' ins arg Hin'. rewrite Hin in Hin'. injection Hin' as <-.
    by apply Huses.
Qed.

(** The checks along the rest of a schedule, from given loop variables. *)
Fixpoint verified_from (block : irn) (non_phi_found cfchange_found : option irn)
    (last_timestep : Z) (rest : list irn) : Prop :=
  match rest with
  | [] => True
  | node :: rest =>
      node_verified block non_phi_found cfchange_found last_timestep node
      ∧ verified_from block (non_phi_after non_phi_found node)
          (cfchange_after cfchange_found node) (sched_get_time_step g node)
          rest
  end.

Lemma returns_walk_nodes block l rest k st w :
  w_irg w = g → is_Block g block = true → (k + length rest ≤ length l)%nat →
  (∀ n, n ∈ rest →
     is_value n
     ∧ ∀ ins a, get_irn_in g n = Some ins → a ∈ ins → is_value a) →
  returns
    (foldM (verify_scheduled_node is_op_cfopcode block l) st
       (imap (λ i n, ((k + i)%nat, n)) rest)) w
    (λ st' w',
       w_irg w' = g
       ∧ (problem_found (ws_env st') = false →
          problem_found (ws_env st) = false
          ∧ verified_from block (ws_non_phi_found st) (ws_cfchange_found st)
              (ws_last_timestep st) rest)).
Proof.
  intros Hw Hblock. revert k st w Hw.
  induction rest as [| node rest IH]; intros k st w Hw Hk Hrest.
  - by apply returns_ret.
  - rewrite imap_cons. cbn [foldM]. apply returns_bind.
    destruct (Hrest node) as [Hnode Hnode_ins]; [left |].
    eapply returns_mono.
    { apply returns_verify_scheduled_node; [done | done | | done | done].
      simpl in Hk. lia. }
    intros st1 w1 (Hw1 & Hnpf & Hcf & Hlast & Hp1).
    rewrite (imap_ext _ (λ i n, ((S k + i)%nat, n)))
      by (intros i x _; simpl; f_equal; lia).
    eapply returns_mono.
    { apply IH; [done | simpl in Hk; lia |].
      intros n Hn. apply Hrest. by right. }
    intros st2 w2 (Hw2 & Hp2). split; [done |]. intros Hpf.
    destruct (Hp2 Hpf) as [Hpf1 Hrest_ok]. destruct (Hp1 Hpf1) as [Hpf0 Hok].
    split; [done |]. simpl. split; [done |].
    by rewrite <- Hnpf, <- Hcf, <- Hlast.
Qed.

Lemma elem_of_lookup_tail {A} (l : list A) (j : nat) (x : A) :
  l !! j = Some x → x ∈ l.
Proof. apply list_elem_of_lookup_2. Qed.

Lemma verified_from_spec block non_phi_found cfchange_found last l :
  verified_from block non_phi_found cfchange_found last l →
  schedule_verified block l
  ∧ (∀ n, n ∈ l → last < sched_get_time_step g n)
  ∧ (non_phi_found ≠ None → ∀ n, n ∈ l → is_Phi g n = false)
  ∧ (cfchange_found ≠ None →
     ∀ n, n ∈ l → is_cfop is_op_cfopcode g n = false).
Proof.
  revert non_phi_found cfchange_found last.
  induction l as [| node l IH]; intros non_phi_found cfchange_found last.
  { intros _. unfold schedule_verified, phis_first, timestamps_increase,
      in_block, one_cfop, none_dead, uses_after_defs.
    split_and!;
      first [ by intros ? ? ? ? Hi; rewrite lookup_nil in Hi
            | by intros ? Hn%elem_of_nil
            | by intros ? ? ? Hn%elem_of_nil
            | by intros _ ? Hn%elem_of_nil ]. }
  intros [(Hb & Ht & Hphi & Hcf & Hdead & Huses) Hrest].
  destruct (IH _ _ _ Hrest)
    as ((IHphis & IHtime & IHblock & IHcf & IHdead & IHuses)
        & IHlast & IHnpf & IHcfn).
  assert (Hnpf : is_Phi g node = false → ∀ n, n ∈ l → is_Phi g n = false).
  { intros Hn. apply IHnpf. unfold non_phi_after. by rewrite Hn. }
  assert (Hcfn : is_cfop is_op_cfopcode g node = true →
                 ∀ n, n ∈ l → is_cfop is_op_cfopcode g n = false).
  { intros Hn. apply IHcfn. unfold cfchange_after. rewrite Hn.
    by destruct cfchange_found. }
  split_and!.
  - split_and!.
    + intros [| i] [| j] n m Hi Hj Hij Hm; simpl in Hi, Hj; try lia.
      * injection Hi as <-. destruct (is_Phi g node) eqn:Hn; [done |].
        rewrite (Hnpf eq_refl m) in Hm; [done |].
        by eapply elem_of_lookup_tail.
      * eapply (IHphis i j); [done.. | lia | done].
    + intros [| i] [| j] a b Hi Hj Hij; simpl in Hi, Hj; try lia.
      * injection Hi as <-. apply IHlast. by eapply elem_of_lookup_tail.
      * eapply (IHtime i j); [done.. | lia].
    + intros n [-> | Hn]%elem_of_cons; [done | by apply IHblock].
    + intros [| i] [| j] a b Hi Hj Ha Hb'; simpl in Hi, Hj.
      * done.
      * injection Hi as <-.
        rewrite (Hcfn Ha b) in Hb'; [done | by eapply elem_of_lookup_tail].
      * injection Hj as <-.
        rewrite (Hcfn Hb' a) in Ha; [done | by eapply elem_of_lookup_tail].
      * f_equal. by eapply (IHcf i j).
    + intros n [-> | Hn]%elem_of_cons; [done | by apply IHdead].
    + intros n ins arg [-> | Hn]%elem_of_cons.
      * intros Hphi'. by apply (Huses Hphi' ins arg).
      * by apply IHuses.
  - intros n [-> | Hn]%elem_of_cons; [done |].
    specialize (IHlast n Hn). lia.
  - intros Hne n [-> | Hn]%elem_of_cons.
    + destruct (is_Phi g node) eqn:Hphi'; [| done].
      by specialize (Hphi eq_refl).
    + apply IHnpf; [| done]. unfold non_phi_after.
      by destruct (is_Phi g node).
  - intros Hne n [-> | Hn]%elem_of_cons.
    + destruct (is_cfop is_op_cfopcode g node) eqn:Hcf'; [| done].
      by specialize (Hcf eq_refl).
    + apply IHcfn; [| done]. unfold cfchange_after.
      by destruct (is_cfop is_op_cfopcode g node), cfchange_found.
Qed.

Lemma returns_verify_schedule_walker block env w :
  w_irg w = g → schedule_wf block →
  returns (verify_schedule_walker is_op_cfopcode block env) w
    (λ env' w',
       w_irg w' = g
       ∧ (problem_found env' = false →
          problem_found env = false
          ∧ schedule_verified block (sched_nodes g block))).
Proof.
  intros Hw [Hblock Hwf]. unfold verify_schedule_walker.
  apply returns_bind, returns_rd. rewrite Hw. apply returns_bind.
  eapply returns_mono.
  { apply (returns_walk_nodes block _ (sched_nodes g block) 0);
      [done | done | simpl; lia | done]. }
  intros st w' (Hw' & Hp). apply returns_ret. split; [done |].
  intros Hpf. destruct (Hp Hpf) as [Hpf0 Hok]. split; [done |].
  by apply verified_from_spec in Hok as [Hok _].
Qed.

Lemma returns_check_schedules nodes env w :
  returns (foldM (λ env node,
                    check_schedule arch_is_irn_not_scheduled node env)
             env nodes) w
    (λ env' _, problem_found env' = false → problem_found env = false).
Proof.
  revert env w. induction nodes as [| node nodes IH]; intros env w.
  - by apply returns_ret.
  - simpl. apply returns_bind. unfold check_schedule at 1.
    apply returns_bind, returns_rd. apply returns_check. intros w' p _ Hp.
    eapply returns_mono; [apply IH |]. simpl. intros env' _ Hp' Hpf.
    by apply Hp, Hp'.
Qed.

Lemma returns_walk_blocks blocks env w :
  w_irg w = g → (∀ block, block ∈ blocks → schedule_wf block) →
  returns (foldM (λ env block,
                    verify_schedule_walker is_op_cfopcode block env)
             env blocks) w
    (λ env' w',
       w_irg w' = g
       ∧ (problem_found env' = false →
          problem_found env = false
          ∧ ∀ block, block ∈ blocks →
              schedule_verified block (sched_nodes g block))).
Proof.
  revert env w. induction blocks as [| block blocks IH]; intros env w Hw Hwf.
  - apply returns_ret. split; [done |]. intros ->. split; [done |].
    intros block Hb. by apply elem_of_nil in Hb.
  - simpl. apply returns_bind. eapply returns_mono.
    { apply returns_verify_schedule_walker; [done |]. apply Hwf. left. }
    intros env1 w1 (Hw1 & Hp1). eapply returns_mono.
    { apply IH; [done |]. intros b Hb. apply Hwf. by right. }
    intros env2 w2 (Hw2 & Hp2). split; [done |]. intros Hpf.
    destruct (Hp2 Hpf) as [Hpf1 Hrest]. destruct (Hp1 Hpf1) as [Hpf0 Hblock].
    split; [done |]. intros b [-> | Hb]%elem_of_cons; [done | by apply Hrest].
Qed.

(** A check of [schedule_wf] that can be run. *)
Definition is_valueb (n : irn) : bool :=
  match get_node g n with
  | Some nd => bool_decide (n_op nd ≠ iro_Block)
  | None => false
  end.

Definition schedule_wfb (block : irn) : bool :=
  is_Block g block
  && forallb (λ n, is_valueb n
                   && match get_irn_in g n with
                      | Some ins => forallb is_valueb ins
                      | None => true
                      end)
       (sched_nodes g block).

Lemma is_valueb_spec n : is_valueb n = true → is_value n.
Proof.
  unfold is_valueb, is_value. destruct (get_node g n) as [nd |]; [| done].
  intros H%bool_decide_eq_true. by exists nd.
Qed.

Lemma schedule_wfb_spec block : schedule_wfb block = true → schedule_wf block.
Proof.
  unfold schedule_wfb, schedule_wf.
  intros [Hblock Hall]%andb_true_iff. split; [done |].
  intros n Hn%list_elem_of_In.
  rewrite forallb_forall in Hall. apply Hall in Hn.
  apply andb_true_iff in Hn as [Hn Hins]. split; [by apply is_valueb_spec |].
  intros ins a Hin Ha%list_elem_of_In. rewrite Hin in Hins.
  rewrite forallb_forall in Hins. by apply is_valueb_spec, Hins.
Qed.

End schedule.

(** C7.  On a graph whose schedules hold nodes, [be_verify_schedule]
    returns, and it returns true only if, in every block the walker
    visits, the Phis come before all other nodes, the time steps strictly
    increase along the schedule, every scheduled node belongs to the
    block, at most one control flow operation is scheduled, no scheduled
    node is without users, and every scheduled argument of a scheduled
    non-Phi node that lies in the same block has a smaller time step than
    its user.  So any violation makes it return false. *)
Theorem be_verify_schedule_true_only_if
    (is_op_cfopcode : opcode → bool)
    (arch_is_irn_not_scheduled : be_graph → irn → bool)
    (irg_block_walk_graph irg_walk_graph : be_graph → list irn)
    (g : be_graph) (stderr : list diagnostic) :
  (∀ block, block ∈ irg_block_walk_graph g → schedule_wf g block) →
  ∃ b w',
    be_verify_schedule is_op_cfopcode arch_is_irn_not_scheduled
      irg_block_walk_graph irg_walk_graph (mk_world g stderr) = Some (b, w')
    ∧ (b = true →
       ∀ block, block ∈ irg_block_walk_graph g →
         schedule_verified is_op_cfopcode g block (sched_nodes g block)).
Proof.
  intros Hwf.
  assert (H : returns
                (be_verify_schedule is_op_cfopcode arch_is_irn_not_scheduled
                   irg_block_walk_graph irg_walk_graph) (mk_world g stderr)
                (λ b _, b = true →
                   ∀ block, block ∈ irg_block_walk_graph g →
                     schedule_verified is_op_cfopcode g block
                       (sched_nodes g block))).
  { unfold be_verify_schedule. apply returns_bind, returns_rd.
    apply returns_bind. eapply returns_mono.
    { by apply returns_walk_blocks. }
    intros env1 w1 (Hw1 & Hp1). apply returns_bind, returns_rd.
    apply returns_bind. eapply returns_mono.
    { apply returns_check_schedules. }
    intros env2 w2 Hp2. apply returns_ret.
    intros Hpf%negb_true_iff. by apply Hp1, Hp2. }
  unfold returns in H. destruct (be_verify_schedule _ _ _ _ _)
    as [[b w'] |]; [| done]. by exists b, w'.
Qed.

End BeVerify.

(** ** A scheduled function

    [int f (int a) { return a + 1; }] for MIPS, after register allocation:
<<
      block 0 (start block)
        1 Start          2 Proj M (1, 0)   3 Proj sp (1, 1)   4 Proj a0 (1, 2)
        5 addiu (4)      6 ret (2, 3, 5)
      block 7 (end block)   in: [6]
        8 End
>>
    The schedule of block 0 is 1, 5, 6. *)
Module BeExample.

Import Be.

Definition sp : arch_register := mk_arch_register 29 29 false.
Definition a0 : arch_register := mk_arch_register 4 4 false.
Definition v0 : arch_register := mk_arch_register 2 2 false.

Definition node (op : opcode) (m : mode) (block : irn) (ins : list irn)
    (regs : list (nat * arch_register)) : be_node :=
  mk_be_node op m block ins 0 false (list_to_map regs) 0 0 ia32_attr_default.

Definition proj (m : mode) (block : irn) (pred : irn) (num : nat) : be_node :=
  mk_be_node iro_Proj m block [pred] num true ∅ 0 0 ia32_attr_default.

Definition gp : mode := firm_mode Firm.mode_Iu.

Definition nodes : list (irn * be_node) :=
  [ (0, node iro_Block mode_BB 0 [] []);
    (1, node iro_Start mode_T 0 [] [(1, sp); (2, a0)]);
    (2, proj mode_M 0 1 0);
    (3, proj gp 0 1 1);
    (4, proj gp 0 1 2);
    (5, node iro_mips_addiu gp 0 [4] [(0, v0)]);
    (6, node iro_mips_ret mode_X 0 [2; 3; 5] []);
    (7, node iro_Block mode_BB 7 [6] []);
    (8, node iro_End mode_X 7 [] []) ]%nat.

Definition irg_with_frame (frame_size : Z) : be_graph :=
  mk_be_graph (list_to_map nodes) (list_to_map [(0, [1; 5; 6]); (7, [])]%nat)
    (list_to_map [(1%nat, 1); (5%nat, 2); (6%nat, 3)]) 9 1 7 2 frame_size 0 0.

Definition irg : be_graph := irg_with_frame 16.

(** The same graph with the time steps of 5 and 6 exchanged. *)
Definition irg_late : be_graph :=
  mk_be_graph (irg_nodes irg) (irg_sched irg)
    (list_to_map [(1%nat, 1); (5%nat, 3); (6%nat, 2)]) 9 1 7 2 16 0 0.

Definition is_op_cfopcode (o : opcode) : bool :=
  match o with
  | iro_Jmp | iro_Return | iro_End | iro_mips_ret | iro_ia32_Jcc
  | iro_ia32_Return => true
  | _ => false
  end.

Definition arch_is_irn_not_scheduled (g : be_graph) (n : irn) : bool :=
  match get_node g n with
  | Some nd => bool_decide (n_op nd = iro_Proj) || n_not_scheduled nd
               || bool_decide (n_op nd = iro_Block)
               || bool_decide (n_op nd = iro_End)
  | None => true
  end.

Definition irg_block_walk_graph (g : be_graph) : list irn := [0; 7]%nat.
Definition irg_walk_graph (g : be_graph) : list irn :=
  [1; 2; 3; 4; 5; 6; 8]%nat.

End BeExample.

(** The verifiers on the function of [BeExample]. *)
Module BeVerifyExample.

Import Be BeVerify.

Lemma be_verify_schedule_true_only_if_witness :
  ∃ b w',
    be_verify_schedule BeExample.is_op_cfopcode
      BeExample.arch_is_irn_not_scheduled BeExample.irg_block_walk_graph
      BeExample.irg_walk_graph (mk_world BeExample.irg []) = Some (b, w')
    ∧ (b = true →
       ∀ block, block ∈ BeExample.irg_block_walk_graph BeExample.irg →
         schedule_verified BeExample.is_op_cfopcode BeExample.irg block
           (sched_nodes BeExample.irg block)).
Proof.
  apply be_verify_schedule_true_only_if.
  intros block Hblock. apply schedule_wfb_spec.
  apply list_elem_of_In in Hblock. simpl in Hblock.
  destruct Hblock as [<- | [<- | []]]; vm_compute; reflexivity.
Defined.

(** A trivial liveness analysis and register file for the example. *)
Definition no_req : arch_register_req :=
  mk_arch_register_req (mk_arch_register_class 0 32 true) 1 0 false.

Lemma verifiers_leave_the_graph_unchanged_witness :
  let w := mk_world BeExample.irg [] in
  (∀ b w',
     be_verify_schedule BeExample.is_op_cfopcode
       BeExample.arch_is_irn_not_scheduled BeExample.irg_block_walk_graph
       BeExample.irg_walk_graph w = Some (b, w') →
     w_irg w' = w_irg w ∧ ∃ ds, w_stderr w' = w_stderr w ++ ds)
  ∧ (∀ b w',
       be_verify_register_pressure BeExample.irg_block_walk_graph unit
         (ret ()) ret (λ _, ret ()) (λ _ _ _ _, ∅) (λ _ _ _ live, live)
         (λ _ _, 32) (mk_arch_register_class 0 32 true) w = Some (b, w') →
       w_irg w' = w_irg w ∧ ∃ ds, w_stderr w' = w_stderr w ++ ds)
  ∧ (∀ b w',
       be_verify_register_allocation BeExample.irg_block_walk_graph unit
         (ret ()) ret (λ _, ret ()) (λ _ _ _ _, []) (λ _ _, no_req)
         (λ _ _, Some [no_req; no_req; no_req]) (λ _ _, true) (λ _, None) 32
         w = Some (b, w') →
       w_irg w' = w_irg w ∧ ∃ ds, w_stderr w' = w_stderr w ++ ds).
Proof.
  apply verifiers_leave_the_graph_unchanged.
  - apply frame_ret.
  - intros lv. apply frame_ret.
  - intros lv. apply frame_ret.
Defined.
(** The verifiers do return on the example: its schedule passes, the one
    with the time steps exchanged does not, and the register pressure is
    within the 32 registers. *)
Example be_verify_schedule_accepts :
  (λ r : bool * world, (r.1, w_stderr r.2))
    <$> be_verify_schedule BeExample.is_op_cfopcode
          BeExample.arch_is_irn_not_scheduled BeExample.irg_block_walk_graph
          BeExample.irg_walk_graph (mk_world BeExample.irg [])
  = Some (true, []).
Proof. vm_compute. reflexivity. Qed.

Example be_verify_schedule_rejects :
  fst <$> be_verify_schedule BeExample.is_op_cfopcode
            BeExample.arch_is_irn_not_scheduled
            BeExample.irg_block_walk_graph BeExample.irg_walk_graph
            (mk_world BeExample.irg_late [])
  = Some false.
Proof. vm_compute. reflexivity. Qed.

Example be_verify_register_pressure_accepts :
  (λ r : bool * world, (r.1, w_stderr r.2))
    <$> be_verify_register_pressure BeExample.irg_block_walk_graph unit
          (ret ()) ret (λ _, ret ()) (λ _ _ _ _, ∅) (λ _ _ _ live, live)
          (λ _ _, 32) (mk_arch_register_class 0 32 true)
          (mk_world BeExample.irg [])
  = Some (true, []).
Proof. vm_compute. reflexivity. Qed.

Example be_verify_register_allocation_returns :
  fst <$> be_verify_register_allocation BeExample.irg_block_walk_graph unit
            (ret ()) ret (λ _, ret ()) (λ _ _ _ _, []) (λ _ _, no_req)
            (λ _ _, Some [no_req; no_req; no_req]) (λ _ _, true) (λ _, None)
            32 (mk_world BeExample.irg [])
  = Some false.
Proof. vm_compute. reflexivity. Qed.

End BeVerifyExample.

(** ** [ir/be/mips/mips_bearch.c]: prologue and epilogue *)

Module MipsBearch.

Import Be.

Definition REG_SP : arch_register := mk_arch_register 29 29 false.

Definition n_mips_ret_mem : nat := 0.
Definition n_mips_ret_stack : nat := 1.

Definition is_mips_ret (g : be_graph) (n : irn) : bool :=
  has_op g iro_mips_ret n.

(** [be_new_IncSP (sp, block, old_sp, offset, align)]: a new node in the
    mode of the class of [sp], with [sp] as its register. *)
Definition be_new_IncSP (g : be_graph) (sp : arch_register)
    (block old_sp : irn) (offset align : Z) : be_graph * irn :=
  add_node g
    (mk_be_node beo_IncSP (firm_mode Firm.mode_Iu) block [old_sp] 0 false
       {[ 0%nat := sp ]} offset align ia32_attr_default).

(** [be_get_Start_proj (irg, reg)]: the Proj of the output of Start that
    holds [reg]; it is there after code selection. *)
Definition be_get_Start_proj (g : be_graph) (reg : arch_register)
    : option irn :=
  nd ← get_node g (irg_start g);
  '(_, (pn, _)) ← list_find (λ '(_, r), r = reg)
                    (map_to_list (n_out_regs nd));
  get_Proj_for_pn g (irg_start g) pn.

Definition mips_new_IncSP (g : be_graph) (block sp : irn)
    (offset align : Z) : be_graph * irn :=
  be_new_IncSP g REG_SP block sp offset align.

(** [size] is an [unsigned]; the offset of an IncSP is an [int]. *)
Definition mips_introduce_prologue (g : be_graph) (size : Z)
    : option be_graph :=
  let start := irg_start g in
  block ← get_nodes_block g start;
  start_sp ← be_get_Start_proj g REG_SP;
  let '(g, inc_sp) := mips_new_IncSP g block start_sp (to_int size) 0 in
  g ← sched_add_after g start inc_sp;
  Some (edges_reroute_except g start_sp inc_sp (Some inc_sp)).

Definition mips_introduce_epilogue (g : be_graph) (ret : irn) (size : Z)
    : option be_graph :=
  block ← get_nodes_block g ret;
  ret_sp ← get_irn_n g ret n_mips_ret_stack;
  let '(g, inc_sp) :=
    mips_new_IncSP g block ret_sp (to_int (- to_int size)) 0 in
  g ← sched_add_before g ret inc_sp;
  set_irn_n g ret n_mips_ret_stack inc_sp.

(** [foreach_irn_in (get_irg_end_block (irg), i, ret)]: the arity is read
    once, the input at every turn. *)
Fixpoint introduce_epilogues (g : be_graph) (size : Z) (is_ : list nat)
    : option be_graph :=
  match is_ with
  | [] => Some g
  | i :: is_ =>
      ret ← get_irn_n g (irg_end_block g) i;
      if is_mips_ret g ret then
        g ← mips_introduce_epilogue g ret size;
        introduce_epilogues g size is_
      else None
  end.

Definition mips_introduce_prologue_epilogue (g : be_graph)
    : option be_graph :=
  let size := to_unsigned (irg_frame_size g) in
  if size =? 0 then Some g
  else
    rets ← get_irn_in g (irg_end_block g);
    g ← introduce_epilogues g size (seq 0 (length rets));
    mips_introduce_prologue g size.

(** ** Results: the IncSP nodes of prologue and epilogue *)

(** The node [be_new_IncSP] makes. *)
Definition IncSP_node (block old_sp : irn) (offset : Z) : be_node :=
  mk_be_node beo_IncSP (firm_mode Firm.mode_Iu) block [old_sp] 0 false
    {[ 0%nat := REG_SP ]} offset 0 ia32_attr_default.

(** The graph after the epilogue of [ret], whose block gets the schedule
    [l]. *)
Definition epilogue_graph (g : be_graph) (ret : irn) (nd : be_node)
    (ret_sp : irn) (size : Z) (l : list irn) : be_graph :=
  let inc_sp := irg_last_idx g in
  mk_be_graph
    (<[ret := with_in nd (<[n_mips_ret_stack := inc_sp]> (n_in nd))]>
       (<[inc_sp := IncSP_node (n_block nd) ret_sp (to_int (- to_int size))]>
          (irg_nodes g)))
    (<[n_block nd := l]> (irg_sched g)) (irg_time_step g) (S inc_sp)
    (irg_start g) (irg_end_block g) (irg_no_mem g) (irg_frame_size g)
    (irg_noreg_gp g) (irg_noreg_xmm g).

Lemma mips_introduce_epilogue_spec g ret size nd ret_sp :
  be_graph_wf g → get_node g ret = Some nd → n_op nd = iro_mips_ret →
  n_in nd !! n_mips_ret_stack = Some ret_sp →
  ret ∈ sched_nodes g (n_block nd) →
  ∃ pre post,
    sched_nodes g (n_block nd) = pre ++ ret :: post
    ∧ mips_introduce_epilogue g ret size
      = Some (epilogue_graph g ret nd ret_sp size
                (pre ++ irg_last_idx g :: ret :: post)).
Proof.
  intros Hwf Hnd Hop Hsp Hsched.
  destruct (insert_before_spec ret (irg_last_idx g) _ Hsched)
    as (pre & post & Hl & Hins).
  exists pre, post. split; [done |].
  assert (Hlt : (ret < irg_last_idx g)%nat) by (by eapply (proj1 Hwf)).
  unfold mips_introduce_epilogue.
  rewrite (get_nodes_block_value g ret nd) by (done || by rewrite Hop).
  unfold get_irn_n, get_irn_in. rewrite Hnd. simpl. rewrite Hsp. simpl.
  set (g1 := with_last_idx _ _).
  assert (Hnd1 : get_node g1 ret = Some nd).
  { unfold g1, get_node. simpl. rewrite lookup_insert_ne by lia. done. }
  assert (Hnew1 : get_node g1 (irg_last_idx g) = Some
            (IncSP_node (n_block nd) ret_sp (to_int (- to_int size)))).
  { unfold g1, get_node. simpl. by rewrite lookup_insert_eq. }
  unfold sched_add_before.
  rewrite (sched_update_spec _ g1 _ _ (n_block nd)).
  - change (sched_nodes g1 (n_block nd)) with (sched_nodes g (n_block nd)).
    rewrite Hins. simpl. unfold set_irn_n.
    change (get_node (with_sched g1 _) ret) with (get_node g1 ret).
    rewrite Hnd1. simpl.
    rewrite bool_decide_eq_true_2 by (by eapply lookup_lt_Some).
    reflexivity.
  - unfold is_Proj. rewrite (has_op_node _ _ _ _ Hnd1), Hop. done.
  - unfold is_Proj. by rewrite (has_op_node _ _ _ _ Hnew1).
  - change (sched_is_scheduled g1 (irg_last_idx g))
      with (sched_is_scheduled g (irg_last_idx g)).
    by apply sched_is_scheduled_fresh.
  - apply get_nodes_block_value; [done | by rewrite Hop].
Qed.

Lemma sched_nodes_lookup g b n :
  n ∈ sched_nodes g b → irg_sched g !! b = Some (sched_nodes g b).
Proof.
  unfold sched_nodes. destruct (irg_sched g !! b); [done |].
  by intros ?%elem_of_nil.
Qed.

Lemma NoDup_not_in_take {A} (l : list A) (k : nat) (x : A) :
  NoDup l → l !! k = Some x → x ∉ take k l.
Proof.
  intros Hnd Hk [j Hj]%list_elem_of_lookup.
  apply lookup_take_Some in Hj as [Hj Hlt].
  pose proof (NoDup_lookup _ _ _ _ Hnd Hj Hk). lia.
Qed.

Lemma to_int_small z : INT_MIN ≤ z ≤ INT_MAX → to_int z = z.
Proof.
  unfold INT_MIN, INT_MAX, to_int, UINT_BITS. intros Hz.
  rewrite Z.mod_small; lia.
Qed.

Section prologue_epilogue.
Context (g : be_graph) (size : Z) (rets : list irn).

(** A Return the end block lists: a [mips_ret] with a stack input,
    scheduled in its block. *)
Definition ret_ok (ret : irn) : Prop :=
  ∃ nd ret_sp,
    get_node g ret = Some nd ∧ n_op nd = iro_mips_ret
    ∧ n_in nd !! n_mips_ret_stack = Some ret_sp
    ∧ ret ∈ sched_nodes g (n_block nd)
    ∧ is_Block g (n_block nd) = true.

(** In [gk] the epilogue of [ret] is in place, with [inc_sp] as its
    IncSP. *)
Definition epilogue_at (gk : be_graph) (ret inc_sp : irn) : Prop :=
  ∃ nd ret_sp,
    get_node g ret = Some nd
    ∧ n_in nd !! n_mips_ret_stack = Some ret_sp
    ∧ get_node gk ret
      = Some (with_in nd (<[n_mips_ret_stack := inc_sp]> (n_in nd)))
    ∧ get_node gk inc_sp
      = Some (IncSP_node (n_block nd) ret_sp (to_int (- to_int size)))
    ∧ adjacent inc_sp ret (sched_nodes gk (n_block nd)).

(** The state of the graph after the first [k] epilogues. *)
Definition epilogues_done (k : nat) (gk : be_graph) : Prop :=
  irg_last_idx gk = (irg_last_idx g + k)%nat
  ∧ be_graph_wf gk
  ∧ irg_start gk = irg_start g
  ∧ irg_end_block gk = irg_end_block g
  ∧ (∀ u, u ∉ take k rets → (u < irg_last_idx g)%nat →
       get_node gk u = get_node g u)
  ∧ (∀ i ret, (i < k)%nat → rets !! i = Some ret →
       epilogue_at gk ret (irg_last_idx g + i))
  ∧ (∀ b n, n ∈ sched_nodes g b → n ∈ sched_nodes gk b).

Hypothesis Hwf : be_graph_wf g.
Hypothesis Hnodup : NoDup rets.
Hypothesis Hrets : ∀ ret, ret ∈ rets → ret_ok ret.

Lemma epilogues_done_0 : epilogues_done 0 g.
Proof.
  unfold epilogues_done.
  split_and!; try done; first [lia | intros i ret Hi; lia].
Qed.

Lemma epilogue_step k gk ret :
  epilogues_done k gk → rets !! k = Some ret →
  ∃ gk', mips_introduce_epilogue gk ret size = Some gk'
         ∧ epilogues_done (S k) gk'.
Proof.
  intros (Hidx & Hwfk & Hs & He & Hother & Hdone & Hmono) Hk.
  destruct (Hrets ret) as (nd & ret_sp & Hnd & Hop & Hsp & Hsched & Hblock);
    [by eapply list_elem_of_lookup_2 |].
  assert (Hlt : (ret < irg_last_idx g)%nat) by (by eapply (proj1 Hwf)).
  assert (Hndk : get_node gk ret = Some nd).
  { rewrite Hother; [done | by apply NoDup_not_in_take | done]. }
  destruct (mips_introduce_epilogue_spec gk ret size nd ret_sp)
    as (pre & post & Hl & Hrun); [done.. | by apply Hmono |].
  eexists. split; [exact Hrun |]. unfold epilogue_graph. cbv zeta.
  rewrite !Hidx. set (inc_sp := (irg_last_idx g + k)%nat).
  unfold epilogues_done. split_and!.
  - simpl. lia.
  - split.
    + intros u nd' Hu. simpl in *.
      apply lookup_insert_Some in Hu as [[<- _] | [_ Hu]]; [lia |].
      apply lookup_insert_Some in Hu as [[<- _] | [_ Hu]]; [lia |].
      apply (proj1 Hwfk) in Hu. lia.
    + intros b l n Hb Hn. simpl in *.
      apply lookup_insert_Some in Hb as [[<- <-] | [_ Hb]].
      * apply elem_of_app in Hn as [Hn | Hn%elem_of_cons].
        -- assert (Hn' : n ∈ sched_nodes gk (n_block nd))
             by (rewrite Hl; apply elem_of_app; by left).
           pose proof (proj2 Hwfk _ _ _ (sched_nodes_lookup _ _ _ Hn') Hn').
           lia.
        -- destruct Hn as [-> | Hn]; [unfold inc_sp; lia |].
           assert (Hn' : n ∈ sched_nodes gk (n_block nd))
             by (rewrite Hl; apply elem_of_app; by right).
           pose proof (proj2 Hwfk _ _ _ (sched_nodes_lookup _ _ _ Hn') Hn').
           lia.
      * pose proof (proj2 Hwfk _ _ _ Hb Hn). lia.
  - done.
  - done.
  - intros u Hu Hult. unfold get_node. simpl.
    assert (u ≠ ret).
    { intros ->. apply Hu. apply list_elem_of_lookup. exists k.
      apply lookup_take_Some. split; [done | lia]. }
    rewrite !lookup_insert_ne by (done || unfold inc_sp; lia).
    apply Hother; [| done]. intros Hin. apply Hu.
    apply list_elem_of_lookup in Hin as [j Hj].
    apply lookup_take_Some in Hj as [Hj Hjk].
    apply list_elem_of_lookup. exists j. apply lookup_take_Some.
    split; [done | lia].
  - intros i ret' Hi Hret'. destruct (decide (i = k)) as [-> | Hne].
    + assert (ret' = ret) as -> by congruence.
      exists nd, ret_sp. split_and!; [done | done | | |].
      * unfold get_node. simpl. by rewrite lookup_insert_eq.
      * unfold get_node. simpl.
        rewrite lookup_insert_ne by (unfold inc_sp; lia).
        by rewrite lookup_insert_eq.
      * unfold sched_nodes. simpl. rewrite lookup_insert_eq. simpl.
        by exists pre, post.
    + destruct (Hdone i ret') as (nd' & sp' & Hnd' & Hsp' & Hr & Hi' & Hadj);
        [lia | done |].
      assert (ret' ≠ ret).
      { intros ->. apply Hne. by eapply NoDup_lookup. }
      assert ((ret' < irg_last_idx g)%nat) by (by eapply (proj1 Hwf)).
      exists nd', sp'. split_and!; [done | done | | |].
      * unfold get_node. simpl.
        rewrite !lookup_insert_ne by (done || unfold inc_sp; lia). done.
      * unfold get_node. simpl.
        rewrite !lookup_insert_ne by (unfold inc_sp; lia). done.
      * unfold sched_nodes at 1. simpl.
        destruct (decide (n_block nd = n_block nd')) as [Heq | Hneq].
        -- rewrite Heq, lookup_insert_eq. simpl. rewrite <- Heq, Hl in Hadj.
           by apply adjacent_insert.
        -- by rewrite lookup_insert_ne.
  - intros b n Hn. apply Hmono in Hn. unfold sched_nodes at 1. simpl.
    destruct (decide (n_block nd = b)) as [<- | Hneq].
    + rewrite lookup_insert_eq. simpl. rewrite Hl in Hn.
      apply elem_of_app in Hn as [Hn | Hn]; apply elem_of_app;
        [by left | right; by right].
    + by rewrite lookup_insert_ne.
Qed.

Hypothesis Hend : get_irn_in g (irg_end_block g) = Some rets.
Hypothesis Hend_block : is_Block g (irg_end_block g) = true.

Lemma rets_not_Block ret : ret ∈ rets → is_Block g ret = false.
Proof.
  intros (nd & _ & Hnd & Hop & _)%Hrets. unfold is_Block.
  by rewrite (has_op_node _ _ _ _ Hnd), Hop.
Qed.

Lemma not_in_rets_unchanged k gk u :
  epilogues_done k gk → u ∉ rets → (u < irg_last_idx g)%nat →
  get_node gk u = get_node g u.
Proof.
  intros (_ & _ & _ & _ & Hother & _) Hu Hlt. apply Hother; [| done].
  intros Hin. apply Hu. by eapply subseteq_take.
Qed.

Lemma introduce_epilogues_spec m k gk :
  epilogues_done k gk → (k + m = length rets)%nat →
  ∃ g', introduce_epilogues gk size (seq k m) = Some g'
        ∧ epilogues_done (length rets) g'.
Proof.
  revert k gk. induction m as [| m IH]; intros k gk Hdone Hlen.
  - exists gk. split; [done |]. by replace (length rets) with k by lia.
  - simpl. destruct (lookup_lt_is_Some_2 rets k) as [ret Hret]; [lia |].
    assert (Hin : ret ∈ rets) by (by eapply list_elem_of_lookup_2).
    destruct (Hrets ret Hin) as (nd & ret_sp & Hnd & Hop & _).
    assert (Hend_lt : (irg_end_block g < irg_last_idx g)%nat).
    { unfold get_irn_in in Hend.
      destruct (get_node g (irg_end_block g)) eqn:E; [| done].
      by eapply (proj1 Hwf). }
    assert (Hend_k : get_node gk (irg_end_block g)
                     = get_node g (irg_end_block g)).
    { eapply not_in_rets_unchanged; [done | | done].
      intros Hr%rets_not_Block. by rewrite Hend_block in Hr. }
    pose proof Hdone as (_ & _ & _ & -> & Hother & _).
    unfold get_irn_n at 1, get_irn_in at 1. rewrite Hend_k.
    fold (get_irn_in g (irg_end_block g)). rewrite Hend. simpl.
    rewrite Hret. simpl.
    assert (Hndk : get_node gk ret = Some nd).
    { rewrite Hother; [done | by apply NoDup_not_in_take |].
      by eapply (proj1 Hwf). }
    unfold is_mips_ret. rewrite (has_op_node _ _ _ _ Hndk), Hop. simpl.
    destruct (epilogue_step k gk ret Hdone Hret) as (gk' & -> & Hdone').
    simpl. apply IH; [done | lia].
Qed.

Context (start_nd : be_node) (start_sp : irn).
Hypothesis Hstart : get_node g (irg_start g) = Some start_nd.
Hypothesis Hstart_op : n_op start_nd = iro_Start.
Hypothesis Hstart_sched : irg_start g ∈ sched_nodes g (n_block start_nd).
Hypothesis Hsp : be_get_Start_proj g REG_SP = Some start_sp.

Lemma start_not_ret : irg_start g ∉ rets.
Proof.
  intros (nd & _ & Hnd & Hop & _)%Hrets. rewrite Hstart in Hnd.
  injection Hnd as <-. by rewrite Hstart_op in Hop.
Qed.

Lemma epilogue_keeps_op gn u :
  epilogues_done (length rets) gn → (u < irg_last_idx g)%nat →
  n_op <$> get_node gn u = n_op <$> get_node g u.
Proof.
  intros Hdone Hlt. destruct (decide (u ∈ rets)) as [Hin | Hnin].
  - apply list_elem_of_lookup in Hin as [i Hi].
    destruct Hdone as (_ & _ & _ & _ & _ & Hat & _).
    destruct (Hat i u) as (nd & sp & Hnd & _ & -> & _);
      [by eapply lookup_lt_Some | done |].
    by rewrite Hnd.
  - by rewrite (not_in_rets_unchanged _ _ _ Hdone).
Qed.

Lemma be_get_Start_proj_epilogues gn :
  epilogues_done (length rets) gn →
  be_get_Start_proj gn REG_SP = Some start_sp.
Proof.
  intros Hdone. pose proof Hdone as (Hidx & _ & Hs & _ & _ & Hat & _).
  assert (Hstart_lt : (irg_start g < irg_last_idx g)%nat)
    by (by eapply (proj1 Hwf)).
  revert Hsp. unfold be_get_Start_proj. rewrite Hs.
  rewrite (not_in_rets_unchanged _ _ _ Hdone start_not_ret Hstart_lt).
  rewrite Hstart. simpl.
  destruct (list_find _ _) as [[? [pn ?]] |]; [| done]. simpl.
  intros <-. apply (get_Proj_for_pn_ext g gn _ _ (length rets)); [done | |].
  - intros u Hu. unfold is_Proj_for_pn, is_Proj, has_op, get_Proj_num,
      uses_in.
    destruct (decide (u ∈ rets)) as [Hin | Hnin].
    + apply list_elem_of_lookup in Hin as [i Hi].
      destruct (Hat i u) as (nd & sp & Hnd & _ & -> & _);
        [by eapply lookup_lt_Some | done |].
      rewrite Hnd. simpl.
      destruct (Hrets u) as (nd' & _ & Hnd' & Hop & _);
        [by eapply list_elem_of_lookup_2 |].
      rewrite Hnd in Hnd'. injection Hnd' as <-. rewrite Hop.
      split; by intros [[? _] _].
    + by rewrite (not_in_rets_unchanged _ _ _ Hdone).
  - intros u Hu. destruct (lookup_lt_is_Some_2 rets (u - irg_last_idx g))
      as [ret Hret]; [lia |].
    destruct (Hat _ ret (lookup_lt_Some _ _ _ Hret) Hret)
      as (nd & sp & _ & _ & _ & Hinc & _).
    replace (irg_last_idx g + (u - irg_last_idx g))%nat with u in Hinc
      by lia.
    unfold is_Proj. by rewrite (has_op_node _ _ _ _ Hinc).
Qed.

(** What the pass leaves: [length rets + 1] new nodes, all of them IncSP
    nodes; the last one after Start, taking over the uses of [start_sp];
    the [i]-th one before the [i]-th Return, as its stack input. *)
Definition prologue_epilogue_inserted (g' : be_graph) : Prop :=
  let prologue := (irg_last_idx g + length rets)%nat in
  irg_last_idx g' = S prologue
  ∧ be_graph_wf g'
  ∧ (∀ u, (u < irg_last_idx g)%nat →
       n_op <$> get_node g' u = n_op <$> get_node g u)
  ∧ get_node g' prologue
    = Some (IncSP_node (n_block start_nd) start_sp size)
  ∧ adjacent (irg_start g) prologue (sched_nodes g' (n_block start_nd))
  ∧ (∀ u nd, get_node g' u = Some nd → u ≠ prologue →
       n_op nd ≠ iro_Deleted → start_sp ∉ n_in nd)
  ∧ ∀ i ret, rets !! i = Some ret →
      ∃ nd ret_sp,
        get_node g ret = Some nd
        ∧ n_in nd !! n_mips_ret_stack = Some ret_sp
        ∧ get_node g' (irg_last_idx g + i)%nat
          = Some (IncSP_node (n_block nd)
                    (if decide (ret_sp = start_sp) then prologue else ret_sp)
                    (- size))
        ∧ adjacent (irg_last_idx g + i)%nat ret (sched_nodes g' (n_block nd))
        ∧ get_irn_n g' ret n_mips_ret_stack = Some (irg_last_idx g + i)%nat.

Hypothesis Hsize : 0 < size ≤ INT_MAX.

Lemma mips_introduce_prologue_spec gn :
  epilogues_done (length rets) gn →
  ∃ g', mips_introduce_prologue gn size = Some g'
        ∧ prologue_epilogue_inserted g'.
Proof.
  intros Hdone.
  pose proof Hdone as (Hidx & Hwfn & Hs & _ & _ & Hat & Hmono).
  assert (Hstart_lt : (irg_start g < irg_last_idx g)%nat)
    by (by eapply (proj1 Hwf)).
  assert (Hstart_n : get_node gn (irg_start g) = Some start_nd).
  { by rewrite (not_in_rets_unchanged _ _ _ Hdone start_not_ret). }
  assert (Hsp_proj : is_Proj g start_sp = true
                     ∧ (start_sp < irg_last_idx g)%nat).
  { revert Hsp. unfold be_get_Start_proj. rewrite Hstart. simpl.
    destruct (list_find _ _) as [[? [pn ?]] |]; [| done]. simpl.
    apply get_Proj_for_pn_is_Proj. }
  destruct Hsp_proj as [Hsp_proj Hsp_lt].
  unfold mips_introduce_prologue. rewrite Hs.
  rewrite (get_nodes_block_value gn _ start_nd)
    by (done || by rewrite Hstart_op).
  simpl. rewrite (be_get_Start_proj_epilogues gn Hdone). simpl.
  rewrite (to_int_small size) by (unfold INT_MIN, UINT_BITS; lia).
  unfold mips_new_IncSP, be_new_IncSP, add_node. rewrite Hidx.
  set (prologue := (irg_last_idx g + length rets)%nat).
  fold (IncSP_node (n_block start_nd) start_sp size).
  set (g1 := with_last_idx _ _). cbv zeta.
  assert (Hold1 : ∀ u, u ≠ prologue → get_node g1 u = get_node gn u).
  { intros u Hu. unfold g1, get_node. simpl. by rewrite lookup_insert_ne. }
  assert (Hnew1 : get_node g1 prologue
                  = Some (IncSP_node (n_block start_nd) start_sp size)).
  { unfold g1, get_node. simpl. by rewrite lookup_insert_eq. }
  destruct (insert_after_spec (irg_start g) prologue
              (sched_nodes gn (n_block start_nd)))
    as (pre & post & Hl & Hins); [by apply Hmono |].
  unfold sched_add_after.
  rewrite (sched_update_spec _ g1 _ _ (n_block start_nd)); cycle 1.
  { unfold is_Proj. rewrite (has_op_node _ _ _ start_nd), Hstart_op; [done |].
    rewrite Hold1; [done | unfold prologue; lia]. }
  { unfold is_Proj. by rewrite (has_op_node _ _ _ _ Hnew1). }
  { change (sched_is_scheduled g1 prologue)
      with (sched_is_scheduled gn prologue).
    apply sched_is_scheduled_fresh; [done | unfold prologue; lia]. }
  { apply get_nodes_block_value; [| by rewrite Hstart_op].
    rewrite Hold1; [done | unfold prologue; lia]. }
  change (sched_nodes g1 (n_block start_nd))
    with (sched_nodes gn (n_block start_nd)).
  rewrite Hins. simpl. eexists. split; [done |].
  set (g2 := with_sched g1 _).
  assert (Hsched2 : ∀ b, sched_nodes (edges_reroute_except g2 start_sp
                                        prologue (Some prologue)) b
                         = if decide (n_block start_nd = b)
                           then pre ++ irg_start g :: prologue :: post
                           else sched_nodes gn b).
  { intros b. unfold sched_nodes, g2. simpl.
    destruct (decide (n_block start_nd = b)) as [-> | Hne].
    - by rewrite lookup_insert_eq.
    - by rewrite lookup_insert_ne. }
  assert (Hnode2 : ∀ u, get_node (edges_reroute_except g2 start_sp prologue
                                    (Some prologue)) u
                        = (λ nd, if bool_decide (Some u = Some prologue)
                                 then nd
                                 else reroute_node start_sp prologue nd)
                          <$> get_node g1 u).
  { intros u. by rewrite get_node_reroute. }
  unfold prologue_epilogue_inserted. fold prologue. split_and!.
  - done.
  - split.
    + intros u nd Hu. change (irg_nodes ?g !! u) with (get_node g u) in Hu.
      rewrite Hnode2 in Hu. simpl.
      destruct (decide (u = prologue)) as [-> | Hne]; [lia |].
      rewrite Hold1 in Hu by done.
      destruct (get_node gn u) as [nd' |] eqn:E; [| done].
      apply (proj1 Hwfn) in E. lia.
    + intros b l n Hb Hn. simpl in *.
      apply lookup_insert_Some in Hb as [[<- <-] | [_ Hb]].
      * assert (n = prologue ∨ n ∈ sched_nodes gn (n_block start_nd))
          as [-> | Hn'].
        { rewrite Hl. set_solver. }
        -- lia.
        -- pose proof (proj2 Hwfn _ _ _ (sched_nodes_lookup _ _ _ Hn') Hn').
           lia.
      * pose proof (proj2 Hwfn _ _ _ Hb Hn). lia.
  - intros u Hu. rewrite Hnode2, Hold1 by (unfold prologue; lia).
    rewrite <- (epilogue_keeps_op gn u Hdone Hu).
    destruct (get_node gn u) as [nd |]; [| done]. simpl.
    rewrite bool_decide_eq_false_2
      by (intros [= ->]; unfold prologue in *; lia).
    unfold reroute_node. by destruct (bool_decide _).
  - rewrite Hnode2, Hnew1. simpl. by rewrite bool_decide_eq_true_2.
  - rewrite Hsched2, decide_True by done. by exists pre, post.
  - intros u nd Hu Hne Hop. rewrite Hnode2 in Hu.
    destruct (get_node g1 u) as [nd0 |]; [| done]. simpl in Hu.
    rewrite bool_decide_eq_false_2 in Hu by congruence.
    injection Hu as <-. unfold reroute_node in *.
    destruct (bool_decide (n_op nd0 = iro_Deleted)) eqn:Hdel.
    { by apply bool_decide_eq_true in Hdel. }
    simpl. intros (a & Heq & _)%list_elem_of_fmap.
    destruct (bool_decide (a = start_sp)) eqn:Ha.
    + unfold prologue in Heq. lia.
    + apply bool_decide_eq_false in Ha. congruence.
  - intros i ret Hret.
    destruct (Hat i ret (lookup_lt_Some _ _ _ Hret) Hret)
      as (nd & ret_sp & Hnd & Hret_sp & Hret_n & Hinc & Hadj).
    pose proof (lookup_lt_Some _ _ _ Hret) as Hi.
    assert (Hret_lt : (ret < irg_last_idx g)%nat) by (by eapply (proj1 Hwf)).
    destruct (Hrets ret) as (nd' & _ & Hnd' & Hop & _ & _ & Hblock);
      [by eapply list_elem_of_lookup_2 |].
    rewrite Hnd in Hnd'. injection Hnd' as <-.
    assert (Hblock_ne : n_block nd ≠ start_sp).
    { intros Heq. rewrite Heq in Hblock. unfold is_Block, is_Proj in *.
      unfold has_op in *. destruct (get_node g start_sp); [| done].
      apply bool_decide_eq_true in Hblock, Hsp_proj. congruence. }
    exists nd, ret_sp. split_and!; [done | done | | |].
    + rewrite Hnode2, Hold1 by (unfold prologue; lia). rewrite Hinc. simpl.
      rewrite bool_decide_eq_false_2
        by (intros [= Heq]; unfold prologue in *; lia).
      unfold reroute_node, IncSP_node. simpl.
      rewrite (bool_decide_eq_false_2 (_ ∧ _)) by (by intros [_ ?]).
      rewrite (to_int_small size) by (unfold INT_MIN, UINT_BITS; lia).
      rewrite (to_int_small (- size))
        by (unfold INT_MIN, INT_MAX, UINT_BITS in *; lia).
      by destruct (decide (ret_sp = start_sp)) as [-> | Hne];
        [rewrite bool_decide_eq_true_2 | rewrite bool_decide_eq_false_2].
    + rewrite Hsched2.
      destruct (decide (n_block start_nd = n_block nd)) as [Heq | Hne];
        [| done].
      rewrite <- Heq, Hl in Hadj. apply adjacent_insert_after; [done | lia].
    + unfold get_irn_n, get_irn_in.
      rewrite Hnode2, Hold1 by (unfold prologue; lia). rewrite Hret_n.
      simpl.
      rewrite bool_decide_eq_false_2
        by (intros [= Heq]; unfold prologue in *; lia).
      unfold reroute_node. simpl.
      rewrite Hop. simpl. rewrite list_lookup_fmap.
      rewrite list_lookup_insert_eq by (by eapply lookup_lt_Some). simpl.
      rewrite bool_decide_eq_false_2 by lia. done.
Qed.

End prologue_epilogue.

(** C9.  When the frame has a size other than 0 (and one an [int] can
    hold), [mips_introduce_prologue_epilogue] adds one IncSP for every
    Return the end block lists and one more for the prologue, and nothing
    else: the [i]-th new node is an IncSP by [-size] on the old stack
    input of the [i]-th Return, scheduled right before it and made its
    stack input; the last new node is an IncSP by [+size] on the stack
    pointer Start hands out, scheduled right after Start, and every other
    use of that stack pointer now goes through it.  When the size is 0 the
    graph is returned as it is. *)
Theorem mips_prologue_epilogue_inserts_IncSP (g : be_graph)
    (rets : list irn) (start_nd : be_node) (start_sp : irn) :
  be_graph_wf g →
  0 ≤ irg_frame_size g ≤ INT_MAX →
  get_irn_in g (irg_end_block g) = Some rets →
  is_Block g (irg_end_block g) = true →
  NoDup rets →
  (∀ ret, ret ∈ rets → ret_ok g ret) →
  get_node g (irg_start g) = Some start_nd →
  n_op start_nd = iro_Start →
  irg_start g ∈ sched_nodes g (n_block start_nd) →
  be_get_Start_proj g REG_SP = Some start_sp →
  if decide (irg_frame_size g = 0)
  then mips_introduce_prologue_epilogue g = Some g
  else ∃ g', mips_introduce_prologue_epilogue g = Some g'
             ∧ prologue_epilogue_inserted g (irg_frame_size g) rets start_nd
                 start_sp g'.
Proof.
  intros Hwf Hsize Hend Hend_block Hnodup Hrets Hstart Hstart_op Hsched Hsp.
  unfold mips_introduce_prologue_epilogue.
  assert (Hu : to_unsigned (irg_frame_size g) = irg_frame_size g).
  { unfold to_unsigned. apply Z.mod_small.
    unfold INT_MAX, UINT_BITS in *. lia. }
  rewrite Hu. destruct (decide (irg_frame_size g = 0)) as [-> | Hne];
    [done |].
  rewrite (proj2 (Z.eqb_neq _ _)) by done. rewrite Hend. simpl.
  destruct (introduce_epilogues_spec g (irg_frame_size g) rets Hwf Hnodup
              Hrets Hend Hend_block (length rets) 0 g)
    as (gn & -> & Hdone); [by apply epilogues_done_0 | lia |].
  simpl. apply (mips_introduce_prologue_spec g _ rets); try done. lia.
Qed.

End MipsBearch.

(** The function of [BeExample], with its frame of 16 bytes. *)
Module MipsBearchExample.

Import Be MipsBearch.

Lemma mips_prologue_epilogue_inserts_IncSP_witness :
  ∃ g', mips_introduce_prologue_epilogue BeExample.irg = Some g'
        ∧ prologue_epilogue_inserted BeExample.irg 16 [6%nat]
            (BeExample.node iro_Start mode_T 0
               [] [(1%nat, BeExample.sp); (2%nat, BeExample.a0)])
            3%nat g'.
Proof.
  apply (mips_prologue_epilogue_inserts_IncSP BeExample.irg [6%nat]
           (BeExample.node iro_Start mode_T 0 []
              [(1%nat, BeExample.sp); (2%nat, BeExample.a0)]) 3%nat).
  - apply be_graph_wfb_spec. vm_compute. reflexivity.
  - vm_compute. split; discriminate.
  - vm_compute. reflexivity.
  - vm_compute. reflexivity.
  - apply (bool_decide_unpack _). vm_compute. exact I.
  - intros ret Hret. apply list_elem_of_singleton in Hret as ->.
    eexists _, 3%nat. split_and!; [vm_compute; reflexivity.. | | ].
    + apply (bool_decide_unpack _). vm_compute. exact I.
    + vm_compute. reflexivity.
  - vm_compute. reflexivity.
  - vm_compute. reflexivity.
  - apply (bool_decide_unpack _). vm_compute. exact I.
  - vm_compute. reflexivity.
Defined.

End MipsBearchExample.

(** ** [ir/be/ia32/ia32_finish.c]: two-address fix-ups *)

Module Ia32Finish.

Import Be.

Notation "'let?' x := y 'in' z" :=
  (match y with Some x => z | None => None end)
  (at level 10, x pattern, y at level 100, z at level 200,
   format "'[v' 'let?'  x  :=  y  'in' '/' z ']'").

(** Input and output positions of the ia32 nodes. *)
Definition n_ia32_base : nat := 0.
Definition n_ia32_index : nat := 1.
Definition n_ia32_mem : nat := 2.
Definition n_ia32_binary_left : nat := 3.
Definition n_ia32_binary_right : nat := 4.
Definition n_ia32_Sbb_eflags : nat := 5.
Definition n_ia32_ShlD_val_high : nat := 0.
Definition n_ia32_ShlD_val_low : nat := 1.
Definition n_ia32_ShlD_count : nat := 2.
Definition pn_ia32_res : nat := 0.
Definition pn_ia32_flags : nat := 1.
Definition pn_ia32_Adc_flags : nat := 1.
Definition pn_ia32_ShrD_res : nat := 0.

(** [ia32_registers[REG_EFLAGS]] *)
Definition REG_EFLAGS : arch_register := mk_arch_register 8 0 false.

Inductive ia32_known_const_t : Set := ia32_SSIGN | ia32_DSIGN.

(** The condition codes of [x86_cc.h] that the code names. *)
Record x86_condition_codes : Set := mk_x86_condition_codes {
  x86_cc_negated : Z;
  x86_cc_below : Z;
  x86_cc_below_equal : Z;
  x86_cc_float_below : Z;
  x86_cc_float_below_equal : Z;
  x86_cc_float_unordered_below_equal : Z;
  x86_cc_float_unordered_below : Z
}.

Section finish.
Context (cc : x86_condition_codes)
        (ia32_gen_fp_known_const : ia32_known_const_t → ir_entity)
        (ia32_turn_back_am : be_graph → irn → option (be_graph * irn))
        (ia32_create_Immediate : be_graph → Z → be_graph * irn)
        (ia32_swap_left_right : be_graph → irn → option be_graph).

Definition reads_carry (code : Z) : bool :=
  let c2 := Z.land code (Z.lnot (x86_cc_negated cc)) in
  (c2 =? x86_cc_below cc) || (c2 =? x86_cc_below_equal cc)
  || (c2 =? x86_cc_float_below cc) || (c2 =? x86_cc_float_below_equal cc)
  || (c2 =? x86_cc_float_unordered_below_equal cc)
  || (c2 =? x86_cc_float_unordered_below cc).

Definition is_ia32_irn (g : be_graph) (n : irn) : bool :=
  match get_node g n with
  | Some nd => is_ia32_op (n_op nd)
  | None => false
  end.

Definition is_ia32_Sub (g : be_graph) := has_op g iro_ia32_Sub.
Definition is_ia32_Sbb (g : be_graph) := has_op g iro_ia32_Sbb.
Definition is_ia32_xSub (g : be_graph) := has_op g iro_ia32_xSub.
Definition is_ia32_ShlD (g : be_graph) := has_op g iro_ia32_ShlD.

Definition get_ia32_attr (g : be_graph) (n : irn) : option ia32_attr_t :=
  n_ia32 <$> get_node g n.

Definition set_ia32_attr (g : be_graph) (n : irn)
    (f : ia32_attr_t → ia32_attr_t) : option be_graph :=
  nd ← get_node g n; Some (set_node g n (with_ia32 nd (f (n_ia32 nd)))).

Definition set_ia32_am_ent (g : be_graph) (n : irn) (ent : ir_entity) :=
  set_ia32_attr g n
    (λ a, mk_ia32_attr (attr_op_type a) (attr_am_support a) (attr_ls_mode a)
            (Some ent) (attr_is_commutative a) (attr_condcode a)
            (attr_imm_offset a)).

Definition set_ia32_op_type (g : be_graph) (n : irn) (tp : ia32_op_type_t) :=
  set_ia32_attr g n
    (λ a, mk_ia32_attr tp (attr_am_support a) (attr_ls_mode a)
            (attr_am_ent a) (attr_is_commutative a) (attr_condcode a)
            (attr_imm_offset a)).

Definition set_ia32_ls_mode (g : be_graph) (n : irn) (m : option mode) :=
  set_ia32_attr g n
    (λ a, mk_ia32_attr (attr_op_type a) (attr_am_support a) m
            (attr_am_ent a) (attr_is_commutative a) (attr_condcode a)
            (attr_imm_offset a)).

Definition set_ia32_commutative (g : be_graph) (n : irn) :=
  set_ia32_attr g n
    (λ a, mk_ia32_attr (attr_op_type a) (attr_am_support a) (attr_ls_mode a)
            (attr_am_ent a) true (attr_condcode a) (attr_imm_offset a)).

(** The constructors [new_bd_ia32_*]: a new node of the opcode, in the
    mode its specification gives, with the inputs in their order. *)
Definition new_ia32_node (g : be_graph) (op : opcode) (m : mode)
    (block : irn) (ins : list irn) : be_graph * irn :=
  add_node g (mk_be_node op m block ins 0 false ∅ 0 0 ia32_attr_default).

Definition new_bd_ia32_xXor g block base index mem left_ right_ :=
  new_ia32_node g iro_ia32_xXor ia32_mode_float64 block
    [base; index; mem; left_; right_].
Definition new_bd_ia32_xAdd g block base index mem left_ right_ :=
  new_ia32_node g iro_ia32_xAdd ia32_mode_float64 block
    [base; index; mem; left_; right_].
Definition new_bd_ia32_Add g block base index mem left_ right_ :=
  new_ia32_node g iro_ia32_Add ia32_mode_gp block
    [base; index; mem; left_; right_].
Definition new_bd_ia32_Adc g block base index mem left_ right_ eflags :=
  new_ia32_node g iro_ia32_Adc ia32_mode_gp block
    [base; index; mem; left_; right_; eflags].
Definition new_bd_ia32_Neg g block val :=
  new_ia32_node g iro_ia32_Neg ia32_mode_gp block [val].
Definition new_bd_ia32_Not g block val :=
  new_ia32_node g iro_ia32_Not ia32_mode_gp block [val].
Definition new_bd_ia32_Cmc g block op :=
  new_ia32_node g iro_ia32_Cmc ia32_mode_flags block [op].
Definition new_bd_ia32_Stc g block :=
  new_ia32_node g iro_ia32_Stc ia32_mode_flags block [].
Definition new_bd_ia32_ShrD_imm g block val_high val_low count :=
  new_ia32_node g iro_ia32_ShrD ia32_mode_gp block [val_high; val_low; count].

(** [be_new_Proj_reg (pred, pn, reg)] *)
Definition be_new_Proj_reg (g : be_graph) (pred : irn) (pn : nat)
    (reg : arch_register) (m : mode) : option (be_graph * irn) :=
  let? g := arch_set_irn_register_out g pred pn reg in
  let? block := get_nodes_block g pred in
  Some (add_node g (mk_be_node iro_Proj m block [pred] pn false ∅ 0 0
                      ia32_attr_default)).

(** See if someone is interested in a correctly set carry flag: the
    [flags] Proj of the node, and whether one of its users reads carry. *)
Definition flags_consumer (g : be_graph) (irn : Be.irn)
    : option (option Be.irn * bool) :=
  let? m := get_irn_mode g irn in
  if bool_decide (m = mode_T) then
    match get_Proj_for_pn g irn pn_ia32_flags with
    | Some flags_proj =>
        Some (Some flags_proj,
              existsb (λ user_pos : Be.irn * Z,
                         match get_ia32_attr g user_pos.1 with
                         | Some a => reads_carry (attr_condcode a)
                         | None => false
                         end)
                (out_edges g flags_proj))
    | None => Some (None, false)
    end
  else Some (None, false).

(** The part after the label [carry]: NOT, the carry, ADC, and a CMC for
    the users of the flags if there are any. *)
Definition not_adc (g : be_graph) (irn block in1 in2 carry : Be.irn)
    (flags_proj : option Be.irn) (out_reg : arch_register)
    : option (be_graph * Be.irn) :=
  let noreg := irg_noreg_gp g in
  let nomem := irg_no_mem g in
  let '(g, nnot) := new_bd_ia32_Not g block in2 in
  let? g := arch_set_irn_register g nnot out_reg in
  let? g := sched_add_before g irn nnot in
  let? g := arch_set_irn_register g carry REG_EFLAGS in
  let? g := sched_add_before g irn carry in
  let '(g, adc) := new_bd_ia32_Adc g block noreg noreg nomem nnot in1 carry in
  let? g := arch_set_irn_register g adc out_reg in
  let? g := set_ia32_commutative g adc in
  let? g :=
    match flags_proj with
    | Some flags_proj =>
        let? g := set_irn_mode g adc mode_T in
        let? (g, adc_flags) :=
          be_new_Proj_reg g adc pn_ia32_Adc_flags REG_EFLAGS ia32_mode_flags in
        let '(g, cmc) := new_bd_ia32_Cmc g block adc_flags in
        let? g := arch_set_irn_register g cmc REG_EFLAGS in
        let? g := sched_add_after g irn cmc in
        exchange g flags_proj cmc
    | None => Some g
    end in
  Some (g, adc).

(** Transforms a Sub or xSub into Neg--Add iff OUT_REG != SRC1_REG &&
    OUT_REG == SRC2_REG. *)
Definition ia32_transform_sub_to_neg_add (g : be_graph) (irn : Be.irn)
    (out_reg : arch_register) : option (be_graph * bool) :=
  (* in case of sub and OUT == SRC2 we can transform the sequence into
     neg src2 -- add *)
  let? in2 := get_irn_n g irn n_ia32_binary_right in
  let? in2_reg := arch_get_irn_register g in2 in
  if bool_decide (Some out_reg ≠ in2_reg) then Some (g, false)
  else
    let? block := get_nodes_block g irn in
    let noreg := irg_noreg_gp g in
    let nomem := irg_no_mem g in
    let? in1 := get_irn_n g irn n_ia32_binary_left in
    let? irn_mode := get_irn_mode g irn in
    let? irn_attr := get_ia32_attr g irn in
    (* generate the neg src2 *)
    let? (g, res) :=
      if is_ia32_xSub g irn then
        let? op_mode := attr_ls_mode irn_attr in
        if bool_decide (irn_mode = mode_T) then None
        else
          let noreg_fp := irg_noreg_xmm g in
          let '(g, res) :=
            new_bd_ia32_xXor g block noreg noreg nomem in2 noreg_fp in
          let size := get_mode_size_bits op_mode in
          let entity :=
            ia32_gen_fp_known_const
              (if size =? 32 then ia32_SSIGN else ia32_DSIGN) in
          let? g := set_ia32_am_ent g res entity in
          let? g := set_ia32_op_type g res ia32_AddrModeS in
          let? g := set_ia32_ls_mode g res (Some op_mode) in
          let? g := arch_set_irn_register g res out_reg in
          (* add to schedule *)
          let? g := sched_add_before g irn res in
          (* generate the add *)
          let '(g, res) := new_bd_ia32_xAdd g block noreg noreg nomem res in1 in
          let? g := set_ia32_ls_mode g res (attr_ls_mode irn_attr) in
          Some (g, res)
      else
        let? (flags_proj, needs_carry) := flags_consumer g irn in
        if is_ia32_Sbb g irn then
          (* Feed borrow (in CF) as carry (via CMC) into NOT+ADC. *)
          let? carry := get_irn_n g irn n_ia32_Sbb_eflags in
          let '(g, carry) := new_bd_ia32_Cmc g block carry in
          not_adc g irn block in1 in2 carry flags_proj out_reg
        else if bool_decide (flags_proj ≠ None) && needs_carry then
          (* t1 = ~b; t2 = a + ~b + Carry; Complement Carry *)
          let '(g, carry) := new_bd_ia32_Stc g block in
          not_adc g irn block in1 in2 carry flags_proj out_reg
        else
          let '(g, res) := new_bd_ia32_Neg g block in2 in
          let? g := arch_set_irn_register g res out_reg in
          (* add to schedule *)
          let? g := sched_add_before g irn res in
          (* generate the add *)
          let '(g, res) := new_bd_ia32_Add g block noreg noreg nomem res in1 in
          let? g := arch_set_irn_register_out g res pn_ia32_res out_reg in
          let? g := arch_set_irn_register_out g res pn_ia32_flags REG_EFLAGS in
          let? g := set_ia32_commutative g res in
          Some (g, res) in
    let? g := set_irn_mode g res irn_mode in
    (* exchange the add and the sub *)
    let? g := sched_replace g irn res in
    let? g := exchange g irn res in
    Some (g, true).

Definition ia32_transform_ShlD_to_ShrD_imm (g : be_graph) (irn : Be.irn)
    (out_reg : arch_register) : option be_graph :=
  (* a = ShlD(b, a, c) -> a = ShrD(a, b, 32 - c) *)
  let? lcount := get_irn_n g irn n_ia32_ShlD_count in
  let? attr := get_ia32_attr g lcount in
  let '(g, count) :=
    ia32_create_Immediate g (to_int (32 - attr_imm_offset attr)) in
  let? block := get_nodes_block g irn in
  let? in1 := get_irn_n g irn n_ia32_ShlD_val_low in
  let? in0 := get_irn_n g irn n_ia32_ShlD_val_high in
  let '(g, res) := new_bd_ia32_ShrD_imm g block in1 in0 count in
  let? g := arch_set_irn_register_out g res pn_ia32_ShrD_res out_reg in
  let? g := sched_replace g irn res in
  exchange g irn res.

Definition need_constraint_copy (g : be_graph) (irn : Be.irn) : bool :=
  if is_ia32_irn g irn then
    match n_op <$> get_node g irn with
    | Some iro_ia32_Lea | Some iro_ia32_Minus64 => false
    | _ => true
    end
  else be_is_Asm g irn.

(** Turn a source address mode whose base or index is the result
    register back into Load + operation. *)
Definition fix_am_source (g : be_graph) (irn : Be.irn) (out_reg : arch_register)
    : option be_graph :=
  let? attr := get_ia32_attr g irn in
  (* check only nodes with source address mode *)
  if bool_decide (attr_op_type attr ≠ ia32_AddrModeS) then Some g
  (* only need to fix binary operations *)
  else if bool_decide (attr_am_support attr ≠ ia32_am_binary) then Some g
  else
    let? base_reg := arch_get_irn_register_in g irn n_ia32_base in
    let? untouched :=
      if bool_decide (Some out_reg ≠ base_reg) then
        let? index_reg := arch_get_irn_register_in g irn n_ia32_index in
        Some (bool_decide (Some out_reg ≠ index_reg))
      else Some false in
    if (untouched : bool) then Some g
    else
      let? (g, load_res) := ia32_turn_back_am g irn in
      arch_set_irn_register g load_res out_reg.

Definition ia32_handle_2addr (g : be_graph) (node : irn)
    (req : arch_register_req) (reg : arch_register)
    : option (be_graph * bool) :=
  (* Some nodes are just a bit less efficient, but need no fixing if the
     same_as requirement is not fulfilled. *)
  if negb (need_constraint_copy g node) then Some (g, true)
  else
    let? g := fix_am_source g node reg in
    if req_same_as_next req then
      let? next_reg := arch_get_irn_register_in g node (req_same_as req + 1) in
      if bool_decide (Some reg = next_reg) then
        if is_ia32_ShlD g node then
          let? g := ia32_transform_ShlD_to_ShrD_imm g node reg in
          Some (g, true)
        else
          let? attr := get_ia32_attr g node in
          if bool_decide (req_same_as req = n_ia32_binary_left)
             && attr_is_commutative attr
          then
            let? g := ia32_swap_left_right g node in
            Some (g, true)
          else None
      else Some (g, false)
    else if is_ia32_Sub g node || is_ia32_Sbb g node || is_ia32_xSub g node
    then ia32_transform_sub_to_neg_add g node reg
    else Some (g, false).

End finish.

(** ** Results: what becomes of a Sub whose result is in the register of
    its right operand *)

Section sub.
Context (cc : x86_condition_codes)
        (ia32_gen_fp_known_const : ia32_known_const_t → ir_entity)
        (ia32_turn_back_am : be_graph → irn → option (be_graph * irn))
        (ia32_create_Immediate : be_graph → Z → be_graph * irn)
        (ia32_swap_left_right : be_graph → irn → option be_graph).
Context (g : be_graph) (sub : irn) (nd : be_node) (req : arch_register_req)
        (reg : arch_register) (in1 in2 : irn) (pre post : list irn).

Hypothesis Hwf : be_graph_wf g.
Hypothesis Hnd : get_node g sub = Some nd.
Hypothesis Hop : n_op nd = iro_ia32_Sub.
Hypothesis Ham : attr_op_type (n_ia32 nd) ≠ ia32_AddrModeS.
Hypothesis Hreq : req_same_as_next req = false.
Hypothesis Hin1 : n_in nd !! n_ia32_binary_left = Some in1.
Hypothesis Hin2 : n_in nd !! n_ia32_binary_right = Some in2.
Hypothesis Hself : sub ∉ n_in nd.
Hypothesis Hsched : sched_nodes g (n_block nd) = pre ++ sub :: post.
Hypothesis Hpre : sub ∉ pre.

Lemma handle_2addr_Sub :
  ia32_handle_2addr cc ia32_gen_fp_known_const ia32_turn_back_am
    ia32_create_Immediate ia32_swap_left_right g sub req reg
  = ia32_transform_sub_to_neg_add cc ia32_gen_fp_known_const g sub reg.
Proof.
  unfold ia32_handle_2addr, need_constraint_copy, is_ia32_irn, fix_am_source,
    get_ia32_attr.
  rewrite Hnd. simpl. rewrite Hop. simpl.
  rewrite bool_decide_eq_true_2 by done. rewrite Hreq.
  unfold is_ia32_Sub. rewrite (has_op_node _ _ _ _ Hnd), Hop. done.
Qed.

Lemma transform_declines in2_reg :
  arch_get_irn_register g in2 = Some in2_reg → Some reg ≠ in2_reg →
  ia32_transform_sub_to_neg_add cc ia32_gen_fp_known_const g sub reg
  = Some (g, false).
Proof.
  intros Hr Hne. unfold ia32_transform_sub_to_neg_add, get_irn_n, get_irn_in.
  rewrite Hnd. simpl. rewrite Hin2, Hr.
  by rewrite bool_decide_eq_true_2.
Qed.

(** What the rewriting to Neg and Add leaves: two new nodes in the place
    of [sub] in the schedule, the Neg of the right operand and the Add of
    it and the left operand, which takes over the users of [sub]. *)
Definition neg_add_inserted (g' : be_graph) : Prop :=
  let neg := irg_last_idx g in
  let add := S (irg_last_idx g) in
  irg_last_idx g' = S (S (irg_last_idx g))
  ∧ (∃ nneg, get_node g' neg = Some nneg
             ∧ n_op nneg = iro_ia32_Neg ∧ n_in nneg = [in2]
             ∧ n_out_regs nneg !! 0%nat = Some reg)
  ∧ (∃ nadd, get_node g' add = Some nadd
             ∧ n_op nadd = iro_ia32_Add
             ∧ n_in nadd !! n_ia32_binary_left = Some neg
             ∧ n_in nadd !! n_ia32_binary_right = Some in1
             ∧ n_mode nadd = n_mode nd
             ∧ n_out_regs nadd !! pn_ia32_res = Some reg
             ∧ n_out_regs nadd !! pn_ia32_flags = Some REG_EFLAGS)
  ∧ sched_nodes g' (n_block nd) = pre ++ neg :: add :: post
  ∧ (∀ u, u ≠ sub → (u < irg_last_idx g)%nat →
       get_node g' u = reroute_node sub add <$> get_node g u)
  ∧ n_op <$> get_node g' sub = Some iro_Deleted.

Ltac solve_elems :=
  intros ?; rewrite ?elem_of_app, ?elem_of_cons, ?elem_of_app, ?elem_of_cons,
    ?elem_of_nil; naive_solver.

Ltac node_lookup :=
  unfold get_node;
  cbn [irg_nodes irg_sched irg_last_idx set_node with_nodes with_sched
       with_last_idx add_node fst snd];
  repeat first [ rewrite lookup_insert_eq
               | rewrite lookup_insert_ne by lia ].

Lemma sub_lt : (sub < irg_last_idx g)%nat.
Proof. by eapply (proj1 Hwf). Qed.

Lemma sub_block : get_nodes_block g sub = Some (n_block nd).
Proof. apply get_nodes_block_value; [done | by rewrite Hop]. Qed.

Lemma in1_ne : in1 ≠ sub.
Proof. intros ->. apply Hself. by eapply list_elem_of_lookup_2. Qed.

Lemma in2_ne : in2 ≠ sub.
Proof. intros ->. apply Hself. by eapply list_elem_of_lookup_2. Qed.

Lemma transform_neg_add fp carry :
  arch_get_irn_register g in2 = Some (Some reg) →
  flags_consumer cc g sub = Some (fp, carry) →
  bool_decide (fp ≠ None) && carry = false →
  ∃ g', ia32_transform_sub_to_neg_add cc ia32_gen_fp_known_const g sub reg
        = Some (g', true)
        ∧ neg_add_inserted g'.
Proof.
  intros Hr Hflags Hcarry. pose proof sub_lt as Hlt.
  unfold ia32_transform_sub_to_neg_add, get_irn_n, get_irn_in, get_irn_mode,
    get_ia32_attr.
  rewrite Hnd. cbn [fmap option_fmap option_map mbind option_bind].
  rewrite Hin2, Hr, Hin1, sub_block.
  rewrite bool_decide_eq_false_2 by (by intros ?).
  unfold is_ia32_xSub, is_ia32_Sbb.
  rewrite !(has_op_node _ _ _ _ Hnd), Hop, Hflags, Hcarry.
  cbn [bool_decide decide_rel].
  rewrite !bool_decide_eq_false_2 by done.
  unfold new_bd_ia32_Neg, new_ia32_node, add_node.
  set (neg := irg_last_idx g).
  set (g1 := with_last_idx _ _).
  set (neg0 := mk_be_node iro_ia32_Neg _ _ _ _ _ _ _ _ _) in g1.
  cbv zeta. cbn [fst snd].
  rewrite (arch_set_irn_register_spec g1 neg reg neg0);
    [| by unfold g1; node_lookup | done..].
  set (g2 := set_node g1 neg _).
  unfold sched_add_before.
  rewrite (sched_update_spec _ g2 sub neg (n_block nd)); cycle 1.
  { unfold is_Proj. erewrite has_op_node; [| unfold g2, g1; node_lookup;
      exact Hnd]. by rewrite Hop. }
  { unfold is_Proj. erewrite has_op_node; [| unfold g2, g1; by node_lookup].
    done. }
  { rewrite (sched_is_scheduled_sched g g2) by done.
    by apply sched_is_scheduled_fresh. }
  { apply get_nodes_block_value with (nd := nd); [| by rewrite Hop].
    unfold g2, g1. by node_lookup. }
  change (sched_nodes g2 (n_block nd)) with (sched_nodes g (n_block nd)).
  rewrite Hsched.
  rewrite insert_before_at by done. cbn [mbind option_bind].
  set (g3 := with_sched g2 _).
  unfold new_bd_ia32_Add, new_ia32_node, add_node.
  change (irg_last_idx g3) with (S neg).
  set (g4 := with_last_idx _ _).
  set (add0 := mk_be_node iro_ia32_Add _ _ _ _ _ _ _ _ _) in g4.
  cbv zeta. cbn [fst snd].
  rewrite arch_set_irn_register_out_modify.
  rewrite (modify_spec g4 (S neg) _ add0) by (unfold g4; by node_lookup).
  set (g5 := set_node g4 _ _). cbn [mbind option_bind].
  rewrite arch_set_irn_register_out_modify.
  erewrite (modify_spec g5 (S neg)) by (unfold g5; by node_lookup).
  set (g6 := set_node g5 _ _).
  unfold set_ia32_commutative, set_ia32_attr.
  fold (modify g6 (S neg)
          (λ nd, with_ia32 nd
                   (mk_ia32_attr (attr_op_type (n_ia32 nd))
                      (attr_am_support (n_ia32 nd)) (attr_ls_mode (n_ia32 nd))
                      (attr_am_ent (n_ia32 nd)) true
                      (attr_condcode (n_ia32 nd))
                      (attr_imm_offset (n_ia32 nd))))).
  erewrite (modify_spec g6 (S neg)) by (unfold g6; by node_lookup).
  set (g7 := set_node g6 _ _).
  rewrite set_irn_mode_modify.
  erewrite (modify_spec g7 (S neg)) by (unfold g7; by node_lookup).
  set (g8 := set_node g7 _ _). cbn [mbind option_bind].
  assert (Hs3 : sched_within g3 neg [neg]).
  { apply sched_within_insert; [by apply (sched_within_wf g) |].
    change (sched_nodes g2 (n_block nd)) with (sched_nodes g (n_block nd)).
    rewrite Hsched. solve_elems. }
  unfold sched_replace.
  rewrite (sched_update_spec _ g8 sub (S neg) (n_block nd)); cycle 1.
  { unfold is_Proj. erewrite has_op_node;
      [| unfold g8, g7, g6, g5, g4, g3, g2, g1; node_lookup; exact Hnd].
    by rewrite Hop. }
  { unfold is_Proj. erewrite has_op_node;
      [| unfold g8, g7, g6, g5, g4; by node_lookup].
    done. }
  { apply (sched_within_not_scheduled g8 neg [neg]);
      [exact Hs3 | lia | rewrite list_elem_of_singleton; lia]. }
  { apply get_nodes_block_value with (nd := nd); [| by rewrite Hop].
    unfold g8, g7, g6, g5, g4, g3, g2, g1. by node_lookup. }
  change (sched_nodes g8 (n_block nd)) with (sched_nodes g3 (n_block nd)).
  unfold g3 at 1. rewrite sched_nodes_with_sched, decide_True by done.
  rewrite (cons_middle neg pre), app_assoc.
  rewrite replace_in_at
    by (rewrite elem_of_app, list_elem_of_singleton; intros [? | ?];
        [done | lia]).
  cbn [mbind option_bind]. set (g9 := with_sched g8 _).
  rewrite (exchange_spec g9 sub (S neg) nd);
    [| lia | unfold g9, g8, g7, g6, g5, g4, g3, g2, g1; by node_lookup].
  cbn [mbind option_bind]. eexists. split; [reflexivity |].
  assert (Hold : ∀ u, (u < neg)%nat → get_node g9 u = get_node g u).
  { intros u Hu. unfold g9, g8, g7, g6, g5, g4, g3, g2, g1. by node_lookup. }
  unfold neg_add_inserted. fold neg. split_and!.
  - done.
  - eexists. split.
    { rewrite get_node_set_node, decide_False by lia.
      rewrite get_node_edges_reroute.
      unfold g9, g8, g7, g6, g5, g4, g3, g2. node_lookup. reflexivity. }
    rewrite n_op_reroute_node, n_out_regs_reroute_node.
    rewrite n_in_reroute_node by done. unfold neg0. cbn.
    rewrite (bool_decide_eq_false_2 (in2 = sub)) by apply in2_ne.
    split_and!; [done | done |]. by rewrite lookup_insert_eq.
  - eexists. split.
    { rewrite get_node_set_node, decide_False by lia.
      rewrite get_node_edges_reroute.
      unfold g9, g8, g7, g6, g5. node_lookup. reflexivity. }
    rewrite n_op_reroute_node, n_out_regs_reroute_node, n_mode_reroute_node.
    rewrite n_in_reroute_node by done. unfold add0. cbn.
    rewrite (bool_decide_eq_false_2 (neg = sub)) by lia.
    rewrite (bool_decide_eq_false_2 (in1 = sub)) by apply in1_ne.
    by split_and!.
  - change (sched_nodes _ (n_block nd)) with (sched_nodes g9 (n_block nd)).
    unfold g9. rewrite sched_nodes_with_sched, decide_True by done.
    by rewrite <- app_assoc.
  - intros u Hne Hu. rewrite get_node_set_node, decide_False by done.
    by rewrite get_node_edges_reroute, Hold.
  - by rewrite get_node_set_node, decide_True.
Qed.

(** What the rewriting leaves when the carry is read: in the place of
    [sub] in the schedule NOT, STC, ADC and CMC, with the users of the
    flags at the CMC and the other users of [sub] at the ADC. *)
Definition not_adc_inserted (flags_proj : irn) (g' : be_graph) : Prop :=
  let stc := irg_last_idx g in
  let nnot := S stc in
  let adc := S nnot in
  let adc_flags := S adc in
  let cmc := S adc_flags in
  irg_last_idx g' = S cmc
  ∧ sched_nodes g' (n_block nd) = pre ++ nnot :: stc :: adc :: cmc :: post
  ∧ (∃ n, get_node g' nnot = Some n
          ∧ n_op n = iro_ia32_Not ∧ n_in n = [in2]
          ∧ n_out_regs n !! 0%nat = Some reg)
  ∧ (∃ n, get_node g' stc = Some n
          ∧ n_op n = iro_ia32_Stc ∧ n_in n = []
          ∧ n_out_regs n !! 0%nat = Some REG_EFLAGS)
  ∧ (∃ n, get_node g' adc = Some n
          ∧ n_op n = iro_ia32_Adc
          ∧ n_in n !! n_ia32_binary_left = Some nnot
          ∧ n_in n !! n_ia32_binary_right = Some in1
          ∧ n_in n !! 5%nat = Some stc
          ∧ n_mode n = mode_T
          ∧ n_out_regs n !! pn_ia32_res = Some reg
          ∧ n_out_regs n !! pn_ia32_Adc_flags = Some REG_EFLAGS)
  ∧ (∃ n, get_node g' adc_flags = Some n
          ∧ n_op n = iro_Proj ∧ n_in n = [adc]
          ∧ n_proj_num n = pn_ia32_Adc_flags)
  ∧ (∃ n, get_node g' cmc = Some n
          ∧ n_op n = iro_ia32_Cmc ∧ n_in n = [adc_flags]
          ∧ n_out_regs n !! 0%nat = Some REG_EFLAGS)
  ∧ (∀ u, u ≠ sub → u ≠ flags_proj → (u < irg_last_idx g)%nat →
       get_node g' u
       = (λ nd, reroute_node sub adc (reroute_node flags_proj cmc nd))
         <$> get_node g u)
  ∧ n_op <$> get_node g' sub = Some iro_Deleted
  ∧ n_op <$> get_node g' flags_proj = Some iro_Deleted.

Lemma transform_not_adc flags_proj :
  arch_get_irn_register g in2 = Some (Some reg) →
  flags_consumer cc g sub = Some (Some flags_proj, true) →
  is_Block g (n_block nd) = true → flags_proj ∉ n_in nd →
  ∃ g', ia32_transform_sub_to_neg_add cc ia32_gen_fp_known_const g sub reg
        = Some (g', true)
        ∧ not_adc_inserted flags_proj g'.
Proof.
  intros Hr Hflags Hblock Hfp_in. pose proof sub_lt as Hlt.
  (* the flags Proj *)
  assert (Hmode : n_mode nd = mode_T).
  { revert Hflags. unfold flags_consumer, get_irn_mode. rewrite Hnd. simpl.
    destruct (bool_decide (n_mode nd = mode_T)) eqn:E; [| done].
    by apply bool_decide_eq_true in E. }
  assert (Hfp : is_Proj g flags_proj = true
                ∧ (flags_proj < irg_last_idx g)%nat).
  { revert Hflags. unfold flags_consumer, get_irn_mode. rewrite Hnd. simpl.
    rewrite Hmode. simpl.
    destruct (get_Proj_for_pn g sub pn_ia32_flags) as [p |] eqn:E; [| done].
    intros [= <- _]. by apply get_Proj_for_pn_is_Proj in E. }
  destruct Hfp as [Hfp_proj Hfp_lt].
  destruct (get_node g flags_proj) as [fnd |] eqn:Hfnd;
    [| by unfold is_Proj, has_op in Hfp_proj; rewrite Hfnd in Hfp_proj].
  assert (Hfp_op : n_op fnd = iro_Proj).
  { unfold is_Proj in Hfp_proj. rewrite (has_op_node _ _ _ _ Hfnd) in Hfp_proj.
    by apply bool_decide_eq_true in Hfp_proj. }
  assert (Hfp_ne : flags_proj ≠ sub).
  { intros ->. rewrite Hnd in Hfnd. injection Hfnd as <-. congruence. }
  assert (Hblock_ne : n_block nd ≠ flags_proj).
  { intros Heq. rewrite Heq in Hblock. unfold is_Block in Hblock.
    rewrite (has_op_node _ _ _ _ Hfnd), Hfp_op in Hblock. done. }
  assert (Hin1_fp : in1 ≠ flags_proj).
  { intros ->. apply Hfp_in. by eapply list_elem_of_lookup_2. }
  assert (Hin2_fp : in2 ≠ flags_proj).
  { intros ->. apply Hfp_in. by eapply list_elem_of_lookup_2. }
  unfold ia32_transform_sub_to_neg_add, get_irn_n, get_irn_in, get_irn_mode,
    get_ia32_attr.
  rewrite Hnd. cbn [fmap option_fmap option_map mbind option_bind].
  rewrite Hin2, Hr, Hin1, sub_block.
  rewrite bool_decide_eq_false_2 by (by intros ?).
  unfold is_ia32_xSub, is_ia32_Sbb.
  rewrite !(has_op_node _ _ _ _ Hnd), Hop, Hflags.
  cbn [bool_decide decide_rel andb].
  rewrite !bool_decide_eq_false_2 by done.
  rewrite bool_decide_eq_true_2 by done. cbn [andb].
  unfold new_bd_ia32_Stc, new_ia32_node, add_node.
  set (stc := irg_last_idx g).
  set (g1 := with_last_idx _ _).
  set (stc0 := mk_be_node iro_ia32_Stc _ _ _ _ _ _ _ _ _) in g1.
  cbv zeta. unfold not_adc.
  unfold new_bd_ia32_Not, new_ia32_node, add_node.
  change (irg_last_idx g1) with (S stc).
  set (g2 := with_last_idx _ _).
  set (not0 := mk_be_node iro_ia32_Not _ _ _ _ _ _ _ _ _) in g2.
  cbv zeta. cbn [fst snd].
  rewrite (arch_set_irn_register_spec g2 (S stc) reg not0);
    [| by unfold g2; node_lookup | done..].
  set (g3 := set_node g2 _ _).
  unfold sched_add_before at 1.
  rewrite (sched_update_spec _ g3 sub (S stc) (n_block nd)); cycle 1.
  { unfold is_Proj. erewrite has_op_node;
      [| unfold g3, g2, g1; node_lookup; exact Hnd].
    by rewrite Hop. }
  { unfold is_Proj. erewrite has_op_node; [| unfold g3; by node_lookup].
    done. }
  { rewrite (sched_is_scheduled_sched g g3) by done.
    apply sched_is_scheduled_fresh; [done | unfold stc; lia]. }
  { apply get_nodes_block_value with (nd := nd); [| by rewrite Hop].
    unfold g3, g2, g1. by node_lookup. }
  change (sched_nodes g3 (n_block nd)) with (sched_nodes g (n_block nd)).
  rewrite Hsched. rewrite insert_before_at by done. cbn [mbind option_bind].
  set (g4 := with_sched g3 _).
  assert (Hs4 : sched_within g4 stc [S stc]).
  { apply sched_within_insert; [by apply (sched_within_wf g) |].
    change (sched_nodes g3 (n_block nd)) with (sched_nodes g (n_block nd)).
    rewrite Hsched. solve_elems. }
  rewrite (arch_set_irn_register_spec g4 stc REG_EFLAGS stc0);
    [| by unfold g4, g3, g2, g1; node_lookup | done..].
  set (g5 := set_node g4 _ _).
  unfold sched_add_before at 1.
  rewrite (sched_update_spec _ g5 sub stc (n_block nd)); cycle 1.
  { unfold is_Proj. erewrite has_op_node;
      [| unfold g5, g4, g3, g2, g1; node_lookup; exact Hnd].
    by rewrite Hop. }
  { unfold is_Proj. erewrite has_op_node; [| unfold g5; by node_lookup].
    done. }
  { apply (sched_within_not_scheduled g5 stc [S stc]);
      [exact Hs4 | lia | rewrite list_elem_of_singleton; lia]. }
  { apply get_nodes_block_value with (nd := nd); [| by rewrite Hop].
    unfold g5, g4, g3, g2, g1. by node_lookup. }
  change (sched_nodes g5 (n_block nd)) with (sched_nodes g4 (n_block nd)).
  unfold g4 at 1. rewrite sched_nodes_with_sched, decide_True by done.
  rewrite (cons_middle (S stc) pre), app_assoc.
  rewrite insert_before_at
    by (rewrite elem_of_app, list_elem_of_singleton; intros [? | ?];
        [done | unfold stc in *; lia]).
  cbn [mbind option_bind]. set (g6 := with_sched g5 _).
  assert (Hs6 : sched_within g6 stc [stc; S stc]).
  { apply (sched_within_insert g5); [exact Hs4 |].
    change (sched_nodes g5 (n_block nd)) with (sched_nodes g4 (n_block nd)).
    unfold g4 at 1. rewrite sched_nodes_with_sched, decide_True by done.
    solve_elems. }
  unfold new_bd_ia32_Adc, new_ia32_node, add_node.
  change (irg_last_idx g6) with (S (S stc)).
  set (g7 := with_last_idx _ _).
  set (adc0 := mk_be_node iro_ia32_Adc _ _ _ _ _ _ _ _ _) in g7.
  cbv zeta. cbn [fst snd].
  rewrite (arch_set_irn_register_spec g7 (S (S stc)) reg adc0);
    [| by unfold g7; node_lookup | done..].
  set (g8 := set_node g7 _ _). cbn [mbind option_bind].
  unfold set_ia32_commutative, set_ia32_attr.
  assert (Hadc8 : get_node g8 (S (S stc))
                  = Some (with_out_regs adc0
                            (<[0%nat := reg]> (n_out_regs adc0))))
    by (unfold g8; by node_lookup).
  rewrite Hadc8. cbn [mbind option_bind].
  set (g9 := set_node g8 _ _).
  rewrite set_irn_mode_modify.
  erewrite (modify_spec g9 (S (S stc))) by (unfold g9; by node_lookup).
  set (g10 := set_node g9 _ _). cbn [mbind option_bind].
  unfold be_new_Proj_reg. rewrite arch_set_irn_register_out_modify.
  erewrite (modify_spec g10 (S (S stc))) by (unfold g10; by node_lookup).
  set (g11 := set_node g10 _ _).
  erewrite (get_nodes_block_value g11 (S (S stc)));
    [| unfold g11; by node_lookup | done].
  unfold add_node. change (irg_last_idx g11) with (S (S (S stc))).
  cbn [n_block with_out_regs with_mode with_ia32 adc0].
  set (g12 := with_last_idx _ _).
  set (proj0 := mk_be_node iro_Proj _ _ _ _ _ _ _ _ _) in g12.
  unfold new_bd_ia32_Cmc, new_ia32_node, add_node.
  change (irg_last_idx g12) with (S (S (S (S stc)))).
  set (g13 := with_last_idx _ _).
  set (cmc0 := mk_be_node iro_ia32_Cmc _ _ _ _ _ _ _ _ _) in g13.
  cbv zeta. cbn [fst snd].
  rewrite (arch_set_irn_register_spec g13 (S (S (S (S stc)))) REG_EFLAGS
             cmc0);
    [| by unfold g13; node_lookup | done..].
  set (g14 := set_node g13 _ _).
  assert (Hsub14 : get_node g14 sub = Some nd).
  { unfold g14, g13, g12, g11, g10, g9, g8, g7, g6, g5, g4, g3, g2, g1.
    node_lookup. exact Hnd. }
  unfold sched_add_after.
  rewrite (sched_update_spec _ g14 sub (S (S (S (S stc)))) (n_block nd));
    cycle 1.
  { unfold is_Proj. rewrite (has_op_node _ _ _ _ Hsub14). by rewrite Hop. }
  { unfold is_Proj. erewrite has_op_node; [| unfold g14; by node_lookup].
    done. }
  { apply (sched_within_not_scheduled g14 stc [stc; S stc]);
      [exact Hs6 | lia | rewrite !elem_of_cons, elem_of_nil; lia]. }
  { apply get_nodes_block_value with (nd := nd); [done | by rewrite Hop]. }
  change (sched_nodes g14 (n_block nd)) with (sched_nodes g6 (n_block nd)).
  unfold g6 at 1. rewrite sched_nodes_with_sched, decide_True by done.
  rewrite (cons_middle stc (pre ++ [S stc])), app_assoc.
  rewrite insert_after_at
    by (rewrite !elem_of_app, !list_elem_of_singleton; intros [[? | ?] | ?];
        [done | unfold stc in *; lia..]).
  cbn [mbind option_bind]. set (g15 := with_sched g14 _).
  assert (Hs15 : sched_within g15 stc [S (S (S (S stc))); stc; S stc]).
  { apply (sched_within_insert g14); [exact Hs6 |].
    change (sched_nodes g14 (n_block nd)) with (sched_nodes g6 (n_block nd)).
    unfold g6 at 1. rewrite sched_nodes_with_sched, decide_True by done.
    solve_elems. }
  assert (Hfp15 : get_node g15 flags_proj = Some fnd).
  { unfold g15, g14, g13, g12, g11, g10, g9, g8, g7, g6, g5, g4, g3, g2, g1.
    node_lookup. exact Hfnd. }
  rewrite (exchange_spec g15 flags_proj (S (S (S (S stc)))) fnd);
    [| lia | done].
  set (g16 := set_node (edges_reroute g15 _ _) _ _).
  cbn [mbind option_bind].
  assert (Hadc15 : ∃ n, get_node g15 (S (S stc)) = Some n
                        ∧ n_op n = iro_ia32_Adc
                        ∧ n_in n = n_in adc0
                        ∧ n_out_regs n = <[pn_ia32_Adc_flags := REG_EFLAGS]>
                                           (<[0%nat := reg]> ∅)).
  { eexists. split.
    - unfold g15, g14, g13, g12, g11. node_lookup. reflexivity.
    - done. }
  destruct Hadc15 as (adc15 & Hadc15 & Hadc15_op & Hadc15_in & Hadc15_regs).
  rewrite set_irn_mode_modify.
  rewrite (modify_spec g16 (S (S stc)) _
             (reroute_node flags_proj (S (S (S (S stc)))) adc15)); cycle 1.
  { unfold g16. rewrite get_node_set_node, decide_False by lia.
    by rewrite get_node_edges_reroute, Hadc15. }
  set (g17 := set_node g16 _ _). cbn [mbind option_bind].
  assert (Hsub17 : get_node g17 sub
                   = Some (reroute_node flags_proj (S (S (S (S stc)))) nd)).
  { unfold g17, g16. rewrite !get_node_set_node, !decide_False by (lia || done).
    rewrite get_node_edges_reroute. unfold g15.
    by rewrite get_node_with_sched, Hsub14. }
  unfold sched_replace.
  rewrite (sched_update_spec _ g17 sub (S (S stc)) (n_block nd)); cycle 1.
  { unfold is_Proj. rewrite (has_op_node _ _ _ _ Hsub17).
    by rewrite n_op_reroute_node, Hop. }
  { unfold is_Proj. erewrite has_op_node; [| unfold g17; by node_lookup].
    cbn. by rewrite n_op_reroute_node, Hadc15_op. }
  { apply (sched_within_not_scheduled g17 stc
             [S (S (S (S stc))); stc; S stc]);
      [exact Hs15 | lia | rewrite !elem_of_cons, elem_of_nil; lia]. }
  { erewrite get_nodes_block_value; [| exact Hsub17 |].
    - by rewrite n_block_reroute_node.
    - by rewrite n_op_reroute_node, Hop. }
  change (sched_nodes g17 (n_block nd)) with (sched_nodes g15 (n_block nd)).
  unfold g15 at 1. rewrite sched_nodes_with_sched, decide_True by done.
  rewrite replace_in_at
    by (rewrite !elem_of_app, !list_elem_of_singleton; intros [[? | ?] | ?];
        [done | unfold stc in *; lia..]).
  cbn [mbind option_bind]. set (g18 := with_sched g17 _).
  rewrite (exchange_spec g18 sub (S (S stc)) _ ltac:(lia) Hsub17).
  cbn [mbind option_bind]. eexists. split; [reflexivity |].
  set (cmc := S (S (S (S stc)))) in *. set (adc := S (S stc)) in *.
  assert (Hnew : ∀ x nx, x ≠ sub → x ≠ flags_proj → x ≠ adc →
            get_node g15 x = Some nx →
            get_node (set_node (edges_reroute g18 sub adc) sub
                        (with_op (reroute_node sub adc
                                    (reroute_node flags_proj cmc nd))
                           iro_Deleted)) x
            = Some (reroute_node sub adc (reroute_node flags_proj cmc nx))).
  { intros x nx Hx1 Hx2 Hx3 Hx.
    rewrite get_node_set_node, decide_False by done.
    rewrite get_node_edges_reroute. unfold g18, g17, g16.
    rewrite get_node_with_sched.
    rewrite !get_node_set_node, !decide_False by done.
    by rewrite get_node_edges_reroute, Hx. }
  assert (Hin_twice : ∀ n,
            n_op n ≠ iro_Deleted →
            n_in (reroute_node sub adc (reroute_node flags_proj cmc n))
            = (λ a, if bool_decide (a = sub) then adc else a)
              <$> ((λ a, if bool_decide (a = flags_proj) then cmc else a)
                   <$> n_in n)).
  { intros n Hn. rewrite n_in_reroute_node by (by rewrite n_op_reroute_node).
    by rewrite n_in_reroute_node. }
  unfold not_adc_inserted. fold stc. fold adc. fold cmc. split_and!.
  - done.
  - change (sched_nodes _ (n_block nd)) with (sched_nodes g18 (n_block nd)).
    unfold g18. rewrite sched_nodes_with_sched, decide_True by done.
    by rewrite <- !app_assoc.
  - eexists. split.
    { apply Hnew; [unfold stc; lia.. | unfold adc; lia |].
      unfold g15, g14, g13, g12, g11, g10, g9, g8, g7, g6, g5, g4, g3.
      node_lookup. reflexivity. }
    rewrite !n_op_reroute_node, !n_out_regs_reroute_node, Hin_twice by done.
    unfold not0. cbn.
    rewrite (bool_decide_eq_false_2 (in2 = flags_proj)) by done.
    rewrite (bool_decide_eq_false_2 (in2 = sub)) by apply in2_ne.
    by split_and!.
  - eexists. split.
    { apply Hnew; [unfold stc; lia.. | unfold adc; lia |].
      unfold g15, g14, g13, g12, g11, g10, g9, g8, g7, g6, g5.
      node_lookup. reflexivity. }
    rewrite !n_op_reroute_node, !n_out_regs_reroute_node, Hin_twice by done.
    by split_and!.
  - eexists. split.
    { rewrite get_node_set_node, decide_False by (unfold adc; lia).
      rewrite get_node_edges_reroute. unfold g18, g17.
      rewrite get_node_with_sched.
      by rewrite get_node_set_node, decide_True. }
    cbn [fmap option_fmap option_map].
    rewrite n_op_reroute_node, n_mode_reroute_node, n_out_regs_reroute_node.
    rewrite n_in_reroute_node
      by (cbn; by rewrite n_op_reroute_node, Hadc15_op).
    cbn [n_op n_in n_mode n_out_regs with_mode].
    rewrite n_op_reroute_node, n_out_regs_reroute_node.
    rewrite n_in_reroute_node by (by rewrite Hadc15_op).
    rewrite Hadc15_op, Hadc15_in, Hadc15_regs. unfold adc0. cbn.
    rewrite !(bool_decide_eq_false_2 (S stc = _)) by (unfold stc; lia).
    rewrite (bool_decide_eq_false_2 (in1 = flags_proj)) by done.
    rewrite (bool_decide_eq_false_2 (in1 = sub)) by apply in1_ne.
    rewrite !(bool_decide_eq_false_2 (stc = _)) by (unfold stc; lia).
    by split_and!.
  - eexists. split.
    { apply Hnew; [unfold stc; lia.. | unfold adc; lia |].
      unfold g15, g14, g13, g12, adc. node_lookup. reflexivity. }
    rewrite !n_op_reroute_node, !n_proj_num_reroute_node, Hin_twice by done.
    unfold proj0. cbn.
    rewrite !(bool_decide_eq_false_2 (S (S stc) = _)) by (unfold stc; lia).
    by split_and!.
  - eexists. split.
    { apply Hnew; [unfold cmc, stc; lia.. | unfold cmc, adc; lia |].
      unfold g15, g14, g13, cmc. node_lookup. reflexivity. }
    rewrite !n_op_reroute_node, !n_out_regs_reroute_node, Hin_twice by done.
    unfold cmc0. cbn.
    rewrite !(bool_decide_eq_false_2 (S (S (S stc)) = _))
      by (unfold stc; lia).
    by split_and!.
  - intros u Hu1 Hu2 Hu3.
    assert (Hu15 : get_node g15 u = get_node g u).
    { unfold g15, g14, g13, g12, g11, g10, g9, g8, g7, g6, g5, g4, g3, g2,
        g1. by node_lookup. }
    destruct (get_node g u) as [nu |] eqn:E.
    + rewrite (Hnew u nu); [done.. | unfold adc, stc; lia | done].
    + rewrite get_node_set_node, decide_False by done.
      rewrite get_node_edges_reroute. unfold g18, g17, g16.
      rewrite get_node_with_sched.
      rewrite !get_node_set_node, !decide_False
        by (done || unfold adc, stc; lia).
      by rewrite get_node_edges_reroute, Hu15.
  - by rewrite get_node_set_node, decide_True.
  - rewrite get_node_set_node, decide_False by done.
    rewrite get_node_edges_reroute. unfold g18, g17.
    rewrite get_node_with_sched.
    rewrite get_node_set_node, decide_False by (unfold adc, stc; lia).
    unfold g16. rewrite get_node_set_node, decide_True by done.
    cbn. by rewrite n_op_reroute_node.
Qed.

End sub.

(** C3, amended.  For a Sub whose requirement "result in the register of
    the left operand" is not met: if the result register is not the one of
    the right operand either, [ia32_handle_2addr] declines and leaves the
    graph alone (the caller then inserts a copy).  If it is, the Sub gives
    way to [neg right; add left] in the schedule; but when the Sub has a
    user of its flags that reads the carry, it gives way to
    [not right; stc; adc; cmc]: the carry comes from an STC scheduled
    after the NOT, the ADC adds the left operand, the negated right one
    and that carry, and the users of the flags are rerouted to the final
    CMC. *)
Theorem ia32_Sub_to_Neg_Add
    (cc : x86_condition_codes)
    (ia32_gen_fp_known_const : ia32_known_const_t → ir_entity)
    (ia32_turn_back_am : be_graph → irn → option (be_graph * irn))
    (ia32_create_Immediate : be_graph → Z → be_graph * irn)
    (ia32_swap_left_right : be_graph → irn → option be_graph)
    (g : be_graph) (sub : irn) (nd : be_node) (req : arch_register_req)
    (reg : arch_register) (in1 in2 : irn) (in2_reg : option arch_register)
    (pre post : list irn) (flags_proj : option irn) (needs_carry : bool) :
  be_graph_wf g →
  get_node g sub = Some nd →
  n_op nd = iro_ia32_Sub →
  attr_op_type (n_ia32 nd) ≠ ia32_AddrModeS →
  req_same_as_next req = false →
  n_in nd !! n_ia32_binary_left = Some in1 →
  n_in nd !! n_ia32_binary_right = Some in2 →
  sub ∉ n_in nd →
  sched_nodes g (n_block nd) = pre ++ sub :: post →
  sub ∉ pre →
  is_Block g (n_block nd) = true →
  arch_get_irn_register g in2 = Some in2_reg →
  flags_consumer cc g sub = Some (flags_proj, needs_carry) →
  (∀ p, flags_proj = Some p → p ∉ n_in nd) →
  let handled :=
    ia32_handle_2addr cc ia32_gen_fp_known_const ia32_turn_back_am
      ia32_create_Immediate ia32_swap_left_right g sub req reg in
  if bool_decide (Some reg ≠ in2_reg) then handled = Some (g, false)
  else
    match flags_proj, needs_carry with
    | Some flags_proj, true =>
        ∃ g', handled = Some (g', true)
              ∧ not_adc_inserted g sub nd reg in1 in2 pre post flags_proj g'
    | _, _ =>
        ∃ g', handled = Some (g', true)
              ∧ neg_add_inserted g sub nd reg in1 in2 pre post g'
    end.
Proof.
  intros Hwf Hnd Hop Ham Hreq Hin1 Hin2 Hself Hsched Hpre Hblock Hr Hflags
    Hfp handled.
  unfold handled. erewrite handle_2addr_Sub by eassumption.
  destruct (bool_decide (Some reg ≠ in2_reg)) eqn:Hne.
  - apply bool_decide_eq_true in Hne. by eapply transform_declines.
  - apply bool_decide_eq_false in Hne.
    assert (in2_reg = Some reg) as ->.
    { destruct (decide (Some reg = in2_reg)); [done | by exfalso]. }
    destruct flags_proj as [p |], needs_carry.
    + eapply transform_not_adc; eauto.
    + eapply transform_neg_add; eauto.
    + eapply transform_neg_add; eauto.
    + eapply transform_neg_add; eauto.
Qed.

End Ia32Finish.

(** ** Two subtractions for ia32

    [a - b] with [b]'s register assigned to the result:
<<
      block 0
        1 Start   2 NoReg_GP   3 NoMem   4 Proj a (eax)   5 Proj b (ebx)
        6 Sub (2, 2, 3, 4, 5) -> ebx
        7 Proj res (6)   8 Proj flags (6)   9 Setcc below (8)
        10 Return (3, 7, 9)
>>
    scheduled as 1, 6, 9, 10; and the same without a user of the flags,
    where the Sub is used directly. *)
Module Ia32Example.

Import Be Ia32Finish.

Definition eax : arch_register := mk_arch_register 0 0 false.
Definition ebx : arch_register := mk_arch_register 1 1 false.

Definition cc : x86_condition_codes := mk_x86_condition_codes 1 2 6 50 54 22 18.

Definition node (op : opcode) (m : mode) (ins : list irn)
    (regs : list (nat * arch_register)) (condcode : Z) : be_node :=
  mk_be_node op m 0 ins 0 false (list_to_map regs) 0 0
    (mk_ia32_attr ia32_Normal ia32_am_binary None None false condcode 0).

Definition proj (m : mode) (pred : irn) (num : nat) : be_node :=
  mk_be_node iro_Proj m 0 [pred] num true ∅ 0 0 ia32_attr_default.

Definition nodes (with_flags : bool) : list (irn * be_node) :=
  [ (0, mk_be_node iro_Block mode_BB 0 [] 0 false ∅ 0 0 ia32_attr_default);
    (1, node iro_Start mode_T [] [(0, eax); (1, ebx)] 0);
    (2, node iro_ia32_NoReg_GP ia32_mode_gp [] [] 0);
    (3, node iro_NoMem mode_M [] [] 0);
    (4, proj ia32_mode_gp 1 0);
    (5, proj ia32_mode_gp 1 1);
    (6, node iro_ia32_Sub (if with_flags then mode_T else ia32_mode_gp)
          [2; 2; 3; 4; 5] [(0, ebx)] 0) ]%nat
  ++ (if with_flags then
        [ (7, proj ia32_mode_gp 6 0);
          (8, proj ia32_mode_flags 6 1);
          (9, node iro_ia32_Setcc ia32_mode_gp [8] [(0, eax)] 2);
          (10, node iro_ia32_Return mode_X [3; 7; 9] [] 0) ]
      else
        [ (10, node iro_ia32_Return mode_X [3; 6] [] 0) ])%nat.

Definition irg_of (with_flags : bool) : be_graph :=
  mk_be_graph (list_to_map (nodes with_flags))
    (list_to_map
       [(0%nat, if with_flags then [1; 6; 9; 10] else [1; 6; 10])%nat])
    ∅ 11 1 0 3 0 2 2.

Definition irg : be_graph := irg_of false.
Definition irg_flags : be_graph := irg_of true.

(** The requirement of the result of Sub: the same register as input 3. *)
Definition req : arch_register_req :=
  mk_arch_register_req (mk_arch_register_class 0 8 true) 1 3 false.

Definition no_am (g : be_graph) (n : irn) : option (be_graph * irn) := None.
Definition no_imm (g : be_graph) (v : Z) : be_graph * irn := (g, 0%nat).
Definition no_swap (g : be_graph) (n : irn) : option be_graph := None.

End Ia32Example.

Module Ia32FinishExample.

Import Be Ia32Finish Ia32Example.

(** The operations of a block's schedule, in order. *)
Definition sched_ops (g : be_graph) (block : irn) : list opcode :=
  omap (λ n, n_op <$> get_node g n) (sched_nodes g block).

Lemma ia32_Sub_to_Neg_Add_witness :
  ∃ g', ia32_handle_2addr cc (λ _, 0%nat) no_am no_imm no_swap irg_flags
          6%nat req ebx = Some (g', true)
        ∧ not_adc_inserted irg_flags 6%nat
            (node iro_ia32_Sub mode_T [2; 2; 3; 4; 5]%nat [(0%nat, ebx)] 0)
            ebx 4%nat 5%nat [1%nat] [9; 10]%nat 8%nat g'.
Proof.
  apply (ia32_Sub_to_Neg_Add cc (λ _, 0%nat) no_am no_imm no_swap irg_flags
           6%nat (node iro_ia32_Sub mode_T [2; 2; 3; 4; 5]%nat
                    [(0%nat, ebx)] 0)
           req ebx 4%nat 5%nat (Some ebx) [1%nat] [9; 10]%nat
           (Some 8%nat) true).
  - apply be_graph_wfb_spec. vm_compute. reflexivity.
  - vm_compute. reflexivity.
  - reflexivity.
  - discriminate.
  - reflexivity.
  - reflexivity.
  - reflexivity.
  - apply (bool_decide_unpack _). vm_compute. exact I.
  - vm_compute. reflexivity.
  - apply (bool_decide_unpack _). vm_compute. exact I.
  - vm_compute. reflexivity.
  - vm_compute. reflexivity.
  - vm_compute. reflexivity.
  - intros p [= <-]. apply (bool_decide_unpack _). vm_compute. exact I.
Defined.

(** The schedule the claim describes, [cmc; not; adc; cmc] in the place of
    the Sub, is not the one the code produces: the carry that enters the
    ADC is set by an STC scheduled after the NOT. *)
Lemma ia32_Sub_to_Neg_Add_counterexample :
  ∃ g', ia32_handle_2addr cc (λ _, 0%nat) no_am no_imm no_swap irg_flags
          6%nat req ebx = Some (g', true)
        ∧ arch_get_irn_register irg_flags 5%nat = Some (Some ebx)
        ∧ flags_consumer cc irg_flags 6%nat = Some (Some 8%nat, true)
        ∧ sched_ops irg_flags 0%nat
          = [iro_Start; iro_ia32_Sub; iro_ia32_Setcc; iro_ia32_Return]
        ∧ sched_ops g' 0%nat
          = [iro_Start; iro_ia32_Not; iro_ia32_Stc; iro_ia32_Adc;
             iro_ia32_Cmc; iro_ia32_Setcc; iro_ia32_Return]
        ∧ sched_ops g' 0%nat
          ≠ [iro_Start; iro_ia32_Cmc; iro_ia32_Not; iro_ia32_Adc;
             iro_ia32_Cmc; iro_ia32_Setcc; iro_ia32_Return].
Proof.
  destruct (ia32_handle_2addr cc (λ _, 0%nat) no_am no_imm no_swap irg_flags
              6%nat req ebx) as [[g' b] |] eqn:E; [| by vm_compute in E].
  assert (b = true) as ->.
  { apply (f_equal (fmap snd)) in E. vm_compute in E. by inversion E. }
  exists g'. split; [done |].
  assert (sched_ops g' 0%nat
          = [iro_Start; iro_ia32_Not; iro_ia32_Stc; iro_ia32_Adc;
             iro_ia32_Cmc; iro_ia32_Setcc; iro_ia32_Return]) as Hops.
  { apply (f_equal (fmap (λ r, sched_ops r.1 0%nat))) in E.
    vm_compute in E. by inversion E. }
  split_and!; [by vm_compute | by vm_compute | by vm_compute | done |].
  rewrite Hops. discriminate.
Qed.

End Ia32FinishExample.
